(** * validate_jsonl: a JSON-Lines validator

    A shallow embedding of [scripts/validate_jsonl.py] and the proofs of
    its specification.

    The script reads the path given as its first argument, opens the file
    as UTF-8 text, parses every non-blank line with [json.loads], prints one
    [[ERROR]] line per line that does not parse, and either exits with
    status 1 or prints one [[OK]] line.

    Modelling choices.
    - A Python [str] is a list of Unicode code points ([N]).
    - The mutable variable [ok] and the standard output are threaded through
      the loop as an explicit [state].  Every call of [json.loads] and of
      [print] is recorded, in order, in the state's trace.
    - The world outside the script (its arguments and the file system) is a
      [world]: opening a path either fails with an [OSError] or gives the
      sequence of lines that iterating the file yields, possibly cut short
      by an exception raised by the read itself (a [UnicodeDecodeError]).
    - [print] always succeeds: the standard output is taken to be open and
      able to encode every string.
    - [json.loads] and the [str] of a [pathlib.Path] belong to the Python
      runtime, not to the script.  The script is embedded over an arbitrary
      [json_loads] and [path_str]; module [PyJson] gives CPython's decoder
      and [posix_path_str] the POSIX flavour of [pathlib], for the results
      that depend on them and for running the script on concrete files. *)

From Stdlib Require Import List Bool Arith NArith ZArith Lia.
From Stdlib Require Import Ascii String DecimalString.
From Stdlib Require DecimalPos DecimalZ Sorted.
Import ListNotations.

(** [length] is the length of a list; that of a literal is [String.length]. *)
Abbreviation length := Datatypes.length (only parsing).

(* ================================================================== *)
(** * Python strings *)

(** A Python [str]: a sequence of code points. *)
Definition str : Type := list N.

(** The [str] of a literal of the script. *)
Definition py (s : string) : str := map N_of_ascii (list_ascii_of_string s).

(** The line feed, as a string. *)
Definition newline : str := [10%N].

(** The quotation mark, as a string. *)
Definition dquote : str := [34%N].

(** [c == "x"] for a code point [c]; the quotation mark is ["034"]. *)
Definition is_ (a : ascii) (c : N) : bool := N.eqb c (N_of_ascii a).

(** [str.isspace] on one code point, as [str.strip] uses it: the ASCII
    white space [\t \n \v \f \r], the separators [0x1c]-[0x1f], the space,
    and the Unicode white space outside ASCII. *)
Definition isspace (c : N) : bool :=
  ((9 <=? c) && (c <=? 13) || (28 <=? c) && (c <=? 32)
   || (c =? 133) || (c =? 160) || (c =? 5760)
   || (8192 <=? c) && (c <=? 8202)
   || (c =? 8232) || (c =? 8233) || (c =? 8239) || (c =? 8287)
   || (c =? 12288))%N.

Fixpoint lstrip (s : str) : str :=
  match s with
  | c :: s' => if isspace c then lstrip s' else s
  | [] => []
  end.

Definition rstrip (s : str) : str := rev (lstrip (rev s)).

(** [s.strip()] without arguments. *)
Definition strip (s : str) : str := rstrip (lstrip s).

(** Truth value of a [str]: [not s] holds of the empty string only. *)
Definition not_ (s : str) : bool :=
  match s with [] => true | _ :: _ => false end.

(** [s == t] *)
Fixpoint str_eqb (s t : str) : bool :=
  match s, t with
  | [], [] => true
  | c :: s', d :: t' => N.eqb c d && str_eqb s' t'
  | _, _ => false
  end.

(** [str(n)] for a Python [int]. *)
Definition str_of_int (n : Z) : str := py (NilZero.string_of_int (Z.to_int n)).

Definition str_of_nat (n : nat) : str := str_of_int (Z.of_nat n).

(* ================================================================== *)
(** * The world of the script *)

Inductive os_error : Type :=
| FileNotFoundError
| PermissionError
| IsADirectoryError
| OtherOSError.

(** What iterating an open text file can raise instead of the next line. *)
Inductive read_error : Type :=
| Undecodable                  (* bytes that are not UTF-8 *)
| ReadFailed (e : os_error).   (* the read itself failed *)

(** An open text file, seen through its iterator: the lines it yields, in
    order, and how the iteration ends ([None] is [StopIteration] at the end
    of the file, [Some e] an exception raised by the read). *)
Record text_file : Type := TextFile {
  lines : list str;
  read_failure : option read_error
}.

Record world : Type := World {
  argv : list str;                          (* sys.argv *)
  open_file : str -> os_error + text_file   (* open(path, "r", encoding="utf-8") *)
}.

Inductive exn : Type :=
| IndexError
| OSError (e : os_error)
| UnicodeDecodeError
| SystemExit (code : Z).

Definition exn_of_read_error (e : read_error) : exn :=
  match e with
  | Undecodable => UnicodeDecodeError
  | ReadFailed e => OSError e
  end.

(** The calls the script makes to the outside, in the order it makes them. *)
Inductive event : Type :=
| Parse (s : str)    (* json.loads(s) *)
| Print (s : str).   (* print(s) *)

(** How the process ends: by running off the end of the script, or by an
    exception that nothing catches ([sys.exit] raises [SystemExit]). *)
Inductive termination : Type :=
| Completed
| Uncaught (e : exn).

Record outcome : Type := Outcome {
  events : list event;
  ending : termination
}.

(** Exit status of the interpreter: 0 at the end of the script, the code of
    a [SystemExit], 1 after any other uncaught exception. *)
Definition exit_status (t : termination) : Z :=
  match t with
  | Completed => 0
  | Uncaught (SystemExit code) => code
  | Uncaught _ => 1
  end%Z.

(** The strings given to [print], in order. *)
Fixpoint printed (t : list event) : list str :=
  match t with
  | [] => []
  | Print s :: t' => s :: printed t'
  | Parse _ :: t' => printed t'
  end.

(** The arguments given to [json.loads], in order. *)
Fixpoint parsed (t : list event) : list str :=
  match t with
  | [] => []
  | Parse s :: t' => s :: parsed t'
  | Print _ :: t' => parsed t'
  end.

(** Universal-newline splitting of a decoded text, as iterating a file
    opened in text mode does it: a line ends after ["\n"], ["\r\n"] or
    ["\r"], each handed over as ["\n"]; a last line without terminator is
    yielded as it is. *)
Fixpoint io_lines (cur : str) (text : str) : list str :=
  match text with
  | [] => if not_ cur then [] else [cur]
  | c :: text' =>
      if is_ "010" c then (cur ++ [c]) :: io_lines [] text'
      else if is_ "013" c then
        match text' with
        | c' :: text'' =>
            if is_ "010" c' then (cur ++ [c']) :: io_lines [] text''
            else (cur ++ newline) :: io_lines [] text'
        | [] => [cur ++ newline]
        end
      else io_lines (cur ++ [c]) text'
  end.

(** A readable file whose bytes decode to [text]. *)
Definition file_of_text (text : str) : text_file :=
  {| lines := io_lines [] text; read_failure := None |}.

(* ================================================================== *)
(** * The script *)

(** Result of [json.loads(s)] as the script sees it: a value, which it
    drops, or an exception [e] below [Exception], of which it prints
    [str(e)]. *)
Inductive loads_result : Type :=
| Parsed
| Raised (message : str).

(** The variables the loop updates: the flag [ok] and the standard output,
    kept as the trace of calls. *)
Record state : Type := State {
  ok : bool;
  trace : list event
}.

Definition log (e : event) (st : state) : state :=
  {| ok := ok st; trace := trace st ++ [e] |}.

Definition print (s : str) (st : state) : state := log (Print s) st.

Definition set_ok (b : bool) (st : state) : state :=
  {| ok := b; trace := trace st |}.

(** [enumerate(f, start)] *)
Fixpoint enumerate {A : Type} (start : Z) (f : list A) : list (Z * A) :=
  match f with
  | [] => []
  | x :: f' => (start, x) :: enumerate (start + 1) f'
  end.

(** f"[ERROR] {path}:{i} invalid JSON: {e}" *)
Definition error_line (path : str) (i : Z) (e : str) : str :=
  py "[ERROR] " ++ path ++ py ":" ++ str_of_int i ++ py " invalid JSON: " ++ e.

(** f"[OK] {path} looks like valid JSONL" *)
Definition ok_line (path : str) : str :=
  py "[OK] " ++ path ++ py " looks like valid JSONL".

Section Script.

(** [json.loads] on a [str]. *)
Variable json_loads : str -> loads_result.

(** [str(pathlib.Path(arg))]: the path as it is printed and opened. *)
Variable path_str : str -> str.

(** The body of the [for] loop, for line number [i] and raw line [line]. *)
Definition loop_body (path : str) (i : Z) (line : str) (st : state) : state :=
  let line := strip line in                         (* line = line.strip() *)
  if not_ line then st                              (* if not line: continue *)
  else
    let st := log (Parse line) st in                (* try: json.loads(line) *)
    match json_loads line with
    | Parsed => st
    | Raised e =>                                   (* except Exception as e: *)
        set_ok false (print (error_line path i e) st)
    end.

(** The [for] loop over [enumerate(f, start)], from the state [st]. *)
Definition for_lines (path : str) (start : Z) (f : list str) (st : state)
  : state :=
  fold_left (fun st '(i, line) => loop_body path i line st)
            (enumerate start f) st.

(** The state after the loop over the lines [f], entered with [ok = True]
    and nothing printed. *)
Definition scan_lines (path : str) (f : list str) : state :=
  for_lines path 1 f {| ok := true; trace := [] |}.

(** The whole script. *)
Definition validate_jsonl (w : world) : outcome :=
  match nth_error (argv w) 1 with                     (* sys.argv[1] *)
  | None => {| events := []; ending := Uncaught IndexError |}
  | Some arg =>
      let path := path_str arg in                     (* pathlib.Path(...) *)
      match open_file w path with                     (* with path.open(...) as f: *)
      | inl e => {| events := []; ending := Uncaught (OSError e) |}
      | inr f =>
          let st := scan_lines path (lines f) in      (* ok = True; for ...: ... *)
          match read_failure f with
          | Some e =>
              {| events := trace st; ending := Uncaught (exn_of_read_error e) |}
          | None =>
              if negb (ok st) then                    (* if not ok: sys.exit(1) *)
                {| events := trace st; ending := Uncaught (SystemExit 1) |}
              else                                    (* print(f"[OK] ...") *)
                {| events := trace (print (ok_line path) st);
                   ending := Completed |}
          end
      end
  end.

End Script.

(* ================================================================== *)
(** * The Python runtime: [pathlib] *)

(** [s.split("/")] *)
Fixpoint split_slash (cur : str) (s : str) : list str :=
  match s with
  | [] => [cur]
  | c :: s' =>
      if is_ "/" c then cur :: split_slash [] s' else split_slash (cur ++ [c]) s'
  end.

(** ["/".join(parts)] *)
Fixpoint join_slash (parts : list str) : str :=
  match parts with
  | [] => []
  | [p] => p
  | p :: parts' => p ++ py "/" ++ join_slash parts'
  end.

Fixpoint lstrip_slash (s : str) : str :=
  match s with
  | c :: s' => if is_ "/" c then lstrip_slash s' else s
  | [] => []
  end.

(** [str(pathlib.PurePosixPath(arg))]: the root is ["//"] for exactly two
    leading slashes and ["/"] for any other number of them; empty and ["."]
    components are dropped; the empty path is ["."]. *)
Definition posix_path_str (arg : str) : str :=
  let rel := lstrip_slash arg in
  let root :=
    match length arg - length rel with
    | 0 => []
    | 2 => py "//"
    | _ => py "/"
    end in
  let parts :=
    filter (fun x => negb (not_ x) && negb (str_eqb x (py ".")))
           (split_slash [] rel) in
  match root ++ join_slash parts with
  | [] => py "."
  | p => p
  end.

(* ================================================================== *)
(** * The Python runtime: [json.loads]

    CPython's JSON decoder ([json.decoder] with the scanner of [_json]), as
    a recogniser: the script drops the decoded value and keeps only whether
    the call raised, and with which message.  The integers and the nesting
    of the model are unbounded: the interpreter's limit on the digits of an
    integer literal and its recursion limit, which are settings of the
    runtime, are left out. *)

Module PyJson.

(** Outcome of scanning one value at index [idx] of the document. *)
Inductive scan_result : Type :=
| Ok (rest : str) (end_ : nat)            (* a value; the text and index after it *)
| StopIteration (idx : nat)               (* no value starts at [idx] *)
| DecodeError (msg : string) (pos : nat)  (* JSONDecodeError(msg, doc, pos) *)
| OutOfFuel.                              (* the bound of the model is used up *)

(** JSON white space: space, tab, line feed, carriage return. *)
Definition is_ws (c : N) : bool :=
  is_ " " c || is_ "009" c || is_ "010" c || is_ "013" c.

Fixpoint skip_ws (s : str) (idx : nat) : str * nat :=
  match s with
  | c :: s' => if is_ws c then skip_ws s' (S idx) else (s, idx)
  | [] => (s, idx)
  end.

Definition is_digit (c : N) : bool := (48 <=? c)%N && (c <=? 57)%N.

Definition is_digit19 (c : N) : bool := (49 <=? c)%N && (c <=? 57)%N.

Definition is_hex (c : N) : bool :=
  is_digit c || (97 <=? c)%N && (c <=? 102)%N || (65 <=? c)%N && (c <=? 70)%N.

Fixpoint skip_digits (s : str) (idx : nat) : str * nat :=
  match s with
  | c :: s' => if is_digit c then skip_digits s' (S idx) else (s, idx)
  | [] => (s, idx)
  end.

(** The escapes of one character after a backslash. *)
Definition is_escape (c : N) : bool :=
  is_ "034" c || is_ "\" c || is_ "/" c || is_ "b" c || is_ "f" c
  || is_ "n" c || is_ "r" c || is_ "t" c.

(** [scanstring(s, end)] in strict mode; [begin] is the index of the
    opening quote and [s] the text from index [end_] on.  A high
    surrogate directly followed by a low one is joined into one character
    of the value, which changes neither what is accepted nor the error
    raised, so the two escapes are scanned one after the other. *)
Fixpoint scanstring (begin : nat) (s : str) (end_ : nat) : scan_result :=
  match s with
  | [] => DecodeError "Unterminated string starting at" begin
  | c :: s1 =>
      if is_ "034" c then Ok s1 (S end_)
      else if is_ "\" c then
        match s1 with
        | [] => DecodeError "Unterminated string starting at" begin
        | esc :: s2 =>
            if is_ "u" esc then
              match s2 with
              | h1 :: h2 :: h3 :: h4 :: ((_ :: _) as s3) =>
                  if is_hex h1 && is_hex h2 && is_hex h3 && is_hex h4
                  then scanstring begin s3 (6 + end_)
                  else DecodeError "Invalid \uXXXX escape" (S end_)
              | _ => DecodeError "Invalid \uXXXX escape" (S end_)
              end
            else if is_escape esc then scanstring begin s2 (2 + end_)
            else DecodeError "Invalid \escape" end_
        end
      else if (c <=? 31)%N then DecodeError "Invalid control character at" end_
      else scanstring begin s1 (S end_)
  end.

(** The fraction of a number, if one follows: ["."] and digits. *)
Definition match_frac (s : str) (idx : nat) : str * nat :=
  match s with
  | dot :: d :: s' =>
      if is_ "." dot && is_digit d then skip_digits s' (2 + idx) else (s, idx)
  | _ => (s, idx)
  end.

(** The exponent of a number, if one follows: [e] or [E], a sign or none,
    and digits; without a digit nothing is consumed. *)
Definition match_exp (s : str) (idx : nat) : str * nat :=
  match s with
  | e :: s1 =>
      if is_ "e" e || is_ "E" e then
        let (s2, i2) :=
          match s1 with
          | sign :: (_ :: _) as s' =>
              if is_ "-" sign || is_ "+" sign then (s', 2 + idx)
              else (s1, S idx)
          | _ => (s1, S idx)
          end in
        match s2 with
        | d :: s3 => if is_digit d then skip_digits s3 (S i2) else (s, idx)
        | [] => (s, idx)
        end
      else (s, idx)
  | [] => (s, idx)
  end.

(** The longest JSON number at the start of [s], if there is one. *)
Definition match_number (s : str) (idx : nat) : option (str * nat) :=
  let (s1, i1) :=
    match s with
    | c :: s' => if is_ "-" c then (s', S idx) else (s, idx)
    | [] => (s, idx)
    end in
  match s1 with
  | c :: s2 =>
      if is_digit19 c then
        let (s3, i3) := skip_digits s2 (S i1) in
        let (s4, i4) := match_frac s3 i3 in
        Some (match_exp s4 i4)
      else if is_ "0" c then
        let (s4, i4) := match_frac s2 (S i1) in
        Some (match_exp s4 i4)
      else None
  | [] => None
  end.

(** [s] starts with the literal [lit]; the text after it. *)
Fixpoint after_prefix (lit : str) (s : str) : option str :=
  match lit, s with
  | [], _ => Some s
  | a :: lit', c :: s' => if N.eqb a c then after_prefix lit' s' else None
  | _ :: _, [] => None
  end.

(** The literal names, among them the three that JSON does not have and
    the decoder accepts all the same. *)
Definition constants : list string :=
  ["null"; "true"; "false"; "NaN"; "Infinity"; "-Infinity"]%string.

Fixpoint match_constant (names : list string) (s : str) (idx : nat)
  : option (str * nat) :=
  match names with
  | [] => None
  | name :: names' =>
      match after_prefix (py name) s with
      | Some rest => Some (rest, String.length name + idx)
      | None => match_constant names' s idx
      end
  end.

Section Containers.

(** The scanner for the values inside an array or an object. *)
Variable scan_once : str -> nat -> scan_result.

(** The loop of the array parser, entered at the first character of an
    element; [n] bounds the number of elements, and the parser starts
    it with more than the text can hold. *)
Fixpoint array_loop (n : nat) (s : str) (idx : nat) : scan_result :=
  match n with
  | O => OutOfFuel
  | S n' =>
      match scan_once s idx with
      | Ok s1 i1 =>
          let (s2, i2) := skip_ws s1 i1 in
          match s2 with
          | c :: s3 =>
              if is_ "]" c then Ok s3 (S i2)
              else if is_ "," c then
                let (s4, i4) := skip_ws s3 (S i2) in array_loop n' s4 i4
              else DecodeError "Expecting ',' delimiter" i2
          | [] => DecodeError "Expecting ',' delimiter" i2
          end
      | r => r
      end
  end.

(** The array parser, after the opening bracket. *)
Definition parse_array (s : str) (idx : nat) : scan_result :=
  let (s1, i1) := skip_ws s idx in
  match s1 with
  | c :: s2 =>
      if is_ "]" c then Ok s2 (S i1)
      else array_loop (S (length s1)) s1 i1
  | [] => array_loop (S (length s1)) s1 i1
  end.

(** The loop of the object parser, entered where a key is expected;
    [n] bounds the number of members. *)
Fixpoint object_loop (n : nat) (s : str) (idx : nat) : scan_result :=
  match n with
  | O => OutOfFuel
  | S n' =>
      match s with
      | q :: s0 =>
          if is_ "034" q then
            match scanstring idx s0 (S idx) with
            | Ok s1 i1 =>
                let (s2, i2) := skip_ws s1 i1 in
                match s2 with
                | colon :: s3 =>
                    if is_ ":" colon then
                      let (s4, i4) := skip_ws s3 (S i2) in
                      match scan_once s4 i4 with
                      | Ok s5 i5 =>
                          let (s6, i6) := skip_ws s5 i5 in
                          match s6 with
                          | c :: s7 =>
                              if is_ "}" c then Ok s7 (S i6)
                              else if is_ "," c then
                                let (s8, i8) := skip_ws s7 (S i6) in
                                object_loop n' s8 i8
                              else DecodeError "Expecting ',' delimiter" i6
                          | [] => DecodeError "Expecting ',' delimiter" i6
                          end
                      | r => r
                      end
                    else DecodeError "Expecting ':' delimiter" i2
                | [] => DecodeError "Expecting ':' delimiter" i2
                end
            | r => r
            end
          else
            DecodeError "Expecting property name enclosed in double quotes" idx
      | [] =>
          DecodeError "Expecting property name enclosed in double quotes" idx
      end
  end.

(** The object parser, after the opening brace. *)
Definition parse_object (s : str) (idx : nat) : scan_result :=
  let (s1, i1) := skip_ws s idx in
  match s1 with
  | c :: s2 =>
      if is_ "}" c then Ok s2 (S i1)
      else object_loop (S (length s1)) s1 i1
  | [] => object_loop (S (length s1)) s1 i1
  end.

End Containers.

(** [scan_once(s, idx)], on the text [s] from index [idx] on; [depth]
    bounds the nesting of arrays and objects, and [json_loads] starts it
    with more than the document can hold. *)
Fixpoint scan_once (depth : nat) (s : str) (idx : nat) : scan_result :=
  match depth with
  | O => OutOfFuel
  | S depth' =>
      match s with
      | [] => StopIteration idx
      | nextchar :: s' =>
          if is_ "034" nextchar then scanstring idx s' (S idx)
          else if is_ "{" nextchar then
            parse_object (scan_once depth') s' (S idx)
          else if is_ "[" nextchar then
            parse_array (scan_once depth') s' (S idx)
          else
            match match_constant constants s idx with
            | Some (rest, end_) => Ok rest end_
            | None =>
                match match_number s idx with
                | Some (rest, end_) => Ok rest end_
                | None => StopIteration idx
                end
            end
      end
  end.

(** [sub in s[:pos]], counted and located for the message of an error. *)
Fixpoint count_newlines (s : str) (pos : nat) : nat :=
  match pos, s with
  | S pos', c :: s' =>
      (if is_ "010" c then 1 else 0) + count_newlines s' pos'
  | _, _ => 0
  end.

(** [pos - doc.rfind("\n", 0, pos)]: the column of [pos], from 1. *)
Fixpoint column (s : str) (pos : nat) (col : nat) : nat :=
  match pos, s with
  | S pos', c :: s' => column s' pos' (if is_ "010" c then 1 else S col)
  | _, _ => col
  end.

(** [str(JSONDecodeError(msg, doc, pos))] *)
Definition errmsg (msg : string) (doc : str) (pos : nat) : str :=
  py msg ++ py ": line " ++ str_of_nat (S (count_newlines doc pos))
  ++ py " column " ++ str_of_nat (column doc pos 1)
  ++ py " (char " ++ str_of_nat pos ++ py ")".

(** [json.loads(s)] for a [str]: no byte order mark, then white space,
    one value, white space, and the end of the document. *)
Definition json_loads (s : str) : loads_result :=
  if match s with c :: _ => N.eqb c 65279 | [] => false end then
    Raised (errmsg "Unexpected UTF-8 BOM (decode using utf-8-sig)" s 0)
  else
    let (s0, idx) := skip_ws s 0 in
    match scan_once (S (length s)) s0 idx with
    | Ok rest end_ =>
        let (rest', end') := skip_ws rest end_ in
        if not_ rest' then Parsed
        else Raised (errmsg "Extra data" s end')
    | StopIteration i => Raised (errmsg "Expecting value" s i)
    | DecodeError msg pos => Raised (errmsg msg s pos)
    | OutOfFuel => Raised (py "RecursionError")   (* never: [json_loads_total] *)
    end.

End PyJson.

(* ================================================================== *)
(** * What the specification speaks of *)

(** The grammar of JSON (ECMA-404, RFC 8259), on code points. *)
Module Json.

Definition ws_char (c : N) : Prop := c = 32%N \/ c = 9%N \/ c = 10%N \/ c = 13%N.

(** ws: any number of spaces, tabs, line feeds and carriage returns *)
Definition ws (w : str) : Prop := Forall ws_char w.

Definition digit (c : N) : Prop := (48 <= c <= 57)%N.

Definition onenine (c : N) : Prop := (49 <= c <= 57)%N.

Definition hex (c : N) : Prop :=
  digit c \/ (65 <= c <= 70)%N \/ (97 <= c <= 102)%N.

(** digits: one digit or more *)
Inductive digits : str -> Prop :=
| digits_one d : digit d -> digits [d]
| digits_more d ds : digit d -> digits ds -> digits (d :: ds).

(** integer: a digit, or a digit from 1 to 9 and digits; a minus sign
    or none before them *)
Inductive integer : str -> Prop :=
| integer_digit d : digit d -> integer [d]
| integer_digits d ds : onenine d -> digits ds -> integer (d :: ds)
| integer_minus_digit d : digit d -> integer (py "-" ++ [d])
| integer_minus_digits d ds :
    onenine d -> digits ds -> integer (py "-" ++ d :: ds).

Inductive fraction : str -> Prop :=
| fraction_none : fraction []
| fraction_digits ds : digits ds -> fraction (py "." ++ ds).

Inductive sign : str -> Prop :=
| sign_none : sign []
| sign_plus : sign (py "+")
| sign_minus : sign (py "-").

Inductive exponent : str -> Prop :=
| exponent_none : exponent []
| exponent_E sg ds : sign sg -> digits ds -> exponent (py "E" ++ sg ++ ds)
| exponent_e sg ds : sign sg -> digits ds -> exponent (py "e" ++ sg ++ ds).

Inductive number : str -> Prop :=
| number_parts i f e :
    integer i -> fraction f -> exponent e -> number (i ++ f ++ e).

(** characters: any code point from U+0020 on except the quotation mark
    and the backslash, or an escape *)
Inductive characters : str -> Prop :=
| characters_none : characters []
| characters_plain c cs :
    (32 <= c <= 1114111)%N -> c <> 34%N -> c <> 92%N ->
    characters cs -> characters (c :: cs)
| characters_escape e cs :
    In e (dquote ++ py "\/bfnrt") ->
    characters cs -> characters (py "\" ++ e :: cs)
| characters_hex h1 h2 h3 h4 cs :
    hex h1 -> hex h2 -> hex h3 -> hex h4 ->
    characters cs -> characters (py "\u" ++ h1 :: h2 :: h3 :: h4 :: cs).

Inductive value : str -> Prop :=
| value_null : value (py "null")
| value_true : value (py "true")
| value_false : value (py "false")
| value_number n : number n -> value n
| value_string cs : characters cs -> value (dquote ++ cs ++ dquote)
| value_array_empty w : ws w -> value (py "[" ++ w ++ py "]")
| value_array es : elements es -> value (py "[" ++ es ++ py "]")
| value_object_empty w : ws w -> value (py "{" ++ w ++ py "}")
| value_object ms : members ms -> value (py "{" ++ ms ++ py "}")

(** elements: values between white space, separated by commas *)
with elements : str -> Prop :=
| elements_one w1 v w2 :
    ws w1 -> value v -> ws w2 -> elements (w1 ++ v ++ w2)
| elements_more w1 v w2 es :
    ws w1 -> value v -> ws w2 -> elements es ->
    elements (w1 ++ v ++ w2 ++ py "," ++ es)

(** members: a string, a colon and a value, separated by commas *)
with members : str -> Prop :=
| members_one w1 k w2 w3 v w4 :
    ws w1 -> characters k -> ws w2 -> ws w3 -> value v -> ws w4 ->
    members (w1 ++ dquote ++ k ++ dquote ++ w2 ++ py ":" ++ w3 ++ v ++ w4)
| members_more w1 k w2 w3 v w4 ms :
    ws w1 -> characters k -> ws w2 -> ws w3 -> value v -> ws w4 ->
    members ms ->
    members (w1 ++ dquote ++ k ++ dquote ++ w2 ++ py ":" ++ w3 ++ v ++ w4
             ++ py "," ++ ms).

(** A JSON text: one value, with white space around it or none. *)
Definition json (t : str) : Prop :=
  exists w1 v w2, ws w1 /\ value v /\ ws w2 /\ t = w1 ++ v ++ w2.

Scheme value_elements_ind := Minimality for value Sort Prop
  with elements_value_ind := Minimality for elements Sort Prop
  with members_value_ind := Minimality for members Sort Prop.

Combined Scheme value_mutind
  from value_elements_ind, elements_value_ind, members_value_ind.

End Json.

Section Report.

Variable json_loads : str -> loads_result.

(** A line counts when something is left of it after [strip]. *)
Definition blank (line : str) : Prop := strip line = [].

(** A line is well formed when it is blank or its stripped text parses. *)
Definition well_formed (line : str) : Prop :=
  strip line <> [] -> json_loads (strip line) = Parsed.

(** Whether the loop leaves the flag alone on [line]. *)
Definition accepts (line : str) : bool :=
match strip line with
| [] => true
| _ :: _ =>
    match json_loads (strip line) with
    | Parsed => true
    | Raised _ => false
    end
end.

(** The malformed lines of [f], in file order: for each non-blank line
    that the parser refuses, its number, counted from [start], and the
    parser's message. *)
Definition malformed_lines (start : Z) (f : list str) : list (Z * str) :=
  flat_map
    (fun '(i, line) =>
       match strip line with
       | [] => []
       | _ :: _ =>
           match json_loads (strip line) with
           | Raised e => [(i, e)]
           | Parsed => []
           end
       end)
    (enumerate start f).

(** What the loop body does for line [i] on its own: its calls, in order. *)
Definition line_events (path : str) (il : Z * str) : list event :=
trace (loop_body json_loads path (fst il) (snd il) {| ok := true; trace := [] |}).

(** The diagnostic of one malformed line. *)
Definition diagnostic (path : str) (ie : Z * str) : str :=
error_line path (fst ie) (snd ie).

End Report.

(** The text [s] does not start with a digit. *)
Definition starts_digit (s : str) : bool :=
  match s with c :: _ => PyJson.is_digit c | [] => false end.

(** The text [s] can stand after a value: it is empty or starts with white
    space, a comma, a closing bracket or a closing brace. *)
Definition ends_value (s : str) : Prop :=
  match s with
  | [] => True
  | c :: _ => Json.ws_char c \/ c = 44%N \/ c = 93%N \/ c = 125%N
  end.

(** The result [r] of scanning [s] is within the bounds of the model, and
    a value that was scanned took at least one character of [s]. *)
Definition consumes (s : str) (r : PyJson.scan_result) : Prop :=
  match r with
  | PyJson.Ok rest _ => length rest < length s
  | PyJson.OutOfFuel => False
  | _ => True
  end.

(** [f'] is [f] with blank lines added, anywhere and any number of them. *)
Inductive padded : list str -> list str -> Prop :=
| padded_nil : padded [] []
| padded_line line f f' : padded f f' -> padded (line :: f) (line :: f')
| padded_blank b f f' : blank b -> padded f f' -> padded f (b :: f').

Definition str_eq_dec : forall s t : str, {s = t} + {s <> t} :=
  list_eq_dec N.eq_dec.

Definition report_eq_dec (a b : Z * str) : {a = b} + {a <> b}.
Proof.
  destruct a as [i e], b as [j e'].
  destruct (Z.eq_dec i j) as [->|Hi]; [|right; congruence].
  destruct (str_eq_dec e e') as [->|He]; [left|right]; congruence.
Defined.

(* ================================================================== *)
(** * Concrete runs *)

Module Demo.

(** A literal with quotation marks: they are written as apostrophes. *)
Definition pyq (s : string) : str :=
map (fun c => if N.eqb c 39 then 34%N else c) (py s).

(** The text of a file from its lines, each ended by a line feed. *)
Definition unlines (ls : list str) : str := flat_map (fun l => l ++ newline) ls.

(** The world of one run: the script is called with [arg]; the path that
    [arg] names opens as [r], and no other path exists. *)
Definition world_of (arg : str) (r : os_error + text_file) : world :=
{| argv := [py "scripts/validate_jsonl.py"; arg];
   open_file := fun p =>
     if str_eqb p (posix_path_str arg) then r else inl FileNotFoundError |}.

(** The argument of the runs below, and the path it names. *)
Definition data : str := py "./data.jsonl".

Definition data_path : str := py "data.jsonl".

(** The script under CPython on POSIX, called on [./data.jsonl]. *)
Definition run (r : os_error + text_file) : outcome :=
validate_jsonl PyJson.json_loads posix_path_str (world_of data r).

Definition run_text (text : str) : outcome := run (inr (file_of_text text)).

(** The scenarios of the specification. *)
Definition two_objects : str := unlines [pyq "{'a':1}"; pyq "{'b':2}"].

Definition one_bad_line : str :=
unlines [pyq "{'a':1}"; pyq "{bad json}"; pyq "{'c':3}"].

Definition blank_around : str := unlines [[]; []; pyq "{'x':true}"; []].

Definition scalars : str := unlines [pyq "null"; pyq "'just a string'"; pyq "42"].

(** Two malformed lines, far apart, between blank and well-formed ones. *)
Definition two_bad_lines : str :=
unlines [pyq "[1, 2"; py "   "; pyq "{'k': [true, null]}"; pyq "'open"; py "0"].

(** A file whose second line starts with bytes that are not UTF-8, read in
    two pieces: the first line is handed over before the read fails. *)
Definition cut_short : text_file :=
{| lines := [pyq "{bad json}" ++ newline]; read_failure := Some Undecodable |}.

(** Blank lines only: empty ones, spaces and a tab, a no-break space. *)
Definition blank_only : str := unlines [[]; py "   "; [9%N]; [160%N]].

(** [two_bad_lines] with three blank lines more: one before the first line,
    two between the third and the fourth. *)
Definition two_bad_lines_padded : str :=
unlines [[]; pyq "[1, 2"; py "   "; pyq "{'k': [true, null]}"; py " "; [];
         pyq "'open"; py "0"].

(** The worlds of the runs. *)
Definition world_text (text : str) : world :=
world_of data (inr (file_of_text text)).

(** Another call of the script on the same file: under another name, with
    one argument more, on a file system that refuses every other path. *)
Definition other_world (text : str) : world :=
{| argv := [py "validate_jsonl.py"; data; py "--strict"];
   open_file := fun p =>
     if str_eqb p data_path then inr (file_of_text text)
     else inl PermissionError |}.

(** The message of the decoder for [{bad json}]. *)
Definition bad_json_message : str :=
PyJson.errmsg "Expecting property name enclosed in double quotes"
              (pyq "{bad json}") 1.

End Demo.

(* ================================================================== *)
(** * What the decoder takes *)

(** The code points of a [str] end at U+10FFFF. *)
Definition code_points (s : str) : Prop := Forall (fun c => (c <= 1114111)%N) s.

(** The grammar of JSON with the literal names of the decoder for those of
    JSON: a value is one of [PyJson.constants], a number, a string, an
    array or an object, and the values inside arrays and objects are of
    this kind again. *)
Module Lenient.

Inductive value : str -> Prop :=
| value_constant name : In name PyJson.constants -> value (py name)
| value_number n : Json.number n -> value n
| value_string cs : Json.characters cs -> value (dquote ++ cs ++ dquote)
| value_array_empty w : Json.ws w -> value (py "[" ++ w ++ py "]")
| value_array es : elements es -> value (py "[" ++ es ++ py "]")
| value_object_empty w : Json.ws w -> value (py "{" ++ w ++ py "}")
| value_object ms : members ms -> value (py "{" ++ ms ++ py "}")

with elements : str -> Prop :=
| elements_one w1 v w2 :
    Json.ws w1 -> value v -> Json.ws w2 -> elements (w1 ++ v ++ w2)
| elements_more w1 v w2 es :
    Json.ws w1 -> value v -> Json.ws w2 -> elements es ->
    elements (w1 ++ v ++ w2 ++ py "," ++ es)

with members : str -> Prop :=
| members_one w1 k w2 w3 v w4 :
    Json.ws w1 -> Json.characters k -> Json.ws w2 -> Json.ws w3 ->
    value v -> Json.ws w4 ->
    members (w1 ++ dquote ++ k ++ dquote ++ w2 ++ py ":" ++ w3 ++ v ++ w4)
| members_more w1 k w2 w3 v w4 ms :
    Json.ws w1 -> Json.characters k -> Json.ws w2 -> Json.ws w3 ->
    value v -> Json.ws w4 -> members ms ->
    members (w1 ++ dquote ++ k ++ dquote ++ w2 ++ py ":" ++ w3 ++ v ++ w4
             ++ py "," ++ ms).

(** One value, with white space around it or none. *)
Definition text (t : str) : Prop :=
  exists w1 v w2, Json.ws w1 /\ value v /\ Json.ws w2 /\ t = w1 ++ v ++ w2.

Scheme value_elements_ind := Minimality for value Sort Prop
  with elements_value_ind := Minimality for elements Sort Prop
  with members_value_ind := Minimality for members Sort Prop.

Combined Scheme value_mutind
  from value_elements_ind, elements_value_ind, members_value_ind.

End Lenient.

(* ================================================================== *)
(** * Texts and their line ends *)

Definition carriage_return : str := [13%N].

(** The text [text] written with [term] for each of its line feeds. *)
Definition with_line_ends (term : str) (text : str) : str :=
  flat_map (fun c => if is_ "010" c then term else [c]) text.

(** U+FEFF, the byte order mark: the codec [utf-8] hands it over as the
    first character of the text, as any other. *)
Definition byte_order_mark : N := 65279%N.

(* ================================================================== *)
(** * The messages of the decoder *)

(** The messages with which the decoder raises [JSONDecodeError]. *)
Definition decoder_messages : list string :=
  ["Unexpected UTF-8 BOM (decode using utf-8-sig)"; "Expecting value";
   "Extra data"; "Unterminated string starting at"; "Invalid \uXXXX escape";
   "Invalid \escape"; "Invalid control character at";
   "Expecting ',' delimiter"; "Expecting ':' delimiter";
   "Expecting property name enclosed in double quotes"]%string.

(** The result [r] of scanning the text [s], which starts at index [idx]
    of the document, points into the document: after a value the index and
    the text left go together, and the position of an error is not past the
    end. *)
Definition located (s : str) (idx : nat) (r : PyJson.scan_result) : Prop :=
  match r with
  | PyJson.Ok rest e => e + length rest = idx + length s
  | PyJson.StopIteration i => i <= idx + length s
  | PyJson.DecodeError msg pos =>
      In msg decoder_messages /\ pos <= idx + length s
  | PyJson.OutOfFuel => True
  end.

(** [str(JSONDecodeError(msg, doc, pos))] for a document of one line. *)
Definition errmsg_on_line_one (msg : string) (pos : nat) : str :=
  py msg ++ py ": line 1 column " ++ str_of_nat (S pos)
  ++ py " (char " ++ str_of_nat pos ++ py ")".

(** A line as the iteration of a text file yields it: with no line feed
    but at its end. *)
Definition one_line (l : str) : Prop := ~ In 10%N (removelast l).

(* ================================================================== *)
(** * Further runs *)

Module Cases.

(** Two objects, with white space around them. *)
Definition two_objects_indented : str :=
Demo.unlines [py "  " ++ Demo.pyq "{'a':1}" ++ py " ";
              [9%N] ++ Demo.pyq "{'b':2}" ++ [160%N; 32%N]].

(** A well-formed line and a malformed one, with white space around
    them. *)
Definition indented : str :=
Demo.unlines [py "   " ++ Demo.pyq "{'a':1}" ++ py "  ";
              [9%N] ++ Demo.pyq "{bad json}"].

(** A file that starts with a byte order mark. *)
Definition with_mark : text_file :=
file_of_text (byte_order_mark :: Demo.pyq "{'a':1}" ++ newline).

(** Lines that the decoder takes and that are no JSON. *)
Definition not_a_number : str :=
Demo.unlines [py "NaN"; Demo.pyq "{'x': [1, -Infinity]}"].

(** The diagnostic of [Demo.one_bad_line]. *)
Definition bad_line_report : str :=
py "[ERROR] data.jsonl:2 invalid JSON: Expecting property name enclosed in double quotes: line 1 column 2 (char 1)".

End Cases.

(* ================================================================== *)
(** * Proof steps *)

(** Replace each literal of the script by its code points. *)
Ltac eval_literals :=
  repeat match goal with
         | |- context [py ?lit] =>
             let x := eval vm_compute in (py lit) in change (py lit) with x
         end.

(** Show that a text with a known first character starts with no literal
    name of the decoder. *)
Ltac refute_prefix :=
  eval_literals; cbn [PyJson.after_prefix];
  repeat match goal with
         | |- context [N.eqb ?a ?c] =>
             destruct (N.eqb_spec a c); [try lia|]
         end;
  try reflexivity.

(** Decide the comparisons of known characters. *)
Ltac decide_chars :=
  repeat match goal with
         | |- context [is_ ?a (N.pos ?p)] =>
             let b := eval vm_compute in (is_ a (N.pos p)) in
             change (is_ a (N.pos p)) with b
         end;
  cbv beta iota.

(** Bring concatenations into the form [a :: b :: s ++ t ++ ...]. *)
Ltac flatten := repeat (rewrite <- app_assoc || (progress (simpl app))).

(** Arithmetic on the lengths of concatenations. *)
Ltac lengths :=
  repeat match goal with
         | H : context [length (_ ++ _)] |- _ => rewrite length_app in H
         | H : context [length (_ :: _)] |- _ => simpl length in H
         | |- context [length (_ ++ _)] => rewrite length_app
         | |- context [length (_ :: _)] => simpl length
         end;
  simpl length in *; try lia.

(** A character of a part of a concatenation is one of the whole. *)
Ltac in_part :=
  repeat first [ assumption
               | apply in_or_app; first [left; assumption | right] ].

(** The message of an error is one of the decoder's. *)
Ltac known_message := unfold decoder_messages; simpl; tauto.

(** Close a goal on where a result of the scanner points. *)
Ltac close_located :=
  solve [ simpl; unfold located in *; cbn [length] in *; unfold str in *;
          intuition (try known_message; try lia) ].


(* ================================================================== *)
(** * Strings and numbering *)

Lemma enumerate_app (A : Type) (f g : list A) (start : Z) :
  enumerate start (f ++ g)
  = enumerate start f ++ enumerate (start + Z.of_nat (length f)) g.
Proof.
  revert start; induction f as [|x f IH]; intros start; simpl.
  - now rewrite Z.add_0_r.
  - rewrite IH. do 3 f_equal. lia.
Qed.

Lemma printed_app (t u : list event) : printed (t ++ u) = printed t ++ printed u.
Proof.
  induction t as [|[s|s] t IH]; simpl; auto. now rewrite IH.
Qed.

Lemma parsed_app (t u : list event) : parsed (t ++ u) = parsed t ++ parsed u.
Proof.
  induction t as [|[s|s] t IH]; simpl; auto. now rewrite IH.
Qed.

(* ================================================================== *)
(** * The loop *)

Section Loop.

Variable json_loads : str -> loads_result.
Variable path : str.

Local Abbreviation body := (loop_body json_loads path).
Local Abbreviation run := (for_lines json_loads path).

(** One turn of the loop: the flag can only go down, the trace only grow. *)
Lemma loop_body_step (i : Z) (line : str) (st : state) :
  body i line st
  = {| ok := ok st && accepts json_loads line;
       trace := trace st ++ line_events json_loads path (i, line) |}.
Proof.
  unfold line_events, loop_body, accepts; simpl.
  destruct st as [b t]; simpl.
  destruct (strip line) as [|c s]; simpl.
  - now rewrite andb_true_r, app_nil_r.
  - destruct (json_loads (c :: s)); simpl.
    + now rewrite andb_true_r.
    + unfold set_ok, print, log; simpl. rewrite andb_false_r.
      now rewrite <- app_assoc.
Qed.

Lemma for_lines_cons (start : Z) (line : str) (f : list str) (st : state) :
  run start (line :: f) st = run (start + 1) f (body start line st).
Proof. reflexivity. Qed.

Lemma for_lines_app (start : Z) (f g : list str) (st : state) :
  run start (f ++ g) st
  = run (start + Z.of_nat (length f)) g (run start f st).
Proof.
  unfold for_lines. now rewrite enumerate_app, fold_left_app.
Qed.

(** Blank lines leave the state as it is. *)
Lemma for_lines_blank (start : Z) (f : list str) (st : state) :
  (forall line, In line f -> strip line = []) -> run start f st = st.
Proof.
  revert start st; induction f as [|line f IH]; intros start st Hblank; auto.
  rewrite for_lines_cons. unfold loop_body at 1.
  rewrite (Hblank line) by now left. simpl.
  apply IH. intros l Hl. apply Hblank. now right.
Qed.

(** The whole loop, in closed form. *)
Lemma for_lines_state (start : Z) (f : list str) (st : state) :
  run start f st
  = {| ok := ok st && forallb (accepts json_loads) f;
       trace := trace st
                ++ flat_map (line_events json_loads path) (enumerate start f) |}.
Proof.
  revert start st; induction f as [|line f IH]; intros start st.
  - destruct st; simpl. now rewrite andb_true_r, app_nil_r.
  - rewrite for_lines_cons, IH, loop_body_step; simpl.
    now rewrite andb_assoc, <- app_assoc.
Qed.

Lemma accepts_true (line : str) :
  accepts json_loads line = true <-> well_formed json_loads line.
Proof.
  unfold accepts, well_formed.
  destruct (strip line) as [|c s].
  - split; auto. intros _ H; now elim H.
  - destruct (json_loads (c :: s)); split; auto; try discriminate.
    intros H. assert (Raised message = Parsed) by (apply H; discriminate).
    discriminate.
Qed.

Lemma forallb_accepts (f : list str) :
  forallb (accepts json_loads) f = true
  <-> forall line, In line f -> well_formed json_loads line.
Proof.
  rewrite forallb_forall. split; intros H line Hin; apply accepts_true; auto.
Qed.

(** What one line prints: its diagnostic if it is malformed, nothing else. *)
Lemma printed_line_events (i : Z) (line : str) :
  printed (line_events json_loads path (i, line))
  = map (diagnostic path) (malformed_lines json_loads i [line]).
Proof.
  unfold line_events, loop_body, malformed_lines; simpl.
  destruct (strip line) as [|c s]; simpl; auto.
  destruct (json_loads (c :: s)); simpl; auto.
Qed.

(** What one line has parsed: its stripped text unless it is blank. *)
Lemma parsed_line_events (i : Z) (line : str) :
  parsed (line_events json_loads path (i, line))
  = match strip line with [] => [] | _ :: _ => [strip line] end.
Proof.
  unfold line_events, loop_body; simpl.
  destruct (strip line) as [|c s]; simpl; auto.
  destruct (json_loads (c :: s)); simpl; auto.
Qed.

Lemma malformed_lines_app (start : Z) (f g : list str) :
  malformed_lines json_loads start (f ++ g)
  = malformed_lines json_loads start f
    ++ malformed_lines json_loads (start + Z.of_nat (length f)) g.
Proof.
  unfold malformed_lines. now rewrite enumerate_app, flat_map_app.
Qed.

Lemma malformed_lines_cons (start : Z) (line : str) (f : list str) :
  malformed_lines json_loads start (line :: f)
  = malformed_lines json_loads start [line]
    ++ malformed_lines json_loads (start + 1) f.
Proof.
  unfold malformed_lines; simpl. now rewrite app_nil_r.
Qed.

Lemma printed_flat_map (start : Z) (f : list str) :
  printed (flat_map (line_events json_loads path) (enumerate start f))
  = map (diagnostic path) (malformed_lines json_loads start f).
Proof.
  revert start; induction f as [|line f IH]; intros start; auto.
  rewrite malformed_lines_cons, map_app, <- IH, <- printed_line_events.
  simpl. now rewrite printed_app.
Qed.

Lemma parsed_flat_map (start : Z) (f : list str) :
  parsed (flat_map (line_events json_loads path) (enumerate start f))
  = filter (fun s => negb (not_ s)) (map strip f).
Proof.
  revert start; induction f as [|line f IH]; intros start; auto.
  simpl. rewrite parsed_app, IH, parsed_line_events.
  destruct (strip line); reflexivity.
Qed.

(** No malformed line exactly when every line is accepted. *)
Lemma malformed_lines_nil (start : Z) (f : list str) :
  malformed_lines json_loads start f = []
  <-> forallb (accepts json_loads) f = true.
Proof.
  revert start; induction f as [|line f IH]; intros start.
  - simpl; split; auto.
  - rewrite malformed_lines_cons. simpl forallb. rewrite andb_true_iff, <- (IH (start + 1)%Z).
    unfold malformed_lines at 1, accepts; simpl.
    destruct (strip line) as [|c s]; simpl.
    + tauto.
    + destruct (json_loads (c :: s)); simpl; split; try tauto; try discriminate.
      intros [? _]; discriminate.
Qed.

End Loop.

(* ================================================================== *)
(** * Diagnostics *)

Lemma py_inj (s t : string) : py s = py t -> s = t.
Proof.
  unfold py. intros H.
  assert (Hl : list_ascii_of_string s = list_ascii_of_string t).
  { revert H. generalize (list_ascii_of_string s) (list_ascii_of_string t).
    induction l as [|a l IH]; intros [|b m]; simpl; try discriminate; auto.
    intros H. injection H as Hab Hlm.
    f_equal; auto.
    rewrite <- (ascii_N_embedding a), <- (ascii_N_embedding b). now rewrite Hab. }
  rewrite <- (string_of_list_ascii_of_string s),
          <- (string_of_list_ascii_of_string t).
  now rewrite Hl.
Qed.

Lemma str_of_int_inj (i j : Z) : str_of_int i = str_of_int j -> i = j.
Proof.
  unfold str_of_int. intros H. apply py_inj in H.
  apply DecimalZ.to_int_inj.
  assert (Hn : forall z, Z.to_int z <> Decimal.Pos Decimal.Nil
                         /\ Z.to_int z <> Decimal.Neg Decimal.Nil).
  { intros [|p|p]; simpl; split; try discriminate;
      intros [= Hp]; now apply DecimalPos.Unsigned.to_uint_nonnil in Hp. }
  assert (Hs : Some (Z.to_int i) = Some (Z.to_int j)).
  { rewrite <- (NilZero.isi (Z.to_int i) (proj1 (Hn i)) (proj2 (Hn i))).
    rewrite <- (NilZero.isi (Z.to_int j) (proj1 (Hn j)) (proj2 (Hn j))).
    now rewrite H. }
  now injection Hs.
Qed.

(** The digits of a number have no space among them. *)
Lemma str_of_int_no_space (i : Z) : ~ In 32%N (str_of_int i).
Proof.
  assert (Hu : forall d, ~ In 32%N (py (NilEmpty.string_of_uint d))).
  { induction d; simpl; intros H; try (destruct H as [H|H]; [discriminate|]);
      auto. }
  assert (Hz : forall d, ~ In 32%N (py (NilZero.string_of_uint d))).
  { intros d. destruct d; try apply Hu.
    simpl. intros [H|[]]. discriminate. }
  unfold str_of_int. destruct (Z.to_int i); simpl.
  - apply Hz.
  - intros [H|H]; [discriminate|]. now apply Hz in H.
Qed.

Lemma split_at_first (A : Type) (x : A) (a b r r' : list A) :
  ~ In x a -> ~ In x b -> a ++ x :: r = b ++ x :: r' -> a = b /\ r = r'.
Proof.
  revert b; induction a as [|y a IH]; intros [|z b] Ha Hb H; simpl in *.
  - injection H as H. auto.
  - injection H as H _. elim Hb. now left.
  - injection H as H _. elim Ha. now left.
  - injection H as Hyz H. subst z.
    destruct (IH b) as [-> ->]; auto.
Qed.

(** A diagnostic tells the number and the message it was made from. *)
Lemma diagnostic_inj (path : str) (ie je : Z * str) :
  diagnostic path ie = diagnostic path je -> ie = je.
Proof.
  destruct ie as [i e], je as [j e']. unfold diagnostic, error_line; simpl fst; simpl snd.
  intros H. do 3 apply app_inv_head in H.
  simpl app in H.
  apply split_at_first in H; try apply str_of_int_no_space.
  destruct H as [Hi He]. injection He as ->.
  apply str_of_int_inj in Hi. now subst.
Qed.

Section Numbering.

Variable json_loads : str -> loads_result.

Local Abbreviation malformed_from := (malformed_lines json_loads).

(** The entries of the report are the malformed lines, by number. *)
Lemma malformed_lines_In (start : Z) (f : list str) (i : Z) (e : str) :
  In (i, e) (malformed_from start f)
  <-> exists k line,
      i = (start + Z.of_nat k)%Z /\ nth_error f k = Some line
      /\ strip line <> [] /\ json_loads (strip line) = Raised e.
Proof.
  revert start; induction f as [|l f IH]; intros start.
  - simpl. split; [tauto|]. intros (k & line & _ & H & _). now destruct k.
  - rewrite malformed_lines_cons, in_app_iff, IH. split.
    + intros [H|(k & line & Hi & Hk & Hne & Hr)].
      * exists 0, l. unfold malformed_lines in H. simpl in H.
        destruct (strip l) as [|c s] eqn:Hs; [easy|].
        destruct (json_loads (c :: s)) eqn:Hr; [easy|].
        destruct H as [H|[]]. injection H as <- <-.
        repeat split; auto; try discriminate. lia.
      * exists (S k), line. repeat split; auto. lia.
    + intros ([|k] & line & Hi & Hk & Hne & Hr); simpl in Hk.
      * left. injection Hk as <-. unfold malformed_lines. simpl.
        destruct (strip l) as [|c s]; [now elim Hne|]. rewrite Hr.
        left. f_equal. lia.
      * right. exists k, line. repeat split; auto. lia.
Qed.

Lemma malformed_lines_from_start (start : Z) (f : list str) :
  Forall (fun ie => (start <= fst ie)%Z) (malformed_from start f).
Proof.
  rewrite Forall_forall. intros [i e] H.
  apply malformed_lines_In in H. destruct H as (k & _ & -> & _). simpl. lia.
Qed.

(** The report goes up in line numbers. *)
Lemma malformed_lines_sorted (start : Z) (f : list str) :
  Sorted.StronglySorted (fun a b : Z * str => (fst a < fst b)%Z)
                        (malformed_from start f).
Proof.
  revert start; induction f as [|l f IH]; intros start.
  - constructor.
  - rewrite malformed_lines_cons.
    unfold malformed_lines at 1. simpl.
    destruct (strip l) as [|c s]; simpl; auto.
    destruct (json_loads (c :: s)); simpl; auto.
    constructor; auto.
    eapply Forall_impl; [|apply (malformed_lines_from_start (start + 1) f)].
    simpl. intros a. lia.
Qed.

Lemma malformed_lines_NoDup (start : Z) (f : list str) :
  NoDup (malformed_from start f).
Proof.
  induction (malformed_lines_sorted start f) as [|a l _ IH Hall]; constructor; auto.
  intros Hin. rewrite Forall_forall in Hall. specialize (Hall a Hin). lia.
Qed.

(** A blank line adds nothing to the report. *)
Lemma malformed_lines_blank (start : Z) (b : str) (f : list str) :
  blank b -> malformed_from start (b :: f) = malformed_from (start + 1) f.
Proof.
  intros Hb. rewrite malformed_lines_cons.
  unfold malformed_lines at 1. cbn [enumerate flat_map].
  unfold blank in Hb. now rewrite Hb.
Qed.

(** Padding with blank lines: the same verdict. *)
Lemma padded_accepts (f f' : list str) :
  padded f f' ->
  forallb (accepts json_loads) f = forallb (accepts json_loads) f'.
Proof.
  induction 1 as [|line f f' _ IH|b f f' Hb _ IH]; simpl; auto.
  - now rewrite IH.
  - unfold accepts at 2. unfold blank in Hb. now rewrite Hb.
Qed.

(** Padding with blank lines: the same texts parsed. *)
Lemma padded_parsed (f f' : list str) :
  padded f f' ->
  filter (fun s => negb (not_ s)) (map strip f)
  = filter (fun s => negb (not_ s)) (map strip f').
Proof.
  induction 1 as [|line f f' _ IH|b f f' Hb _ IH]; simpl; auto.
  - now rewrite IH.
  - unfold blank in Hb. now rewrite Hb.
Qed.

(** Padding with blank lines: the same messages, at numbers that can only
    have grown. *)
Lemma padded_malformed (f f' : list str) :
  padded f f' ->
  forall start start', (start <= start')%Z ->
  Forall2 (fun a b : Z * str => snd a = snd b /\ (fst a <= fst b)%Z)
          (malformed_from start f) (malformed_from start' f').
Proof.
  induction 1 as [|line f f' _ IH|b f f' Hb _ IH]; intros start start' Hle.
  - constructor.
  - rewrite (malformed_lines_cons _ start), (malformed_lines_cons _ start').
    apply Forall2_app; [|apply IH; lia].
    unfold malformed_lines; simpl.
    destruct (strip line) as [|c s]; simpl; auto.
    destruct (json_loads (c :: s)); simpl; auto.
  - rewrite (malformed_lines_blank _ _ _ Hb). apply IH. lia.
Qed.

(** Moving the start of the numbering moves every number of the report. *)
Lemma malformed_lines_shift (start d : Z) (f : list str) :
  malformed_from (start + d) f
  = map (fun ie => (fst ie + d, snd ie)%Z) (malformed_from start f).
Proof.
  revert start; induction f as [|l f IH]; intros start; auto.
  rewrite (malformed_lines_cons _ start), (malformed_lines_cons _ (start + d)).
  rewrite map_app. replace (start + d + 1)%Z with (start + 1 + d)%Z by lia.
  rewrite IH. f_equal.
  unfold malformed_lines; simpl.
  destruct (strip l) as [|c s]; simpl; auto.
  destruct (json_loads (c :: s)); simpl; auto.
Qed.

End Numbering.

(* ================================================================== *)
(** * The script *)

Lemma ok_line_not_diagnostic (path : str) (ie : Z * str) :
  ok_line path <> diagnostic path ie.
Proof.
  unfold ok_line, diagnostic, error_line; simpl; discriminate.
Qed.

Lemma ok_line_not_reported (path : str) (report : list (Z * str)) :
  ~ In (ok_line path) (map (diagnostic path) report).
Proof.
  rewrite in_map_iff. intros [ie [H _]].
  symmetry in H. now apply ok_line_not_diagnostic in H.
Qed.

Section Validator.

Variable json_loads : str -> loads_result.
Variable path_str : str -> str.

Local Abbreviation main := (validate_jsonl json_loads path_str).
Local Abbreviation scan := (scan_lines json_loads).
Local Abbreviation malformed := (malformed_lines json_loads 1).

Lemma scan_lines_ok (path : str) (f : list str) :
  ok (scan path f) = forallb (accepts json_loads) f.
Proof.
  unfold scan_lines. now rewrite for_lines_state.
Qed.

Lemma scan_lines_trace (path : str) (f : list str) :
  trace (scan path f)
  = flat_map (line_events json_loads path) (enumerate 1 f).
Proof.
  unfold scan_lines. now rewrite for_lines_state.
Qed.

Lemma scan_lines_printed (path : str) (f : list str) :
  printed (trace (scan path f)) = map (diagnostic path) (malformed f).
Proof.
  now rewrite scan_lines_trace, printed_flat_map.
Qed.

Lemma scan_lines_parsed (path : str) (f : list str) :
  parsed (trace (scan path f)) = filter (fun s => negb (not_ s)) (map strip f).
Proof.
  now rewrite scan_lines_trace, parsed_flat_map.
Qed.

(** The script on a path that opens. *)
Lemma validate_jsonl_opened (w : world) (arg : str) (f : text_file) :
  nth_error (argv w) 1 = Some arg ->
  open_file w (path_str arg) = inr f ->
  main w
  = let st := scan (path_str arg) (lines f) in
    match read_failure f with
    | Some e => {| events := trace st; ending := Uncaught (exn_of_read_error e) |}
    | None =>
        if forallb (accepts json_loads) (lines f)
        then {| events := trace st ++ [Print (ok_line (path_str arg))];
                ending := Completed |}
        else {| events := trace st; ending := Uncaught (SystemExit 1) |}
    end.
Proof.
  intros Harg Hopen. unfold validate_jsonl. rewrite Harg, Hopen. simpl.
  destruct (read_failure f); auto.
  rewrite scan_lines_ok. destruct (forallb _ _); reflexivity.
Qed.

(** Some line is refused exactly when not every line is accepted. *)
Lemma some_line_refused (f : list str) :
  (exists line e,
      In line f /\ strip line <> [] /\ json_loads (strip line) = Raised e)
  <-> forallb (accepts json_loads) f = false.
Proof.
  split.
  - intros (line & e & Hin & Hne & Hr).
    destruct (forallb (accepts json_loads) f) eqn:Hall; auto.
    rewrite forallb_forall in Hall. specialize (Hall line Hin).
    unfold accepts in Hall. destruct (strip line); [now elim Hne|].
    rewrite Hr in Hall. discriminate.
  - induction f as [|line f IH]; simpl; [discriminate|].
    rewrite andb_false_iff. intros [H|H].
    + unfold accepts in H. destruct (strip line) as [|c s] eqn:Hs; [discriminate|].
      destruct (json_loads (c :: s)) as [|e] eqn:Hr; [discriminate|].
      exists line, e. rewrite Hs. repeat split; auto. discriminate.
    + destruct (IH H) as (l & e & Hin & Hne & Hr). exists l, e. auto.
Qed.


(** C3: a line that is empty after [strip] is skipped: the loop body leaves
    the state as it is, so nothing is parsed, nothing is printed and the flag
    keeps its value.  A file of blank lines only, or of no line at all,
    makes the script print the [[OK]] line and nothing else, and end with
    status 0. *)
Theorem blank_lines_are_skipped :
  (forall (path : str) (i : Z) (line : str) (st : state),
      strip line = [] -> loop_body json_loads path i line st = st)
  /\ (forall (w : world) (arg : str) (f : text_file),
         nth_error (argv w) 1 = Some arg ->
         open_file w (path_str arg) = inr f ->
         read_failure f = None ->
         (forall line, In line (lines f) -> strip line = []) ->
         main w = {| events := [Print (ok_line (path_str arg))];
                     ending := Completed |}
         /\ exit_status (ending (main w)) = 0%Z).
Proof.
  split.
  - intros path i line st Hblank. unfold loop_body. now rewrite Hblank.
  - intros w arg f Harg Hopen Hread Hblank.
    unfold validate_jsonl. rewrite Harg, Hopen, Hread. simpl.
    unfold scan_lines. rewrite for_lines_blank by assumption. simpl. auto.
Qed.

(** C5: when the path does not open, the [OSError] of [open] is caught
    nowhere: the script ends with that exception and a status that is not 0,
    before the loop has started; nothing was parsed and nothing printed,
    neither an [[ERROR]] line nor the [[OK]] line. *)
Theorem unreadable_path_is_fatal (w : world) (arg : str) (e : os_error) :
  nth_error (argv w) 1 = Some arg ->
  open_file w (path_str arg) = inl e ->
  main w = {| events := []; ending := Uncaught (OSError e) |}
  /\ exit_status (ending (main w)) <> 0%Z
  /\ printed (events (main w)) = [].
Proof.
  intros Harg Hopen. unfold validate_jsonl. rewrite Harg, Hopen. simpl.
  repeat split; auto. discriminate.
Qed.

(** C6: the flag is true when the loop is entered; a turn of the loop
    never takes it from false back to true; the state after a prefix of the
    lines is the state from which the loop goes on with the rest, and in it
    the flag is true if and only if the prefix has no non-blank line that
    does not parse; so once false after a prefix, it is false after every
    longer one. *)
Theorem ok_flag_is_monotonic (path : str) :
  ok (scan path []) = true
  /\ (forall (i : Z) (line : str) (st : state),
         ok st = false -> ok (loop_body json_loads path i line st) = false)
  /\ (forall pre post : list str,
         scan path (pre ++ post)
         = for_lines json_loads path (1 + Z.of_nat (length pre)) post (scan path pre))
  /\ (forall pre : list str,
         ok (scan path pre) = true
         <-> (forall line, In line pre ->
                strip line <> [] -> json_loads (strip line) = Parsed))
  /\ (forall pre post : list str,
         ok (scan path pre) = false -> ok (scan path (pre ++ post)) = false).
Proof.
  split; [reflexivity|]. split; [|split; [|split]].
  - intros i line st Hst. rewrite loop_body_step. simpl. now rewrite Hst.
  - intros pre post. unfold scan_lines. apply for_lines_app.
  - intros pre. rewrite scan_lines_ok. apply forallb_accepts.
  - intros pre post. rewrite !scan_lines_ok, forallb_app.
    intros H. now rewrite H.
Qed.


(** C10: when the file opens and its iteration raises instead of ending (a
    [UnicodeDecodeError] for bytes that are not UTF-8), nothing catches the
    exception, since the handler of the loop guards the parse only: the
    script ends with it and with status 1, having printed the diagnostics of
    the malformed lines that were handed over before, and never the [[OK]]
    line. *)
Theorem read_error_is_fatal
        (w : world) (arg : str) (f : text_file) (e : read_error) :
  nth_error (argv w) 1 = Some arg ->
  open_file w (path_str arg) = inr f ->
  read_failure f = Some e ->
  ending (main w) = Uncaught (exn_of_read_error e)
  /\ exit_status (ending (main w)) = 1%Z
  /\ printed (events (main w))
     = map (diagnostic (path_str arg)) (malformed (lines f))
  /\ ~ In (ok_line (path_str arg)) (printed (events (main w))).
Proof.
  intros Harg Hopen Hread.
  rewrite (validate_jsonl_opened _ _ _ Harg Hopen), Hread. cbv zeta. simpl.
  rewrite scan_lines_printed. repeat split.
  - destruct e; reflexivity.
  - apply ok_line_not_reported.
Qed.

End Validator.

Section Reports.

Variable json_loads : str -> loads_result.
Variable path_str : str -> str.

Local Abbreviation main := (validate_jsonl json_loads path_str).
Local Abbreviation scan := (scan_lines json_loads).
Local Abbreviation malformed := (malformed_lines json_loads 1).

(** The output of a run on a path that opens: the report, and the [[OK]]
    line after it exactly when the report is empty and the read went to the
    end of the file. *)
Lemma printed_validate_jsonl (w : world) (arg : str) (f : text_file) :
  nth_error (argv w) 1 = Some arg ->
  open_file w (path_str arg) = inr f ->
  printed (events (main w))
  = map (diagnostic (path_str arg)) (malformed (lines f))
    ++ match read_failure f, malformed (lines f) with
       | None, [] => [ok_line (path_str arg)]
       | _, _ => []
       end.
Proof.
  intros Harg Hopen.
  rewrite (validate_jsonl_opened json_loads path_str _ _ _ Harg Hopen). cbv zeta.
  destruct (read_failure f); simpl.
  - now rewrite scan_lines_printed, app_nil_r.
  - destruct (forallb (accepts json_loads) (lines f)) eqn:Hall; simpl.
    + rewrite printed_app, scan_lines_printed. simpl.
      apply (malformed_lines_nil json_loads 1) in Hall. now rewrite Hall.
    + rewrite scan_lines_printed.
      destruct (malformed (lines f)) eqn:Hm.
      * apply (malformed_lines_nil json_loads 1) in Hm. congruence.
      * now rewrite app_nil_r.
Qed.

Lemma parsed_validate_jsonl (w : world) (arg : str) (f : text_file) :
  nth_error (argv w) 1 = Some arg ->
  open_file w (path_str arg) = inr f ->
  parsed (events (main w))
  = filter (fun s => negb (not_ s)) (map strip (lines f)).
Proof.
  intros Harg Hopen.
  rewrite (validate_jsonl_opened json_loads path_str _ _ _ Harg Hopen). cbv zeta.
  destruct (read_failure f); simpl.
  - apply scan_lines_parsed.
  - destruct (forallb (accepts json_loads) (lines f)); simpl.
    + rewrite parsed_app, scan_lines_parsed. simpl. apply app_nil_r.
    + apply scan_lines_parsed.
Qed.

(** C2: a non-blank line whose stripped text [json.loads] refuses makes
    the loop body set the flag to false and print one line,
    [[ERROR] <path>:<number> invalid JSON: <message>], after which the loop
    goes on: the run ends with status 1, that diagnostic is in its output
    exactly once, every non-blank line of the file has been parsed, those
    after the malformed one as well, and all malformed lines are reported. *)
Theorem malformed_line_is_reported_and_the_scan_goes_on
        (w : world) (arg : str) (f : text_file)
        (k : nat) (line : str) (e : str) :
  nth_error (argv w) 1 = Some arg ->
  open_file w (path_str arg) = inr f ->
  nth_error (lines f) k = Some line ->
  strip line <> [] ->
  json_loads (strip line) = Raised e ->
  (forall st : state,
      loop_body json_loads (path_str arg) (Z.of_nat k + 1) line st
      = {| ok := false;
           trace := trace st
                    ++ [Parse (strip line);
                        Print (error_line (path_str arg) (Z.of_nat k + 1) e)] |})
  /\ ok (scan (path_str arg) (lines f)) = false
  /\ exit_status (ending (main w)) = 1%Z
  /\ count_occ str_eq_dec (printed (events (main w)))
               (error_line (path_str arg) (Z.of_nat k + 1) e) = 1
  /\ parsed (events (main w))
     = filter (fun s => negb (not_ s)) (map strip (lines f))
  /\ printed (events (main w))
     = map (diagnostic (path_str arg)) (malformed (lines f)).
Proof.
  intros Harg Hopen Hk Hne Hr.
  assert (Hin : In (Z.of_nat k + 1, e)%Z (malformed (lines f))).
  { apply malformed_lines_In. exists k, line. repeat split; auto. lia. }
  assert (Hall : forallb (accepts json_loads) (lines f) = false).
  { apply some_line_refused. exists line, e.
    repeat split; auto. eapply nth_error_In; eauto. }
  assert (Hout : printed (events (main w))
                 = map (diagnostic (path_str arg)) (malformed (lines f))).
  { rewrite (printed_validate_jsonl _ _ _ Harg Hopen).
    destruct (malformed (lines f)); [easy|].
    destruct (read_failure f); apply app_nil_r. }
  split; [|split; [|split; [|split; [|split]]]]; auto.
  - intros st. unfold loop_body.
    destruct (strip line) as [|c s]; [now elim Hne|]. rewrite Hr.
    unfold set_ok, print, log; simpl. now rewrite <- app_assoc.
  - now rewrite scan_lines_ok.
  - rewrite (validate_jsonl_opened json_loads path_str _ _ _ Harg Hopen). cbv zeta.
    destruct (read_failure f) as [[|o]|]; simpl; auto. now rewrite Hall.
  - rewrite Hout.
    change (error_line (path_str arg) (Z.of_nat k + 1) e)
      with (diagnostic (path_str arg) (Z.of_nat k + 1, e)%Z).
    rewrite <- (count_occ_map (diagnostic (path_str arg)) report_eq_dec
                              str_eq_dec (diagnostic_inj (path_str arg))).
    apply NoDup_count_occ'; auto. apply malformed_lines_NoDup.
  - apply (parsed_validate_jsonl _ _ _ Harg Hopen).
Qed.



End Reports.

(* ================================================================== *)
(** * The decoder accepts the grammar *)

Module Accepts.

Import PyJson.

#[local] Arguments is_ a !c /.
#[local] Arguments is_ws !c /.
#[local] Arguments is_digit !c /.
#[local] Arguments is_digit19 !c /.
#[local] Arguments is_hex !c /.
#[local] Arguments is_escape !c /.

(** The comparisons of the decoder, as propositions. *)
Lemma is_true (a : ascii) (c : N) : is_ a c = true <-> c = N_of_ascii a.
Proof. unfold is_. apply N.eqb_eq. Qed.

Lemma is_false (a : ascii) (c : N) : is_ a c = false <-> c <> N_of_ascii a.
Proof. unfold is_. apply N.eqb_neq. Qed.

Lemma is_ws_true (c : N) : is_ws c = true <-> Json.ws_char c.
Proof.
  unfold is_ws, Json.ws_char. rewrite !orb_true_iff, !is_true. simpl. tauto.
Qed.

Lemma is_digit_true (c : N) : is_digit c = true <-> Json.digit c.
Proof.
  unfold is_digit, Json.digit. rewrite andb_true_iff, !N.leb_le. tauto.
Qed.

Lemma is_digit19_true (c : N) : is_digit19 c = true <-> Json.onenine c.
Proof.
  unfold is_digit19, Json.onenine. rewrite andb_true_iff, !N.leb_le. tauto.
Qed.

Lemma is_hex_true (c : N) : Json.hex c -> is_hex c = true.
Proof.
  unfold is_hex, Json.hex, Json.digit, is_digit.
  rewrite !orb_true_iff, !andb_true_iff, !N.leb_le. tauto.
Qed.

Lemma skip_ws_app (w s : str) (idx : nat) :
  Json.ws w -> skip_ws (w ++ s) idx = skip_ws s (length w + idx).
Proof.
  intros Hw. revert idx; induction Hw as [|c w Hc _ IH]; intros idx; auto.
  simpl. apply is_ws_true in Hc. rewrite Hc, IH. f_equal. lia.
Qed.

Lemma skip_ws_stop (c : N) (s : str) (idx : nat) :
  is_ws c = false -> skip_ws (c :: s) idx = (c :: s, idx).
Proof. intros H. simpl. now rewrite H. Qed.

Lemma skip_ws_length (s : str) (idx : nat) :
  length (fst (skip_ws s idx)) <= length s.
Proof.
  revert idx; induction s as [|c s IH]; intros idx; simpl; auto.
  destruct (is_ws c); simpl; [specialize (IH (S idx)); lia | auto].
Qed.

Lemma skip_digits_app (ds s : str) (idx : nat) :
  Forall Json.digit ds -> starts_digit s = false ->
  skip_digits (ds ++ s) idx = (s, length ds + idx).
Proof.
  intros Hd Hs. revert idx; induction Hd as [|d ds Hd _ IH]; intros idx.
  - destruct s as [|c s]; simpl in *; auto. now rewrite Hs.
  - simpl. apply is_digit_true in Hd. rewrite Hd, IH. f_equal. lia.
Qed.

Lemma skip_digits_stop (s : str) (idx : nat) :
  starts_digit s = false -> skip_digits s idx = (s, idx).
Proof. apply (skip_digits_app [] s idx); constructor. Qed.

Lemma digits_Forall (ds : str) : Json.digits ds -> Forall Json.digit ds.
Proof. induction 1; auto. Qed.

Lemma digits_head (ds : str) :
  Json.digits ds -> exists d ds', ds = d :: ds' /\ Json.digit d /\ Forall Json.digit ds'.
Proof.
  destruct 1 as [d Hd|d ds Hd Hds].
  - exists d, []. auto.
  - exists d, ds. auto using digits_Forall.
Qed.

(** ** Numbers *)

Lemma ends_value_not_digit (s : str) : ends_value s -> starts_digit s = false.
Proof.
  destruct s as [|c s]; simpl; auto. unfold Json.ws_char, is_digit.
  intros H. apply andb_false_iff. rewrite !N.leb_gt. lia.
Qed.

Lemma match_frac_app (f s : str) (idx : nat) :
  Json.fraction f -> starts_digit s = false ->
  match s with c :: _ => is_ "." c = false | [] => True end ->
  match_frac (f ++ s) idx = (s, length f + idx).
Proof.
  intros [|ds Hds] Hs Hdot.
  - simpl. destruct s as [|c [|d s]]; auto.
    unfold match_frac. now rewrite Hdot.
  - destruct (digits_head _ Hds) as (d & ds' & -> & Hd & Hds').
    simpl. apply is_digit_true in Hd. rewrite Hd. simpl.
    rewrite skip_digits_app by assumption. f_equal. lia.
Qed.

Lemma match_exp_app (e s : str) (idx : nat) :
  Json.exponent e -> starts_digit s = false ->
  match s with c :: _ => is_ "e" c || is_ "E" c = false | [] => True end ->
  match_exp (e ++ s) idx = (s, length e + idx).
Proof.
  assert (Hgo : forall a sg ds, is_ "e" a || is_ "E" a = true ->
                  Json.sign sg -> Json.digits ds -> starts_digit s = false ->
                  match_exp ((a :: sg ++ ds) ++ s) idx
                  = (s, length (a :: sg ++ ds) + idx)).
  { intros a sg ds Ha Hsg Hds Hs.
    destruct (digits_head _ Hds) as (d & ds' & -> & Hd & Hds').
    pose proof Hd as Hd'. apply is_digit_true in Hd.
    assert (Hsign : is_ "-" d || is_ "+" d = false).
    { unfold Json.digit in Hd'. apply orb_false_iff.
      rewrite !is_false. simpl. lia. }
    unfold match_exp. simpl app. cbv beta iota. rewrite Ha.
    destruct Hsg; simpl app; simpl length.
    - destruct (ds' ++ s) eqn:Hrest; rewrite ?Hsign, Hd; rewrite <- ?Hrest;
        rewrite skip_digits_app by assumption; f_equal; lia.
    - simpl. rewrite Hd, skip_digits_app by assumption. f_equal. lia.
    - simpl. rewrite Hd, skip_digits_app by assumption. f_equal. lia. }
  intros [|sg ds Hsg Hds|sg ds Hsg Hds] Hs He.
  - simpl. destruct s as [|c s]; auto. unfold match_exp. now rewrite He.
  - apply (Hgo 69%N sg ds); auto.
  - apply (Hgo 101%N sg ds); auto.
Qed.

(** A digit, or a minus sign before one, starts none of the literal names. *)
Lemma after_prefix_cons (a c : N) (lit s : str) :
  after_prefix (a :: lit) (c :: s)
  = if N.eqb a c then after_prefix lit s else None.
Proof. reflexivity. Qed.

Lemma match_constant_none (names : list string) (s : str) (idx : nat) :
  Forall (fun name => after_prefix (py name) s = None) names ->
  match_constant names s idx = None.
Proof.
  induction 1 as [|name names Hn _ IH]; simpl; auto. now rewrite Hn.
Qed.

Lemma match_constant_digit (d : N) (s : str) (idx : nat) :
  Json.digit d -> match_constant constants (d :: s) idx = None.
Proof.
  unfold Json.digit. intros Hd. apply match_constant_none.
  repeat constructor; refute_prefix.
Qed.

Lemma match_constant_minus_digit (d : N) (s : str) (idx : nat) :
  Json.digit d -> match_constant constants (45%N :: d :: s) idx = None.
Proof.
  unfold Json.digit. intros Hd. apply match_constant_none.
  repeat constructor; refute_prefix.
Qed.

Lemma onenine_digit (d : N) : Json.onenine d -> Json.digit d.
Proof. unfold Json.onenine, Json.digit. lia. Qed.

(** After the integer part: the fraction and the exponent. *)
Lemma match_frac_exp_app (f e s : str) (idx : nat) :
  Json.fraction f -> Json.exponent e -> ends_value s ->
  (let (s4, i4) := match_frac (f ++ e ++ s) idx in Some (match_exp s4 i4))
  = Some (s, length (f ++ e) + idx).
Proof.
  intros Hf He Hs.
  assert (Hnd : starts_digit s = false) by now apply ends_value_not_digit.
  assert (Hne : match s with
                | c :: _ => is_ "e" c || is_ "E" c = false
                | [] => True
                end).
  { destruct s as [|c s]; auto. simpl in Hs. unfold Json.ws_char in Hs.
    apply orb_false_iff. rewrite !is_false. simpl. lia. }
  rewrite match_frac_app; auto.
  - rewrite match_exp_app; auto. rewrite length_app. do 2 f_equal. lia.
  - destruct He; auto.
  - destruct He; simpl; auto.
    destruct s as [|c s]; auto. simpl in Hs. unfold Json.ws_char in Hs.
    apply is_false. simpl. lia.
Qed.

Lemma match_number_app (n s : str) (idx : nat) :
  Json.number n -> ends_value s ->
  match_number (n ++ s) idx = Some (s, length n + idx).
Proof.
  intros [i f e Hi Hf He] Hs.
  assert (Hfe : starts_digit (f ++ e ++ s) = false).
  { destruct Hf as [|ds Hds]; [|reflexivity].
    destruct He; try reflexivity. now apply ends_value_not_digit. }
  rewrite <- !app_assoc.
  assert (Hpos : forall j k, Json.integer j ->
             (exists d j', j = d :: j' /\ Json.digit d) ->
             match j ++ f ++ e ++ s with
             | c :: s2 =>
                 if is_digit19 c then
                   let (s3, i3) := skip_digits s2 (S k) in
                   let (s4, i4) := match_frac s3 i3 in
                   Some (match_exp s4 i4)
                 else if is_ "0" c then
                   let (s4, i4) := match_frac s2 (S k) in
                   Some (match_exp s4 i4)
                 else None
             | [] => None
             end = Some (s, length (j ++ f ++ e) + k)).
  { intros j k Hj (d0 & j' & Hj' & Hd0).
    destruct Hj as [d Hd|d ds Hd Hds|d Hd|d ds Hd Hds];
      try (injection Hj' as <- _; unfold Json.digit in Hd0; lia).
    - simpl app. cbv beta iota. destruct (is_digit19 d) eqn:H19.
      + rewrite skip_digits_stop by assumption.
        rewrite (match_frac_exp_app f e s) by assumption.
        do 2 f_equal. simpl. lia.
      + assert (H0 : is_ "0" d = true).
        { apply is_true. unfold Json.digit in Hd.
          unfold is_digit19 in H19. apply andb_false_iff in H19.
          rewrite !N.leb_gt in H19. simpl. lia. }
        rewrite H0, (match_frac_exp_app f e s) by assumption.
        do 2 f_equal. simpl. lia.
    - simpl app. cbv beta iota. apply is_digit19_true in Hd. rewrite Hd.
      rewrite skip_digits_app by auto using digits_Forall.
      rewrite (match_frac_exp_app f e s) by assumption.
      do 2 f_equal. simpl. rewrite !length_app. lia. }
  unfold match_number.
  destruct Hi as [d Hd|d ds Hd Hds|d Hd|d ds Hd Hds].
  - assert (Hm : is_ "-" d = false).
    { apply is_false. unfold Json.digit in Hd. simpl. lia. }
    simpl app. cbv beta iota. rewrite Hm.
    apply (Hpos [d] idx); eauto using Json.integer_digit.
  - assert (Hm : is_ "-" d = false).
    { apply is_false. unfold Json.onenine in Hd. simpl. lia. }
    simpl app. cbv beta iota. rewrite Hm.
    apply (Hpos (d :: ds) idx); eauto using Json.integer_digits, onenine_digit.
  - transitivity (Some (s, length ([d] ++ f ++ e) + S idx)).
    + apply (Hpos [d] (S idx)); eauto using Json.integer_digit.
    + do 2 f_equal. simpl. lia.
  - transitivity (Some (s, length ((d :: ds) ++ f ++ e) + S idx)).
    + apply (Hpos (d :: ds) (S idx));
        eauto using Json.integer_digits, onenine_digit.
    + do 2 f_equal. simpl. lia.
Qed.

(** ** Strings *)

Lemma scanstring_cons (begin : nat) (c : N) (s1 : str) (end_ : nat) :
  scanstring begin (c :: s1) end_
  = if is_ "034" c then Ok s1 (S end_)
    else if is_ "\" c then
      match s1 with
      | [] => DecodeError "Unterminated string starting at" begin
      | esc :: s2 =>
          if is_ "u" esc then
            match s2 with
            | h1 :: h2 :: h3 :: h4 :: ((_ :: _) as s3) =>
                if is_hex h1 && is_hex h2 && is_hex h3 && is_hex h4
                then scanstring begin s3 (6 + end_)
                else DecodeError "Invalid \uXXXX escape" (S end_)
            | _ => DecodeError "Invalid \uXXXX escape" (S end_)
            end
          else if is_escape esc then scanstring begin s2 (2 + end_)
          else DecodeError "Invalid \escape" end_
      end
    else if (c <=? 31)%N then DecodeError "Invalid control character at" end_
    else scanstring begin s1 (S end_).
Proof. reflexivity. Qed.

Lemma scanstring_app (begin : nat) (cs rest : str) (end_ : nat) :
  Json.characters cs ->
  scanstring begin (cs ++ 34%N :: rest) end_ = Ok rest (S (length cs) + end_).
Proof.
  intros Hcs. revert end_.
  induction Hcs as [|c cs Hc Hq Hb _ IH|e cs He _ IH
                    |h1 h2 h3 h4 cs H1 H2 H3 H4 _ IH]; intros end_.
  - reflexivity.
  - simpl app. rewrite scanstring_cons.
    apply (is_false "034") in Hq. apply (is_false "\") in Hb.
    rewrite Hq, Hb. destruct (N.leb_spec c 31) as [Hle|_]; [lia|].
    rewrite IH. f_equal. simpl. lia.
  - simpl app. rewrite scanstring_cons. decide_chars.
    assert (Hu : is_ "u" e = false /\ is_escape e = true).
    { simpl in He. decompose [or] He; subst; try (split; reflexivity).
      contradiction. }
    destruct Hu as [Hu Hesc]. rewrite Hu, Hesc, IH. f_equal. simpl. lia.
  - simpl app. rewrite scanstring_cons. decide_chars.
    rewrite !is_hex_true by assumption. simpl andb. cbv iota.
    destruct (cs ++ 34%N :: rest) eqn:Hs; [now destruct cs|].
    rewrite IH. f_equal. simpl. lia.
Qed.

(** ** Values *)

Lemma integer_head (i : str) :
  Json.integer i ->
  exists c i', i = c :: i' /\ (Json.digit c \/ c = 45%N).
Proof.
  intros [d Hd|d ds Hd Hds|d Hd|d ds Hd Hds]; simpl;
    eexists _, _; (split; [reflexivity|]); auto using onenine_digit.
Qed.

(** A value starts with the first letter of [null], [true] or [false],
    with a quotation mark, a bracket or a brace, or as a number does. *)
Lemma value_first (v : str) :
  Json.value v ->
  exists c v', v = c :: v'
               /\ (In c (py "ntf[{") \/ c = 34%N \/ c = 45%N \/ Json.digit c).
Proof.
  intros [| | |n Hn|cs _|w _|es _|w _|ms _];
    try (eexists _, _; split; [reflexivity|]; simpl; tauto).
  destruct Hn as [i f e Hi _ _].
  destruct (integer_head _ Hi) as (c & i' & -> & Hc).
  exists c, (i' ++ f ++ e). split; [reflexivity|]. tauto.
Qed.

(** So it starts with a character that is no white space, closes no array
    and no object, and is no byte order mark. *)
Lemma value_head (v : str) :
  Json.value v ->
  exists c v', v = c :: v'
               /\ is_ws c = false /\ is_ "]" c = false /\ is_ "}" c = false
               /\ N.eqb c 65279 = false.
Proof.
  intros Hv. destruct (value_first v Hv) as (c & v' & -> & Hc).
  exists c, v'. split; [reflexivity|].
  unfold is_ws. unfold Json.digit in Hc. simpl In in Hc.
  rewrite !orb_false_iff, !is_false, N.eqb_neq. simpl. lia.
Qed.

Lemma number_head (n : str) :
  Json.number n ->
  exists c n', n = c :: n' /\ (Json.digit c \/ c = 45%N).
Proof.
  intros [i f e Hi _ _].
  destruct (integer_head _ Hi) as (c & i' & -> & Hc).
  exists c, (i' ++ f ++ e). auto.
Qed.

Lemma number_not_constant (n s : str) (idx : nat) :
  Json.number n -> match_constant constants (n ++ s) idx = None.
Proof.
  intros [i f e Hi _ _].
  destruct Hi as [d Hd|d ds Hd Hds|d Hd|d ds Hd Hds]; simpl app.
  - now apply match_constant_digit.
  - apply match_constant_digit. now apply onenine_digit.
  - now apply match_constant_minus_digit.
  - apply match_constant_minus_digit. now apply onenine_digit.
Qed.

Lemma ends_value_ws (w : str) (c : N) (s : str) :
  Json.ws w -> c = 44%N \/ c = 93%N \/ c = 125%N -> ends_value (w ++ c :: s).
Proof.
  intros Hw H. destruct Hw; simpl; auto.
Qed.

Lemma scan_once_S (depth : nat) (c : N) (s : str) (idx : nat) :
  scan_once (S depth) (c :: s) idx
  = if is_ "034" c then scanstring idx s (S idx)
    else if is_ "{" c then parse_object (scan_once depth) s (S idx)
    else if is_ "[" c then parse_array (scan_once depth) s (S idx)
    else
      match match_constant constants (c :: s) idx with
      | Some (rest, end_) => Ok rest end_
      | None =>
          match match_number (c :: s) idx with
          | Some (rest, end_) => Ok rest end_
          | None => StopIteration idx
          end
      end.
Proof. reflexivity. Qed.

(** One turn of the array loop on an element that the scanner accepts. *)
Lemma array_loop_turn (scan : str -> nat -> scan_result) (n : nat)
      (s : str) (idx : nat) (w : str) (c : N) (s' : str) (i : nat) :
  scan s idx = Ok (w ++ c :: s') i -> Json.ws w -> is_ws c = false ->
  array_loop scan (S n) s idx
  = if is_ "]" c then Ok s' (S (length w + i))
    else if is_ "," c then
      let (s4, i4) := skip_ws s' (S (length w + i)) in array_loop scan n s4 i4
    else DecodeError "Expecting ',' delimiter" (length w + i).
Proof.
  intros Hscan Hw Hc. simpl. rewrite Hscan.
  rewrite skip_ws_app, skip_ws_stop by assumption. reflexivity.
Qed.

(** One turn of the object loop on a member that the scanner accepts. *)
Lemma object_loop_turn (scan : str -> nat -> scan_result) (n : nat)
      (k w2 w3 s5 : str) (idx : nat) (w4 : str) (c : N) (s' : str) (i : nat) :
  Json.characters k -> Json.ws w2 -> Json.ws w3 ->
  scan s5 (length w3 + S (length w2 + (S (length k) + S idx)))
  = Ok (w4 ++ c :: s') i ->
  (forall j, skip_ws s5 j = (s5, j)) ->
  Json.ws w4 -> is_ws c = false ->
  object_loop scan (S n) (34%N :: k ++ 34%N :: w2 ++ 58%N :: w3 ++ s5) idx
  = if is_ "}" c then Ok s' (S (length w4 + i))
    else if is_ "," c then
      let (s8, i8) := skip_ws s' (S (length w4 + i)) in object_loop scan n s8 i8
    else DecodeError "Expecting ',' delimiter" (length w4 + i).
Proof.
  intros Hk Hw2 Hw3 Hscan Hs5 Hw4 Hc.
  cbn [object_loop]. decide_chars.
  rewrite scanstring_app by assumption.
  rewrite skip_ws_app, skip_ws_stop by (assumption || reflexivity).
  decide_chars.
  rewrite skip_ws_app, Hs5, Hscan by assumption.
  rewrite skip_ws_app, skip_ws_stop by assumption. reflexivity.
Qed.

Lemma skip_ws_smaller (s : str) (idx : nat) (s' : str) (i : nat) :
  skip_ws s idx = (s', i) -> length s' <= length s.
Proof.
  intros H. pose proof (skip_ws_length s idx) as Hl. now rewrite H in Hl.
Qed.

Lemma skip_ws_value (v s : str) (idx : nat) :
  Json.value v -> skip_ws (v ++ s) idx = (v ++ s, idx).
Proof.
  intros Hv. destruct (value_head _ Hv) as (c & v' & -> & Hc & _).
  now apply skip_ws_stop.
Qed.

(** The scanner takes a value, and the loops the elements of an array and
    the members of an object, whatever comes after them. *)
Lemma scan_once_accepts :
  (forall v, Json.value v ->
     forall depth rest idx,
       length v < depth -> ends_value rest ->
       scan_once depth (v ++ rest) idx = Ok rest (length v + idx))
  /\ (forall es, Json.elements es ->
        forall depth rest idx,
          length es < depth ->
          exists c s i,
            skip_ws (es ++ 93%N :: rest) idx = (c :: s, i)
            /\ is_ "]" c = false
            /\ forall n, length s < n ->
                 array_loop (scan_once depth) n (c :: s) i
                 = Ok rest (S (length es) + idx))
  /\ (forall ms, Json.members ms ->
        forall depth rest idx,
          length ms < depth ->
          exists c s i,
            skip_ws (ms ++ 125%N :: rest) idx = (c :: s, i)
            /\ is_ "}" c = false
            /\ forall n, length s < n ->
                 object_loop (scan_once depth) n (c :: s) i
                 = Ok rest (S (length ms) + idx)).
Proof.
  apply Json.value_mutind.
  - (* null *)
    intros [|depth] rest idx Hd _; [inversion Hd|reflexivity].
  - (* true *)
    intros [|depth] rest idx Hd _; [inversion Hd|reflexivity].
  - (* false *)
    intros [|depth] rest idx Hd _; [inversion Hd|reflexivity].
  - (* number *)
    intros n Hn [|depth] rest idx Hd Hrest; [inversion Hd|].
    destruct (number_head _ Hn) as (c & n' & Heq & Hc).
    pose proof (number_not_constant n rest idx Hn) as Hconst.
    pose proof (match_number_app n rest idx Hn Hrest) as Hnum.
    rewrite Heq in *. simpl app in *. rewrite scan_once_S, Hconst, Hnum.
    unfold Json.digit in Hc.
    assert (Hq : is_ "034" c = false) by (apply is_false; simpl; lia).
    assert (Ho : is_ "{" c = false) by (apply is_false; simpl; lia).
    assert (Ha : is_ "[" c = false) by (apply is_false; simpl; lia).
    now rewrite Hq, Ho, Ha.
  - (* string *)
    intros cs Hcs [|depth] rest idx Hd _; [inversion Hd|].
    unfold dquote. flatten.
    rewrite scan_once_S. decide_chars.
    rewrite scanstring_app by assumption.
    f_equal. lengths.
  - (* empty array *)
    intros w Hw [|depth] rest idx Hd _; [inversion Hd|].
    eval_literals. flatten.
    rewrite scan_once_S. decide_chars.
    unfold parse_array.
    rewrite skip_ws_app, skip_ws_stop by (assumption || reflexivity).
    decide_chars. f_equal. lengths.
  - (* array *)
    intros es _ IH [|depth] rest idx Hd _; [inversion Hd|].
    eval_literals. flatten.
    rewrite scan_once_S. decide_chars.
    lengths.
    destruct (IH depth rest (S idx)) as (c & s & i & Hskip & Hc & Hloop);
      [lia|].
    unfold parse_array. rewrite Hskip, Hc, Hloop by (simpl; lia).
    f_equal. lengths.
  - (* empty object *)
    intros w Hw [|depth] rest idx Hd _; [inversion Hd|].
    eval_literals. flatten.
    rewrite scan_once_S. decide_chars.
    unfold parse_object.
    rewrite skip_ws_app, skip_ws_stop by (assumption || reflexivity).
    decide_chars. f_equal. lengths.
  - (* object *)
    intros ms _ IH [|depth] rest idx Hd _; [inversion Hd|].
    eval_literals. flatten.
    rewrite scan_once_S. decide_chars.
    lengths.
    destruct (IH depth rest (S idx)) as (c & s & i & Hskip & Hc & Hloop);
      [lia|].
    unfold parse_object. rewrite Hskip, Hc, Hloop by (simpl; lia).
    f_equal. lengths.
  - (* one element *)
    intros w1 v w2 Hw1 Hv IHv Hw2 depth rest idx Hd.
    lengths.
    destruct (value_head _ Hv) as (c & v' & Heq & Hws & Hc & _).
    exists c, (v' ++ w2 ++ 93%N :: rest), (length w1 + idx).
    split; [|split; auto].
    + flatten. rewrite skip_ws_app by assumption.
      rewrite Heq. simpl app. now apply skip_ws_stop.
    + intros [|n] Hn; [inversion Hn|].
      rewrite (array_loop_turn _ n _ _ w2 93%N rest (length v + (length w1 + idx)));
        auto.
      * decide_chars. f_equal. lengths.
      * change (c :: v' ++ w2 ++ 93%N :: rest)
          with ((c :: v') ++ w2 ++ 93%N :: rest).
        rewrite <- Heq. apply IHv; [lia|]. apply ends_value_ws; auto.
  - (* more elements *)
    intros w1 v w2 es Hw1 Hv IHv Hw2 Hes IHes depth rest idx Hd.
    eval_literals. lengths.
    destruct (value_head _ Hv) as (c & v' & Heq & Hws & Hc & _).
    exists c, (v' ++ w2 ++ 44%N :: es ++ 93%N :: rest), (length w1 + idx).
    split; [|split; auto].
    + flatten. rewrite skip_ws_app by assumption.
      rewrite Heq. simpl app. now apply skip_ws_stop.
    + intros [|n] Hn; [inversion Hn|].
      rewrite (array_loop_turn _ n _ _ w2 44%N (es ++ 93%N :: rest)
                               (length v + (length w1 + idx))); auto.
      * decide_chars.
        destruct (IHes depth rest (S (length w2 + (length v + (length w1 + idx)))))
          as (c' & s' & i' & Hskip & _ & Hloop); [lia|].
        rewrite Hskip. rewrite Hloop.
        -- f_equal. lengths.
        -- apply skip_ws_smaller in Hskip. lengths.
      * change (c :: v' ++ w2 ++ 44%N :: es ++ 93%N :: rest)
          with ((c :: v') ++ w2 ++ 44%N :: es ++ 93%N :: rest).
        rewrite <- Heq. apply IHv; [lia|]. apply ends_value_ws; auto.
  - (* one member *)
    intros w1 k w2 w3 v w4 Hw1 Hk Hw2 Hw3 Hv IHv Hw4 depth rest idx Hd.
    unfold dquote in *. eval_literals.
    lengths.
    exists 34%N, (k ++ 34%N :: w2 ++ 58%N :: w3 ++ v ++ w4 ++ 125%N :: rest),
      (length w1 + idx).
    split; [|split; auto].
    + flatten. rewrite skip_ws_app by assumption. reflexivity.
    + intros [|n] Hn; [inversion Hn|].
      rewrite (object_loop_turn _ n k w2 w3 _ _ w4 125%N rest
                 (length v + (length w3 + S (length w2
                                + (S (length k) + S (length w1 + idx))))));
        auto.
      * decide_chars. f_equal. lengths.
      * apply IHv; [lia|]. apply ends_value_ws; auto.
      * intros j. now apply skip_ws_value.
  - (* more members *)
    intros w1 k w2 w3 v w4 ms Hw1 Hk Hw2 Hw3 Hv IHv Hw4 Hms IHms
           depth rest idx Hd.
    unfold dquote in *. eval_literals.
    lengths.
    exists 34%N,
      (k ++ 34%N :: w2 ++ 58%N :: w3 ++ v ++ w4 ++ 44%N :: ms ++ 125%N :: rest),
      (length w1 + idx).
    split; [|split; auto].
    + flatten. rewrite skip_ws_app by assumption. reflexivity.
    + intros [|n] Hn; [inversion Hn|].
      rewrite (object_loop_turn _ n k w2 w3 _ _ w4 44%N (ms ++ 125%N :: rest)
                 (length v + (length w3 + S (length w2
                                + (S (length k) + S (length w1 + idx))))));
        auto.
      * decide_chars.
        match goal with
        | |- context [skip_ws _ ?j] =>
            destruct (IHms depth rest j)
              as (c' & s' & i' & Hskip & _ & Hloop); [lia|]
        end.
        rewrite Hskip. rewrite Hloop.
        -- f_equal. lengths.
        -- apply skip_ws_smaller in Hskip. lengths.
      * apply IHv; [lia|]. apply ends_value_ws; auto.
      * intros j. now apply skip_ws_value.
Qed.

End Accepts.

Module Decoder.

Import PyJson Accepts.

#[local] Arguments is_ a !c /.
#[local] Arguments is_ws !c /.

Lemma skip_ws_all (w : str) (idx : nat) :
  Json.ws w -> skip_ws w idx = ([], length w + idx).
Proof.
  intros Hw. rewrite <- (app_nil_r w) at 1. now rewrite skip_ws_app.
Qed.

(** [json.loads] accepts every JSON text. *)
Lemma json_loads_accepts (t : str) : Json.json t -> json_loads t = Parsed.
Proof.
  intros (w1 & v & w2 & Hw1 & Hv & Hw2 & ->).
  destruct scan_once_accepts as [Hvalue _].
  unfold json_loads.
  assert (Hbom : match w1 ++ v ++ w2 with
                 | c :: _ => N.eqb c 65279
                 | [] => false
                 end = false).
  { destruct (value_head _ Hv) as (c & v' & -> & _ & _ & _ & Hc).
    destruct Hw1 as [|c1 w1 Hc1 _]; simpl; auto.
    unfold Json.ws_char in Hc1. apply N.eqb_neq. lia. }
  rewrite Hbom, skip_ws_app, skip_ws_value by assumption.
  rewrite Hvalue.
  - rewrite skip_ws_all by assumption. reflexivity.
  - assumption.
  - lengths.
  - destruct Hw2; simpl; auto.
Qed.

(** ** The bounds of the model are never reached *)

Lemma skip_digits_length (s : str) (idx : nat) :
  length (fst (skip_digits s idx)) <= length s.
Proof.
  revert idx; induction s as [|c s IH]; intros idx; simpl; auto.
  destruct (is_digit c); simpl; [specialize (IH (S idx)); lia | auto].
Qed.

(** A string that is scanned to its end is at least its closing quote. *)
Lemma scanstring_consumes (begin : nat) (s : str) (end_ : nat) :
  consumes s (scanstring begin s end_).
Proof.
  unfold consumes.
  revert end_. induction s as [s IH] using (well_founded_induction
    (Wf_nat.well_founded_ltof _ (@Datatypes.length N))). unfold Wf_nat.ltof in IH.
  intros end_. destruct s as [|c s1]; [exact I|]. rewrite scanstring_cons.
  destruct (is_ "034" c); [cbn [length]; lia|].
  destruct (is_ "\" c).
  - destruct s1 as [|esc s2]; [exact I|].
    destruct (is_ "u" esc).
    + destruct s2 as [|h1 [|h2 [|h3 [|h4 [|c5 s3]]]]]; try exact I.
      destruct (is_hex h1 && is_hex h2 && is_hex h3 && is_hex h4); [|exact I].
      pose proof (IH (c5 :: s3) ltac:(cbn [length]; lia) (6 + end_)) as H.
      destruct (scanstring begin (c5 :: s3) (6 + end_)); auto.
      cbn [length] in *. lia.
    + destruct (is_escape esc); [|exact I].
      pose proof (IH s2 ltac:(cbn [length]; lia) (2 + end_)) as H.
      destruct (scanstring begin s2 (2 + end_)); auto.
      cbn [length] in *. lia.
  - destruct (c <=? 31)%N; [exact I|].
    pose proof (IH s1 ltac:(cbn [length]; lia) (S end_)) as H.
    destruct (scanstring begin s1 (S end_)); auto.
    cbn [length] in *. lia.
Qed.

Lemma consumes_cons (c : N) (s : str) (r : scan_result) :
  consumes s r -> consumes (c :: s) r.
Proof. destruct r; simpl; auto. Qed.

Lemma consumes_le (s s' : str) (r : scan_result) :
  length s <= length s' -> consumes s r -> consumes s' r.
Proof. destruct r; simpl; auto. lia. Qed.

Lemma match_frac_length (s : str) (idx : nat) :
  length (fst (match_frac s idx)) <= length s.
Proof.
  unfold match_frac. destruct s as [|dot [|d s']]; auto.
  destruct (is_ "." dot && is_digit d); auto.
  pose proof (skip_digits_length s' (2 + idx)). cbn [length]. (unfold str in *; lia).
Qed.

Lemma match_exp_length (s : str) (idx : nat) :
  length (fst (match_exp s idx)) <= length s.
Proof.
  unfold match_exp. destruct s as [|e s1]; auto.
  destruct (is_ "e" e || is_ "E" e); auto.
  assert (Hgo : forall s2 i2, length s2 <= length s1 ->
            length (fst match s2 with
                        | d :: s3 =>
                            if is_digit d then skip_digits s3 (S i2)
                            else (e :: s1, idx)
                        | [] => (e :: s1, idx)
                        end) <= length (e :: s1)).
  { intros [|d s3] i2 Hle; auto. destruct (is_digit d); auto.
    pose proof (skip_digits_length s3 (S i2)). cbn [length] in *. (unfold str in *; lia). }
  destruct s1 as [|sign [|d s']].
  - apply (Hgo [] (S idx)); auto.
  - apply (Hgo [sign] (S idx)); auto.
  - destruct (is_ "-" sign || is_ "+" sign).
    + apply (Hgo (d :: s') (2 + idx)). cbn [length]. lia.
    + apply (Hgo (sign :: d :: s') (S idx)). auto.
Qed.

Lemma match_number_length (s : str) (idx : nat) (rest : str) (e : nat) :
  match_number s idx = Some (rest, e) -> length rest < length s.
Proof.
  unfold match_number.
  assert (Hgo : forall s1 i1, length s1 <= length s ->
            match s1 with
            | c :: s2 =>
                if is_digit19 c then
                  let (s3, i3) := skip_digits s2 (S i1) in
                  let (s4, i4) := match_frac s3 i3 in
                  Some (match_exp s4 i4)
                else if is_ "0" c then
                  let (s4, i4) := match_frac s2 (S i1) in
                  Some (match_exp s4 i4)
                else None
            | [] => None
            end = Some (rest, e) -> length rest < length s).
  { intros [|c s2] i1 Hle; [discriminate|]. cbn [length] in Hle.
    destruct (is_digit19 c).
    - pose proof (skip_digits_length s2 (S i1)) as H3.
      destruct (skip_digits s2 (S i1)) as [s3 i3]. simpl in H3.
      pose proof (match_frac_length s3 i3) as H4.
      destruct (match_frac s3 i3) as [s4 i4]. simpl in H4.
      pose proof (match_exp_length s4 i4) as H5.
      intros [= H]. rewrite H in H5. simpl in H5. (unfold str in *; lia).
    - destruct (is_ "0" c); [|discriminate].
      pose proof (match_frac_length s2 (S i1)) as H4.
      destruct (match_frac s2 (S i1)) as [s4 i4]. simpl in H4.
      pose proof (match_exp_length s4 i4) as H5.
      intros [= H]. rewrite H in H5. simpl in H5. (unfold str in *; lia). }
  destruct s as [|c s']; [discriminate|].
  destruct (is_ "-" c).
  - apply (Hgo s' (S idx)). cbn [length]. lia.
  - apply (Hgo (c :: s') idx). auto.
Qed.

Lemma after_prefix_length (lit s rest : str) :
  after_prefix lit s = Some rest -> length s = length lit + length rest.
Proof.
  revert s; induction lit as [|a lit IH]; intros s; simpl.
  - now intros [= ->].
  - destruct s as [|c s]; [discriminate|].
    destruct (N.eqb a c); [|discriminate].
    intros H. apply IH in H. cbn [length]. (unfold str in *; lia).
Qed.

Lemma match_constant_length (s : str) (idx : nat) (rest : str) (e : nat) :
  match_constant constants s idx = Some (rest, e) -> length rest < length s.
Proof.
  unfold constants. cbn [match_constant].
  repeat match goal with
         | |- context [after_prefix ?lit s] =>
             let H := fresh in
             destruct (after_prefix lit s) eqn:H;
             [apply after_prefix_length in H; simpl in H; intros [= <- _]; unfold str in *; lia|]
         end.
  discriminate.
Qed.

Section Loops.

Variable scan : str -> nat -> scan_result.
Variable bound : nat.
Hypothesis scan_consumes :
  forall s idx, length s <= bound -> consumes s (scan s idx).

Lemma array_loop_consumes (n : nat) (s : str) (idx : nat) :
  length s <= bound -> length s < n -> consumes s (array_loop scan n s idx).
Proof.
  revert s idx; induction n as [|n IH]; intros s idx Hb Hn; [inversion Hn|].
  cbn [array_loop]. pose proof (scan_consumes s idx Hb) as Hs.
  destruct (scan s idx) as [s1 i1| | |]; auto. simpl in Hs.
  pose proof (skip_ws_length s1 i1) as H2.
  destruct (skip_ws s1 i1) as [s2 i2]. simpl in H2.
  destruct s2 as [|c s3]; [exact I|]. cbn [length] in H2.
  destruct (is_ "]" c); [simpl; unfold str in *; lia|].
  destruct (is_ "," c); [|exact I].
  pose proof (skip_ws_length s3 (S i2)) as H4.
  destruct (skip_ws s3 (S i2)) as [s4 i4]. simpl in H4.
  apply (consumes_le s4); [unfold str in *; lia|]. apply IH; (unfold str in *; lia).
Qed.

Lemma parse_array_consumes (s : str) (idx : nat) :
  length s <= bound -> consumes (0%N :: s) (parse_array scan s idx).
Proof.
  intros Hb. unfold parse_array.
  pose proof (skip_ws_length s idx) as H1.
  destruct (skip_ws s idx) as [s1 i1]. simpl in H1.
  assert (Hloop : consumes (0%N :: s)
                           (array_loop scan (S (length s1)) s1 i1)).
  { apply (consumes_le s1); [cbn [length]; unfold str in *; lia|].
    apply array_loop_consumes; (unfold str in *; lia). }
  destruct s1 as [|c s2]; auto.
  destruct (is_ "]" c); auto. cbn [length] in *. simpl. (unfold str in *; lia).
Qed.

Lemma object_loop_consumes (n : nat) (s : str) (idx : nat) :
  length s <= bound -> length s < n -> consumes s (object_loop scan n s idx).
Proof.
  revert s idx; induction n as [|n IH]; intros s idx Hb Hn; [inversion Hn|].
  cbn [object_loop]. destruct s as [|q s0]; [exact I|]. cbn [length] in *.
  destruct (is_ "034" q); [|exact I].
  pose proof (scanstring_consumes idx s0 (S idx)) as H1.
  destruct (scanstring idx s0 (S idx)) as [s1 i1| | |]; auto. simpl in H1.
  pose proof (skip_ws_length s1 i1) as H2.
  destruct (skip_ws s1 i1) as [s2 i2]. simpl in H2.
  destruct s2 as [|colon s3]; [exact I|]. cbn [length] in H2.
  destruct (is_ ":" colon); [|exact I].
  pose proof (skip_ws_length s3 (S i2)) as H4.
  destruct (skip_ws s3 (S i2)) as [s4 i4]. simpl in H4.
  pose proof (scan_consumes s4 i4 ltac:(unfold str in *; lia)) as H5.
  destruct (scan s4 i4) as [s5 i5| | |]; auto. simpl in H5.
  pose proof (skip_ws_length s5 i5) as H6.
  destruct (skip_ws s5 i5) as [s6 i6]. simpl in H6.
  destruct s6 as [|c s7]; [exact I|]. cbn [length] in H6.
  destruct (is_ "}" c); [simpl; unfold str in *; lia|].
  destruct (is_ "," c); [|exact I].
  pose proof (skip_ws_length s7 (S i6)) as H8.
  destruct (skip_ws s7 (S i6)) as [s8 i8]. simpl in H8.
  apply (consumes_le s8); [cbn [length]; unfold str in *; lia|]. apply IH; (unfold str in *; lia).
Qed.

Lemma parse_object_consumes (s : str) (idx : nat) :
  length s <= bound -> consumes (0%N :: s) (parse_object scan s idx).
Proof.
  intros Hb. unfold parse_object.
  pose proof (skip_ws_length s idx) as H1.
  destruct (skip_ws s idx) as [s1 i1]. simpl in H1.
  assert (Hloop : consumes (0%N :: s)
                           (object_loop scan (S (length s1)) s1 i1)).
  { apply (consumes_le s1); [cbn [length]; unfold str in *; lia|].
    apply object_loop_consumes; (unfold str in *; lia). }
  destruct s1 as [|c s2]; auto.
  destruct (is_ "}" c); auto. cbn [length] in *. simpl. (unfold str in *; lia).
Qed.

End Loops.

(** With a depth above the length of the text, the scanner never runs out
    of depth, and its loops never run out of turns. *)
Lemma scan_once_consumes (depth : nat) (s : str) (idx : nat) :
  length s < depth -> consumes s (scan_once depth s idx).
Proof.
  revert s idx; induction depth as [|depth IH]; intros s idx Hd;
    [inversion Hd|].
  destruct s as [|c s']; [exact I|]. rewrite scan_once_S.
  cbn [length] in Hd.
  assert (Hscan : forall s0 i0, length s0 <= length s' ->
                                consumes s0 (scan_once depth s0 i0)).
  { intros s0 i0 Hle. apply IH. (unfold str in *; lia). }
  destruct (is_ "034" c).
  { apply consumes_cons, scanstring_consumes. }
  destruct (is_ "{" c).
  { apply (consumes_le (0%N :: s')); auto.
    apply (parse_object_consumes _ (length s')); auto. }
  destruct (is_ "[" c).
  { apply (consumes_le (0%N :: s')); auto.
    apply (parse_array_consumes _ (length s')); auto. }
  destruct (match_constant constants (c :: s') idx) as [[rest e]|] eqn:Hc.
  { now apply match_constant_length in Hc. }
  destruct (match_number (c :: s') idx) as [[rest e]|] eqn:Hn.
  { now apply match_number_length in Hn. }
  exact I.
Qed.

(** [json.loads] returns a value or raises a [JSONDecodeError]: the bounds
    of the model play no part in its result. *)
Lemma json_loads_total (s : str) :
  json_loads s = Parsed
  \/ exists msg pos, json_loads s = Raised (errmsg msg s pos).
Proof.
  unfold json_loads.
  destruct (match s with c :: _ => N.eqb c 65279 | [] => false end);
    [right; eauto|].
  pose proof (skip_ws_length s 0) as H0.
  destruct (skip_ws s 0) as [s0 idx]. simpl in H0.
  pose proof (scan_once_consumes (S (length s)) s0 idx ltac:(unfold str in *; lia)) as Hc.
  destruct (scan_once (S (length s)) s0 idx) as [rest e|i|msg pos|];
    try (right; eauto; fail); [|now elim Hc].
  destruct (skip_ws rest e) as [rest' e'].
  destruct (not_ rest'); [left|right]; eauto.
Qed.

End Decoder.

(** The decoder is more lenient than the grammar: it accepts the three
    names [NaN], [Infinity] and [-Infinity], which are no JSON. *)
Lemma nan_is_accepted_and_is_no_json :
  PyJson.json_loads (py "NaN") = Parsed /\ ~ Json.json (py "NaN").
Proof.
  split; [reflexivity|].
  intros (w1 & v & w2 & Hw1 & Hv & _ & Heq).
  destruct (Accepts.value_first v Hv) as (c & v' & -> & Hc).
  destruct Hw1 as [|c1 w1 Hc1 _]; injection Heq as Heq _.
  - subst c. unfold Json.digit in Hc. simpl in Hc.
    decompose [or] Hc; try discriminate; try contradiction. lia.
  - subst c1. unfold Json.ws_char in Hc1. decompose [or] Hc1; discriminate.
Qed.

(* ================================================================== *)
(** * The scenarios of the specification, run *)

Example run_two_objects :
  Demo.run_text Demo.two_objects
  = {| events := [Parse (Demo.pyq "{'a':1}"); Parse (Demo.pyq "{'b':2}");
                  Print (py "[OK] data.jsonl looks like valid JSONL")];
       ending := Completed |}.
Proof. vm_compute. reflexivity. Qed.

Example run_one_bad_line :
  Demo.run_text Demo.one_bad_line
  = {| events :=
         [Parse (Demo.pyq "{'a':1}");
          Parse (Demo.pyq "{bad json}");
          Print (py "[ERROR] data.jsonl:2 invalid JSON: Expecting property name enclosed in double quotes: line 1 column 2 (char 1)");
          Parse (Demo.pyq "{'c':3}")];
       ending := Uncaught (SystemExit 1) |}.
Proof. vm_compute. reflexivity. Qed.

Example run_empty_file :
  Demo.run_text []
  = {| events := [Print (py "[OK] data.jsonl looks like valid JSONL")];
       ending := Completed |}.
Proof. vm_compute. reflexivity. Qed.

Example run_blank_around :
  lines (file_of_text Demo.blank_around)
  = [newline; newline; Demo.pyq "{'x':true}" ++ newline; newline]
  /\ Demo.run_text Demo.blank_around
     = {| events := [Parse (Demo.pyq "{'x':true}");
                     Print (py "[OK] data.jsonl looks like valid JSONL")];
          ending := Completed |}.
Proof. split; vm_compute; reflexivity. Qed.

Example run_scalars :
  Demo.run_text Demo.scalars
  = {| events := [Parse (py "null"); Parse (Demo.pyq "'just a string'");
                  Parse (py "42");
                  Print (py "[OK] data.jsonl looks like valid JSONL")];
       ending := Completed |}
  /\ exit_status (ending (Demo.run_text Demo.scalars)) = 0%Z.
Proof. split; vm_compute; reflexivity. Qed.

Example run_missing_file :
  Demo.run (inl FileNotFoundError)
  = {| events := []; ending := Uncaught (OSError FileNotFoundError) |}
  /\ exit_status (ending (Demo.run (inl FileNotFoundError))) = 1%Z.
Proof. split; vm_compute; reflexivity. Qed.

Example run_two_bad_lines :
  printed (events (Demo.run_text Demo.two_bad_lines))
  = [py "[ERROR] data.jsonl:1 invalid JSON: Expecting ',' delimiter: line 1 column 6 (char 5)";
     py "[ERROR] data.jsonl:4 invalid JSON: Unterminated string starting at: line 1 column 1 (char 0)"]
  /\ printed (events (Demo.run_text Demo.two_bad_lines_padded))
     = [py "[ERROR] data.jsonl:2 invalid JSON: Expecting ',' delimiter: line 1 column 6 (char 5)";
        py "[ERROR] data.jsonl:7 invalid JSON: Unterminated string starting at: line 1 column 1 (char 0)"].
Proof. split; vm_compute; reflexivity. Qed.

Example run_without_argument :
  validate_jsonl PyJson.json_loads posix_path_str
                 {| argv := [py "scripts/validate_jsonl.py"];
                    open_file := fun _ => inl FileNotFoundError |}
  = {| events := []; ending := Uncaught IndexError |}.
Proof. reflexivity. Qed.

(* ================================================================== *)
(** * The script under CPython *)




(** The second line of that file: malformed, reported once, and the third
    line parsed after it. *)
Lemma bad_line_is_reported_once :
  nth_error (argv (Demo.world_text Demo.one_bad_line)) 1 = Some Demo.data
  /\ open_file (Demo.world_text Demo.one_bad_line) (posix_path_str Demo.data)
     = inr (file_of_text Demo.one_bad_line)
  /\ nth_error (lines (file_of_text Demo.one_bad_line)) 1
     = Some (Demo.pyq "{bad json}" ++ newline)
  /\ strip (Demo.pyq "{bad json}" ++ newline) <> []
  /\ PyJson.json_loads (strip (Demo.pyq "{bad json}" ++ newline))
     = Raised Demo.bad_json_message
  /\ exit_status (ending (Demo.run_text Demo.one_bad_line)) = 1%Z
  /\ count_occ str_eq_dec
               (printed (events (Demo.run_text Demo.one_bad_line)))
               (error_line Demo.data_path 2 Demo.bad_json_message) = 1
  /\ parsed (events (Demo.run_text Demo.one_bad_line))
     = [Demo.pyq "{'a':1}"; Demo.pyq "{bad json}"; Demo.pyq "{'c':3}"]
  /\ printed (events (Demo.run_text Demo.one_bad_line))
     = [error_line Demo.data_path 2 Demo.bad_json_message].
Proof.
  assert (Hne : strip (Demo.pyq "{bad json}" ++ newline) <> [])
    by (vm_compute; discriminate).
  assert (Hr : PyJson.json_loads (strip (Demo.pyq "{bad json}" ++ newline))
               = Raised Demo.bad_json_message)
    by (vm_compute; reflexivity).
  destruct (malformed_line_is_reported_and_the_scan_goes_on
              PyJson.json_loads posix_path_str
              (Demo.world_text Demo.one_bad_line) Demo.data
              (file_of_text Demo.one_bad_line)
              1 (Demo.pyq "{bad json}" ++ newline) Demo.bad_json_message
              eq_refl eq_refl eq_refl Hne Hr)
    as (_ & _ & Hexit & Hcount & Hparsed & Hprinted).
  exact (conj eq_refl (conj eq_refl (conj eq_refl (conj Hne (conj Hr
          (conj Hexit (conj Hcount (conj Hparsed Hprinted)))))))).
Defined.

(** A blank line and a file of blank lines. *)
Lemma blank_file_prints_ok :
  strip (py "   " ++ newline) = []
  /\ loop_body PyJson.json_loads Demo.data_path 7 (py "   " ++ newline)
               {| ok := false; trace := [Print (py "before")] |}
     = {| ok := false; trace := [Print (py "before")] |}
  /\ nth_error (argv (Demo.world_text Demo.blank_only)) 1 = Some Demo.data
  /\ open_file (Demo.world_text Demo.blank_only) (posix_path_str Demo.data)
     = inr (file_of_text Demo.blank_only)
  /\ read_failure (file_of_text Demo.blank_only) = None
  /\ (forall line, In line (lines (file_of_text Demo.blank_only)) ->
                   strip line = [])
  /\ Demo.run_text Demo.blank_only
     = {| events := [Print (ok_line Demo.data_path)]; ending := Completed |}.
Proof.
  assert (Hblank : forall line,
             In line (lines (file_of_text Demo.blank_only)) -> strip line = []).
  { intros line Hin. vm_compute in Hin.
    destruct Hin as [<-|[<-|[<-|[<-|[]]]]]; reflexivity. }
  destruct (blank_lines_are_skipped PyJson.json_loads posix_path_str)
    as [Hskip Hfile].
  destruct (Hfile (Demo.world_text Demo.blank_only) Demo.data
                  (file_of_text Demo.blank_only) eq_refl eq_refl eq_refl Hblank)
    as [Hrun _].
  exact (conj eq_refl
          (conj (Hskip Demo.data_path 7%Z (py "   " ++ newline) _ eq_refl)
            (conj eq_refl (conj eq_refl (conj eq_refl (conj Hblank Hrun)))))).
Defined.

(** A path that names no file. *)
Lemma missing_file_is_fatal :
  nth_error (argv (Demo.world_of Demo.data (inl FileNotFoundError))) 1
  = Some Demo.data
  /\ open_file (Demo.world_of Demo.data (inl FileNotFoundError))
               (posix_path_str Demo.data)
     = inl FileNotFoundError
  /\ Demo.run (inl FileNotFoundError)
     = {| events := []; ending := Uncaught (OSError FileNotFoundError) |}
  /\ exit_status (ending (Demo.run (inl FileNotFoundError))) <> 0%Z
  /\ printed (events (Demo.run (inl FileNotFoundError))) = [].
Proof.
  exact (conj eq_refl (conj eq_refl
          (unreadable_path_is_fatal
             PyJson.json_loads posix_path_str
             (Demo.world_of Demo.data (inl FileNotFoundError)) Demo.data
             FileNotFoundError eq_refl eq_refl))).
Defined.

(** The flag along the file with one malformed line: true after the first
    line, false after the second, and false it stays. *)
Lemma flag_after_each_prefix :
  ok (scan_lines PyJson.json_loads Demo.data_path
                 [Demo.pyq "{'a':1}" ++ newline]) = true
  /\ ok (scan_lines PyJson.json_loads Demo.data_path
                    ([Demo.pyq "{'a':1}" ++ newline]
                     ++ [Demo.pyq "{bad json}" ++ newline])) = false
  /\ ok (scan_lines PyJson.json_loads Demo.data_path
                    (([Demo.pyq "{'a':1}" ++ newline]
                      ++ [Demo.pyq "{bad json}" ++ newline])
                     ++ [Demo.pyq "{'c':3}" ++ newline])) = false
  /\ ok (loop_body PyJson.json_loads Demo.data_path 3
                   (Demo.pyq "{'c':3}" ++ newline)
                   {| ok := false; trace := [] |}) = false.
Proof.
  destruct (ok_flag_is_monotonic PyJson.json_loads Demo.data_path)
    as (_ & Hstep & _ & Hiff & Hmono).
  assert (H1 : ok (scan_lines PyJson.json_loads Demo.data_path
                              [Demo.pyq "{'a':1}" ++ newline]) = true).
  { apply Hiff. intros line [<-|[]] _. vm_compute. reflexivity. }
  assert (H2 : ok (scan_lines PyJson.json_loads Demo.data_path
                     ([Demo.pyq "{'a':1}" ++ newline]
                      ++ [Demo.pyq "{bad json}" ++ newline])) = false).
  { vm_compute. reflexivity. }
  exact (conj H1 (conj H2 (conj (Hmono _ [Demo.pyq "{'c':3}" ++ newline] H2)
          (Hstep 3%Z (Demo.pyq "{'c':3}" ++ newline)
                 {| ok := false; trace := [] |} eq_refl)))).
Defined.


Lemma two_bad_lines_padding :
  padded (lines (file_of_text Demo.two_bad_lines))
         (lines (file_of_text Demo.two_bad_lines_padded)).
Proof.
  vm_compute.
  repeat first [ apply padded_nil
               | apply padded_line
               | apply padded_blank; [reflexivity|] ].
Qed.



(** A file that stops being UTF-8 after a first, malformed line: the
    diagnostic of that line, then the uncaught error of the read. *)
Lemma cut_short_file_is_fatal :
  nth_error (argv (Demo.world_of Demo.data (inr Demo.cut_short))) 1
  = Some Demo.data
  /\ open_file (Demo.world_of Demo.data (inr Demo.cut_short))
               (posix_path_str Demo.data)
     = inr Demo.cut_short
  /\ read_failure Demo.cut_short = Some Undecodable
  /\ ending (Demo.run (inr Demo.cut_short)) = Uncaught UnicodeDecodeError
  /\ exit_status (ending (Demo.run (inr Demo.cut_short))) = 1%Z
  /\ printed (events (Demo.run (inr Demo.cut_short)))
     = [error_line Demo.data_path 1 Demo.bad_json_message]
  /\ ~ In (ok_line Demo.data_path)
          (printed (events (Demo.run (inr Demo.cut_short)))).
Proof.
  exact (conj eq_refl (conj eq_refl (conj eq_refl
          (read_error_is_fatal
             PyJson.json_loads posix_path_str
             (Demo.world_of Demo.data (inr Demo.cut_short)) Demo.data
             Demo.cut_short Undecodable eq_refl eq_refl eq_refl)))).
Defined.

(* ================================================================== *)
(** * More on [strip] *)

Lemma lstrip_split (s : str) :
  exists a, s = a ++ lstrip s /\ Forall (fun c => isspace c = true) a.
Proof.
  induction s as [|c s (a & Hs & Ha)]; simpl.
  - exists []. auto.
  - destruct (isspace c) eqn:Hc.
    + exists (c :: a). split; [simpl; now f_equal | now constructor].
    + exists []. auto.
Qed.

Lemma lstrip_head (s : str) (c : N) (t : str) :
  lstrip s = c :: t -> isspace c = false.
Proof.
  induction s as [|d s IH]; simpl; [discriminate|].
  destruct (isspace d) eqn:Hd; auto. now intros [= <- _].
Qed.

Lemma lstrip_stop (c : N) (s : str) :
  isspace c = false -> lstrip (c :: s) = c :: s.
Proof. intros H. simpl. now rewrite H. Qed.

(** A last character that is no white space stays, and with it whatever
    [lstrip] leaves before it. *)
Lemma lstrip_last (s : str) (d : N) :
  isspace d = false -> lstrip (s ++ [d]) = lstrip s ++ [d].
Proof.
  intros Hd. induction s as [|c s IH]; simpl.
  - now rewrite Hd.
  - destruct (isspace c); auto.
Qed.

Lemma rstrip_split (s : str) :
  exists b, s = rstrip s ++ b /\ Forall (fun c => isspace c = true) b.
Proof.
  unfold rstrip. destruct (lstrip_split (rev s)) as (a & Hs & Ha).
  exists (rev a). split.
  - rewrite <- rev_app_distr, <- Hs. now rewrite rev_involutive.
  - now apply Forall_rev.
Qed.

Lemma rstrip_last (s t : str) (d : N) :
  rstrip s = t ++ [d] -> isspace d = false.
Proof.
  unfold rstrip. intros H.
  apply (f_equal (@rev N)) in H. rewrite rev_involutive, rev_app_distr in H.
  simpl in H. now apply lstrip_head in H.
Qed.

(** [rstrip] keeps a first character that is no white space. *)
Lemma rstrip_first (c : N) (s : str) :
  isspace c = false -> exists t, rstrip (c :: s) = c :: t.
Proof.
  intros Hc. unfold rstrip. simpl rev. rewrite lstrip_last by assumption.
  rewrite rev_app_distr. simpl. eauto.
Qed.

Lemma rstrip_head (s : str) (c : N) (t : str) :
  rstrip s = c :: t -> exists u, s = c :: u.
Proof.
  intros H. destruct (rstrip_split s) as (b & Hs & _).
  rewrite H in Hs. simpl in Hs. eauto.
Qed.

(** What [strip] gives: the line without the white space at its two ends,
    and with no white space left at either end. *)
Lemma strip_split (s : str) :
  exists a b, s = a ++ strip s ++ b
              /\ Forall (fun c => isspace c = true) a
              /\ Forall (fun c => isspace c = true) b.
Proof.
  unfold strip. destruct (lstrip_split s) as (a & Hs & Ha).
  destruct (rstrip_split (lstrip s)) as (b & Hl & Hb).
  exists a, b. repeat split; auto. now rewrite <- Hl.
Qed.

Lemma strip_first (s : str) (c : N) (t : str) :
  strip s = c :: t -> isspace c = false.
Proof.
  unfold strip. intros H. destruct (rstrip_head _ _ _ H) as (u & Hu).
  now apply lstrip_head in Hu.
Qed.

Lemma strip_last (s t : str) (d : N) :
  strip s = t ++ [d] -> isspace d = false.
Proof. unfold strip. apply rstrip_last. Qed.

Lemma rstrip_stop (s : str) (d : N) :
  isspace d = false -> rstrip (s ++ [d]) = s ++ [d].
Proof.
  intros Hd. unfold rstrip. rewrite rev_app_distr. simpl.
  rewrite Hd. simpl. now rewrite rev_involutive.
Qed.

(** Stripping twice is stripping once. *)
Lemma strip_strip (s : str) : strip (strip s) = strip s.
Proof.
  destruct (strip s) as [|c t] eqn:Hs; [reflexivity|].
  pose proof (strip_first _ _ _ Hs) as Hc.
  destruct (exists_last (l := c :: t) ltac:(discriminate)) as (u & d & Hu).
  rewrite Hu in Hs. pose proof (strip_last _ _ _ Hs) as Hd.
  unfold strip at 1. rewrite lstrip_stop by assumption.
  rewrite Hu. now apply rstrip_stop.
Qed.

(* ================================================================== *)
(** * The script in every world *)

Lemma ok_line_not_error_line (p q : str) (i : Z) (e : str) :
  ok_line p <> error_line q i e.
Proof. unfold ok_line, error_line; simpl; discriminate. Qed.

Lemma app_eq_unit_event (t1 t2 : list event) (x y : event) :
  t1 ++ x :: t2 = [y] -> t1 = [] /\ x = y /\ t2 = [].
Proof.
  destruct t1 as [|a t1]; simpl.
  - now intros [= -> ->].
  - intros [= _ H]. now destruct t1.
Qed.

(** Where an element of [a ++ b] lies. *)
Lemma app_eq_app_elt (A : Type) (t1 t2 a b : list A) (x : A) :
  t1 ++ x :: t2 = a ++ b ->
  (exists t, a = t1 ++ x :: t /\ t2 = t ++ b)
  \/ (exists t, t1 = a ++ t /\ b = t ++ x :: t2).
Proof.
  revert a; induction t1 as [|y t1 IH]; intros a H.
  - destruct a as [|z a]; simpl in H.
    + right. exists []. auto.
    + injection H as -> ->. left. exists a. auto.
  - destruct a as [|z a]; simpl in H.
    + right. exists (y :: t1). auto.
    + injection H as -> H. destruct (IH _ H) as [(t & -> & ->)|(t & -> & ->)].
      * left. exists t. auto.
      * right. exists t. auto.
Qed.

Lemma NoDup_map_injective (A B : Type) (g : A -> B) (l : list A) :
  (forall a b, g a = g b -> a = b) -> NoDup l -> NoDup (map g l).
Proof.
  intros Hg. induction 1 as [|a l Ha _ IH]; simpl; constructor; auto.
  rewrite in_map_iff. intros (b & Hb & Hin). apply Hg in Hb. now subst.
Qed.

Section Coverage.

Variable json_loads : str -> loads_result.
Variable path_str : str -> str.

Local Abbreviation main := (validate_jsonl json_loads path_str).
Local Abbreviation scan := (scan_lines json_loads).
Local Abbreviation malformed := (malformed_lines json_loads 1).

(** The calls of one line: none, the parse, or the parse and at once the
    diagnostic of its failure. *)
Lemma line_events_cases (path : str) (i : Z) (line : str) :
  (strip line = [] /\ line_events json_loads path (i, line) = [])
  \/ (strip line <> [] /\ json_loads (strip line) = Parsed
      /\ line_events json_loads path (i, line) = [Parse (strip line)])
  \/ (exists e, strip line <> [] /\ json_loads (strip line) = Raised e
      /\ line_events json_loads path (i, line)
         = [Parse (strip line); Print (error_line path i e)]).
Proof.
  unfold line_events, loop_body. simpl.
  destruct (strip line) as [|c s] eqn:Hs; simpl; auto.
  right. destruct (json_loads (c :: s)) as [|e]; simpl.
  - left. repeat split; auto. discriminate.
  - right. exists e. repeat split; auto. discriminate.
Qed.

(** In the trace of the loop every diagnostic stands right after the call
    whose failure it reports. *)
Lemma scan_lines_print_after_parse (path : str) (f : list str)
      (t1 t2 : list event) (d : str) :
  trace (scan path f) = t1 ++ Print d :: t2 ->
  exists t0 s e k line,
    t1 = t0 ++ [Parse s] /\ json_loads s = Raised e
    /\ nth_error f k = Some line /\ s = strip line
    /\ d = error_line path (1 + Z.of_nat k) e.
Proof.
  revert t1 t2; induction f as [|line f IH] using rev_ind; intros t1 t2 H.
  - now destruct t1.
  - unfold scan_lines in H. rewrite for_lines_app in H. fold (scan path f) in H.
    cbn [for_lines enumerate fold_left] in H. rewrite loop_body_step in H.
    cbn [trace] in H. symmetry in H.
    apply app_eq_app_elt in H. destruct H as [(t & Ht & _)|(t & -> & Ht)].
    + destruct (IH _ _ Ht) as (t0 & s & e & k & l & -> & He & Hk & -> & ->).
      exists t0, (strip l), e, k, l. repeat split; auto.
      rewrite nth_error_app1; auto. apply nth_error_Some. congruence.
    + destruct (line_events_cases path (1 + Z.of_nat (length f)) line)
        as [(_ & Hl)|[(_ & _ & Hl)|(e & _ & He & Hl)]]; rewrite Hl in Ht.
      * now destruct t.
      * destruct t as [|? [|? ?]]; discriminate.
      * destruct t as [|x [|y t]]; try discriminate.
        -- injection Ht as <- <- <-.
           exists (trace (scan path f)), (strip line), e, (length f), line.
           repeat split; auto.
           rewrite nth_error_app2, Nat.sub_diag; auto.
        -- injection Ht as _ _ Ht. now destruct t.
Qed.

(** In the trace of the loop every failed call is followed at once by its
    diagnostic. *)
Lemma scan_lines_parse_then_print (path : str) (f : list str)
      (t1 t2 : list event) (s e : str) :
  trace (scan path f) = t1 ++ Parse s :: t2 ->
  json_loads s = Raised e ->
  exists i t, t2 = Print (error_line path i e) :: t.
Proof.
  revert t1 t2; induction f as [|line f IH] using rev_ind; intros t1 t2 H He.
  - now destruct t1.
  - unfold scan_lines in H. rewrite for_lines_app in H. fold (scan path f) in H.
    cbn [for_lines enumerate fold_left] in H. rewrite loop_body_step in H.
    cbn [trace] in H. symmetry in H.
    apply app_eq_app_elt in H. destruct H as [(t & Ht & ->)|(t & -> & Ht)].
    + destruct (IH _ _ Ht He) as (i & t' & ->). simpl. eauto.
    + destruct (line_events_cases path (1 + Z.of_nat (length f)) line)
        as [(_ & Hl)|[(_ & Hp & Hl)|(e' & _ & He' & Hl)]]; rewrite Hl in Ht.
      * now destruct t.
      * destruct t as [|? [|? ?]]; try discriminate.
        injection Ht as <- _. congruence.
      * destruct t as [|x [|y t]]; try discriminate.
        -- injection Ht as <- <-. rewrite He in He'. injection He' as <-. eauto.
        -- injection Ht as _ _ Ht. now destruct t.
Qed.

(** The loop depends on a line through its stripped text only. *)
Lemma for_lines_strip (path : str) (f f' : list str) (start : Z) (st : state) :
  map strip f = map strip f' ->
  for_lines json_loads path start f st = for_lines json_loads path start f' st.
Proof.
  revert f' start st; induction f as [|l f IH]; intros [|l' f'] start st H;
    try discriminate; auto.
  injection H as Hl H. rewrite !for_lines_cons.
  assert (Hb : loop_body json_loads path start l st
               = loop_body json_loads path start l' st).
  { unfold loop_body. cbv zeta. now rewrite Hl. }
  rewrite Hb. now apply IH.
Qed.

(** X1: the script takes its path from [sys.argv[1]] and from nowhere
    else: called without an argument it ends with an uncaught
    [IndexError] and status 1 before anything is opened, parsed or printed,
    whatever the file system holds; and a run ends with [IndexError] only
    then. *)
Theorem missing_argument_is_fatal (w : world) :
  (length (argv w) < 2 ->
   main w = {| events := []; ending := Uncaught IndexError |}
   /\ exit_status (ending (main w)) = 1%Z)
  /\ (ending (main w) = Uncaught IndexError <-> length (argv w) < 2).
Proof.
  assert (Hnone : length (argv w) < 2 -> nth_error (argv w) 1 = None).
  { intros H. apply nth_error_None. lia. }
  split; [|split].
  - intros H. unfold validate_jsonl. now rewrite (Hnone H).
  - intros H. destruct (nth_error (argv w) 1) as [arg|] eqn:Harg.
    + exfalso. unfold validate_jsonl in H. rewrite Harg in H.
      destruct (open_file w (path_str arg)) as [e|f]; [discriminate|].
      destruct (read_failure f) as [[|e]|]; try discriminate.
      destruct (negb _); discriminate.
    + apply nth_error_None in Harg. lia.
  - intros H. unfold validate_jsonl. now rewrite (Hnone H).
Qed.


(** X3: [json.loads] is only ever called on the stripped text of a line of
    the file, and never on a blank one: each text it is given is not empty,
    has no white space at either end, is left as it is by another [strip],
    and is a line of the file without the white space at its two ends. *)
Theorem json_loads_sees_stripped_lines
        (w : world) (arg : str) (f : text_file) (s : str) :
  nth_error (argv w) 1 = Some arg ->
  open_file w (path_str arg) = inr f ->
  In s (parsed (events (main w))) ->
  s <> []
  /\ strip s = s
  /\ (forall c t, s = c :: t -> isspace c = false)
  /\ (forall t d, s = t ++ [d] -> isspace d = false)
  /\ exists line a b,
       In line (lines f) /\ s = strip line /\ line = a ++ s ++ b
       /\ Forall (fun c => isspace c = true) a
       /\ Forall (fun c => isspace c = true) b.
Proof.
  intros Harg Hopen Hin.
  rewrite (parsed_validate_jsonl _ _ _ _ _ Harg Hopen) in Hin.
  apply filter_In in Hin. destruct Hin as [Hin Hne].
  apply in_map_iff in Hin. destruct Hin as (line & <- & Hline).
  split; [|split; [|split; [|split]]].
  - intros H. rewrite H in Hne. discriminate.
  - apply strip_strip.
  - intros c t H. exact (strip_first _ _ _ H).
  - intros t d H. exact (strip_last _ _ _ H).
  - destruct (strip_split line) as (a & b & H & Ha & Hb).
    exists line, a, b. auto.
Qed.

(** X4: white space at the ends of the lines is of no account: two files
    whose lines are the same after [strip], read with the same success
    under the same path, give the same run, call for call. *)
Theorem white_space_around_lines_is_ignored
        (w w' : world) (arg arg' : str) (f f' : text_file) :
  nth_error (argv w) 1 = Some arg ->
  open_file w (path_str arg) = inr f ->
  nth_error (argv w') 1 = Some arg' ->
  open_file w' (path_str arg') = inr f' ->
  path_str arg = path_str arg' ->
  map strip (lines f) = map strip (lines f') ->
  read_failure f = read_failure f' ->
  main w = main w'.
Proof.
  intros Harg Hopen Harg' Hopen' Hpath Hlines Hread.
  unfold validate_jsonl. rewrite Harg, Harg', Hopen, Hopen'. cbv zeta.
  unfold scan_lines. rewrite <- Hpath, <- Hread.
  now rewrite (for_lines_strip _ _ _ _ _ Hlines).
Qed.

(** X5: a diagnostic is printed for a failed call of [json.loads] and for
    nothing else, and at once.  Every [print] of a run is either the
    [[OK]] line, as the last call of a run that read the file to its end,
    or the diagnostic of the call of [json.loads] right before it, which
    raised the message printed, on the stripped text of the line whose
    number is printed; and every call of [json.loads] that raises is
    followed at once by the [print] of its message. *)
Theorem diagnostics_follow_failed_calls
        (w : world) (arg : str) (f : text_file) :
  nth_error (argv w) 1 = Some arg ->
  open_file w (path_str arg) = inr f ->
  (forall t1 d t2,
      events (main w) = t1 ++ Print d :: t2 ->
      (d = ok_line (path_str arg) /\ t2 = [] /\ read_failure f = None
       /\ ending (main w) = Completed)
      \/ (exists t0 s e k line,
             t1 = t0 ++ [Parse s] /\ json_loads s = Raised e
             /\ nth_error (lines f) k = Some line /\ s = strip line
             /\ d = error_line (path_str arg) (1 + Z.of_nat k) e))
  /\ (forall t1 s t2 e,
         events (main w) = t1 ++ Parse s :: t2 ->
         json_loads s = Raised e ->
         exists i t, t2 = Print (error_line (path_str arg) i e) :: t).
Proof.
  intros Harg Hopen.
  rewrite (validate_jsonl_opened _ _ _ _ _ Harg Hopen). cbv zeta.
  destruct (read_failure f) as [r|]; cbn [events ending].
  { split.
    - intros t1 d t2 H. right. eapply scan_lines_print_after_parse; eauto.
    - intros t1 s t2 e H. eapply scan_lines_parse_then_print; eauto. }
  destruct (forallb (accepts json_loads) (lines f)); cbn [events ending].
  2:{ split.
      - intros t1 d t2 H. right. eapply scan_lines_print_after_parse; eauto.
      - intros t1 s t2 e H. eapply scan_lines_parse_then_print; eauto. }
  split.
  - intros t1 d t2 H. symmetry in H. apply app_eq_app_elt in H.
    destruct H as [(t & Ht & _)|(t & -> & Ht)].
    + right. eapply scan_lines_print_after_parse; eauto.
    + left. symmetry in Ht. apply app_eq_unit_event in Ht.
      destruct Ht as (_ & [= ->] & ->). auto.
  - intros t1 s t2 e H He. symmetry in H. apply app_eq_app_elt in H.
    destruct H as [(t & Ht & ->)|(t & -> & Ht)].
    + destruct (scan_lines_parse_then_print _ _ _ _ _ _ Ht He) as (i & t' & ->).
      simpl. eauto.
    + symmetry in Ht. apply app_eq_unit_event in Ht.
      destruct Ht as (_ & [=] & _).
Qed.


End Coverage.

(* ================================================================== *)
(** * The lines of a text *)

Lemma not_in_app (A : Type) (x : A) (a b : list A) :
  ~ In x a -> ~ In x b -> ~ In x (a ++ b).
Proof. rewrite in_app_iff. tauto. Qed.

(** Where the lines of a text without carriage returns lie in it. *)
Lemma io_lines_nth (t : str) :
  ~ In 13%N t ->
  forall (cur : str) (k : nat) (l : str),
    ~ In 10%N cur ->
    nth_error (io_lines cur t) k = Some l ->
    exists pre post,
      cur ++ t = pre ++ l ++ post
      /\ count_occ N.eq_dec pre 10%N = k
      /\ (pre = [] \/ exists p, pre = p ++ newline)
      /\ l <> []
      /\ ~ In 10%N (removelast l)
      /\ (post <> [] -> exists body, l = body ++ newline).
Proof.
  induction t as [|c t IH]; intros Hcr cur k l Hcur.
  - simpl. destruct cur as [|c0 cur0] eqn:Hc0; simpl.
    + now destruct k.
    + destruct k as [|k]; [|now destruct k]. intros [= <-].
      exists [], []. rewrite <- Hc0 in *. rewrite !app_nil_r. simpl.
      repeat split; auto.
      * subst cur. discriminate.
      * intros H. apply Hcur. clear - H.
        induction cur as [|a [|b cur] IHc]; simpl in *; tauto.
      * intros H. now elim H.
  - assert (Hc13 : c <> 13%N) by (intros ->; apply Hcr; now left).
    assert (Hcr' : ~ In 13%N t) by (intros H; apply Hcr; now right).
    cbn [io_lines]. unfold is_.
    destruct (N.eqb_spec c (N_of_ascii "010")) as [->|Hc10].
    + destruct k as [|k]; cbn [nth_error].
      * intros [= <-]. exists [], t. simpl app. rewrite <- app_assoc.
        repeat split; auto.
        -- now destruct cur.
        -- now rewrite removelast_last.
        -- intros _. now exists cur.
      * intros H. destruct (IH Hcr' [] k l ltac:(intros []) H)
          as (pre & post & Heq & Hcount & Hpre & Hl & Hbody & Hpost).
        simpl in Heq. exists (cur ++ newline ++ pre), post.
        repeat split; auto.
        -- rewrite Heq. now flatten.
        -- rewrite !count_occ_app, Hcount.
           rewrite (proj1 (count_occ_not_In N.eq_dec cur 10%N) Hcur).
           reflexivity.
        -- right. destruct Hpre as [->|(p & ->)].
           ++ exists cur. now rewrite app_nil_r.
           ++ exists (cur ++ newline ++ p). now flatten.
    + destruct (N.eqb_spec c (N_of_ascii "013")) as [->|_];
        [now elim Hc13|].
      intros H.
      destruct (IH Hcr' (cur ++ [c]) k l) as (pre & post & Heq & Hrest); auto.
      { apply not_in_app; auto. simpl. intros [Hc|[]]. now elim Hc10. }
      exists pre, post. split; auto. rewrite <- Heq. now flatten.
Qed.

(** A carriage return and a line feed end a line as a line feed does. *)
Lemma io_lines_crlf (t cur : str) :
  ~ In 13%N t ->
  io_lines cur (with_line_ends (carriage_return ++ newline) t) = io_lines cur t.
Proof.
  revert cur; induction t as [|c t IH]; intros cur Hcr; [reflexivity|].
  assert (Hc13 : c <> 13%N) by (intros ->; apply Hcr; now left).
  assert (Hcr' : ~ In 13%N t) by (intros H; apply Hcr; now right).
  unfold with_line_ends. cbn [flat_map]. fold (with_line_ends (carriage_return ++ newline) t).
  unfold is_ at 1.
  destruct (N.eqb_spec c (N_of_ascii "010")) as [->|Hc10].
  - transitivity ((cur ++ newline)
                  :: io_lines [] (with_line_ends (carriage_return ++ newline) t));
      [reflexivity|].
    now rewrite IH.
  - cbn [app io_lines]. unfold is_.
    destruct (N.eqb_spec c (N_of_ascii "010")) as [H|_]; [now elim Hc10|].
    destruct (N.eqb_spec c (N_of_ascii "013")) as [H|_]; [now elim Hc13|].
    now apply IH.
Qed.

(** The text written with carriage returns has no line feed. *)
Lemma with_line_ends_cr_head (t : str) :
  match with_line_ends (carriage_return) t with
  | c :: _ => is_ "010" c = false
  | [] => t = []
  end.
Proof.
  destruct t as [|c t]; [reflexivity|].
  unfold with_line_ends. cbn [flat_map]. unfold is_.
  destruct (N.eqb_spec c (N_of_ascii "010")) as [->|Hc]; [reflexivity|].
  simpl. now apply N.eqb_neq.
Qed.

(** A carriage return alone ends a line as a line feed does. *)
Lemma io_lines_cr (t cur : str) :
  ~ In 13%N t ->
  io_lines cur (with_line_ends (carriage_return) t) = io_lines cur t.
Proof.
  revert cur; induction t as [|c t IH]; intros cur Hcr; [reflexivity|].
  assert (Hc13 : c <> 13%N) by (intros ->; apply Hcr; now left).
  assert (Hcr' : ~ In 13%N t) by (intros H; apply Hcr; now right).
  unfold with_line_ends. cbn [flat_map]. fold (with_line_ends (carriage_return) t).
  unfold is_ at 1.
  destruct (N.eqb_spec c (N_of_ascii "010")) as [->|Hc10].
  - transitivity ((cur ++ newline) :: io_lines [] (with_line_ends (carriage_return) t));
      [|now rewrite IH].
    pose proof (with_line_ends_cr_head t) as Hhead.
    destruct (with_line_ends (carriage_return) t) as [|c' t'] eqn:Ht.
    + reflexivity.
    + simpl app. cbn [io_lines].
      change (is_ "010" (N_of_ascii "013")) with false.
      change (is_ "013" (N_of_ascii "013")) with true. cbv iota.
      now rewrite Hhead.
  - cbn [app io_lines]. unfold is_.
    destruct (N.eqb_spec c (N_of_ascii "010")) as [H|_]; [now elim Hc10|].
    destruct (N.eqb_spec c (N_of_ascii "013")) as [H|_]; [now elim Hc13|].
    now apply IH.
Qed.

(** X8: the three ways to end a line are one to the script.  A text
    written with a line feed, with a carriage return and a line feed, or
    with a carriage return alone at the end of each line is read as the
    same lines, so the script, on the same path, does on each of the
    three files what it does on the others. *)
Theorem line_ends_make_no_difference
        (json_loads : str -> loads_result) (path_str : str -> str)
        (t : str) (term : str) (w w' : world) (arg : str) :
  ~ In 13%N t ->
  term = carriage_return ++ newline \/ term = carriage_return ->
  nth_error (argv w) 1 = Some arg ->
  nth_error (argv w') 1 = Some arg ->
  open_file w (path_str arg) = inr (file_of_text t) ->
  open_file w' (path_str arg) = inr (file_of_text (with_line_ends term t)) ->
  io_lines [] (with_line_ends term t) = io_lines [] t
  /\ validate_jsonl json_loads path_str w' = validate_jsonl json_loads path_str w.
Proof.
  intros Hcr Hterm Harg Harg' Hopen Hopen'.
  assert (Hlines : io_lines [] (with_line_ends term t) = io_lines [] t).
  { destruct Hterm as [-> | ->]; [now apply io_lines_crlf|now apply io_lines_cr]. }
  split; auto.
  unfold validate_jsonl. rewrite Harg, Harg', Hopen, Hopen'.
  unfold file_of_text. cbn [lines read_failure]. now rewrite Hlines.
Qed.

(** X9: the line numbers of the script count line feeds.  In a text
    without carriage returns the line that the iteration yields at
    position [k], which the script numbers [k + 1], starts right after the
    [k]-th line feed of the text, or at its start, and goes up to the next
    line feed, with it, or to the end of the text. *)
Theorem line_numbers_count_line_feeds (t : str) (k : nat) (l : str) :
  ~ In 13%N t ->
  nth_error (lines (file_of_text t)) k = Some l ->
  exists pre post,
    t = pre ++ l ++ post
    /\ count_occ N.eq_dec pre 10%N = k
    /\ (pre = [] \/ exists p, pre = p ++ newline)
    /\ l <> []
    /\ ~ In 10%N (removelast l)
    /\ (post <> [] -> exists body, l = body ++ newline).
Proof.
  intros Hcr H. apply (io_lines_nth t Hcr [] k l); auto.
Qed.

(* ================================================================== *)
(** * What [json.loads] accepts is in the grammar *)

Module Sound.

Import PyJson Accepts.

#[local] Arguments is_ a !c /.
#[local] Arguments is_ws !c /.
#[local] Arguments is_digit !c /.
#[local] Arguments is_digit19 !c /.
#[local] Arguments is_hex !c /.
#[local] Arguments is_escape !c /.

Lemma is_hex_hex (c : N) : is_hex c = true -> Json.hex c.
Proof.
  unfold is_hex, Json.hex, Json.digit, is_digit.
  rewrite !orb_true_iff, !andb_true_iff, !N.leb_le. tauto.
Qed.

Lemma is_escape_In (c : N) :
  is_escape c = true -> In c (dquote ++ py "\/bfnrt").
Proof.
  unfold is_escape. rewrite !orb_true_iff, !is_true. simpl.
  intuition (subst c; tauto).
Qed.

Lemma code_points_tail (a b : str) : code_points (a ++ b) -> code_points b.
Proof. unfold code_points. intros H. now apply Forall_app in H. Qed.

(** The white space that [skip_ws] passes over. *)
Lemma skip_ws_split (s : str) (idx : nat) :
  exists w, Json.ws w /\ s = w ++ fst (skip_ws s idx).
Proof.
  revert idx; induction s as [|c s IH]; intros idx; simpl.
  - exists []. split; [constructor|reflexivity].
  - destruct (is_ws c) eqn:Hc.
    + destruct (IH (S idx)) as (w & Hw & Hs). exists (c :: w). split.
      * constructor; auto. now apply is_ws_true.
      * simpl. now f_equal.
    + exists []. split; [constructor|reflexivity].
Qed.

Lemma skip_digits_split (s : str) (idx : nat) :
  exists ds, Forall Json.digit ds /\ s = ds ++ fst (skip_digits s idx).
Proof.
  revert idx; induction s as [|c s IH]; intros idx; simpl.
  - exists []. split; [constructor|reflexivity].
  - destruct (is_digit c) eqn:Hc.
    + destruct (IH (S idx)) as (w & Hw & Hs). exists (c :: w). split.
      * constructor; auto. now apply is_digit_true.
      * simpl. now f_equal.
    + exists []. split; [constructor|reflexivity].
Qed.

Lemma digits_cons (d : N) (ds : str) :
  Json.digit d -> Forall Json.digit ds -> Json.digits (d :: ds).
Proof.
  intros Hd Hds. revert d Hd; induction Hds as [|d' ds Hd' _ IH]; intros d Hd.
  - now constructor.
  - constructor; auto.
Qed.

Lemma match_frac_split (s : str) (idx : nat) :
  exists f, Json.fraction f /\ s = f ++ fst (match_frac s idx).
Proof.
  assert (Hnone : exists f, Json.fraction f /\ s = f ++ s)
    by (exists []; split; [constructor|reflexivity]).
  unfold match_frac. destruct s as [|dot [|d s']]; auto.
  destruct (is_ "." dot) eqn:Hdot; auto. apply is_true in Hdot. subst dot.
  destruct (is_digit d) eqn:Hd; auto. apply is_digit_true in Hd.
  cbn [andb]. destruct (skip_digits_split s' (2 + idx)) as (ds & Hds & Hs).
  exists (py "." ++ d :: ds). split.
  - constructor. now apply digits_cons.
  - simpl. now do 2 f_equal.
Qed.

Lemma match_exp_split (s : str) (idx : nat) :
  exists e, Json.exponent e /\ s = e ++ fst (match_exp s idx).
Proof.
  assert (Hnone : exists e, Json.exponent e /\ s = e ++ s)
    by (exists []; split; [constructor|reflexivity]).
  unfold match_exp. destruct s as [|e s1]; auto.
  destruct (is_ "e" e || is_ "E" e) eqn:He; auto.
  assert (Hexp : forall sg ds, Json.sign sg -> Json.digits ds ->
                               Json.exponent (e :: sg ++ ds)).
  { intros sg ds Hsg Hds. apply orb_true_iff in He.
    destruct He as [He|He]; apply is_true in He; subst e.
    - now apply (Json.exponent_e sg ds).
    - now apply (Json.exponent_E sg ds). }
  assert (Hdigits : forall sg s2 i2, Json.sign sg -> s1 = sg ++ s2 ->
            exists e0, Json.exponent e0
              /\ e :: s1
                 = e0 ++ fst match s2 with
                             | d :: s3 =>
                                 if is_digit d then skip_digits s3 (S i2)
                                 else (e :: s1, idx)
                             | [] => (e :: s1, idx)
                             end).
  { intros sg s2 i2 Hsg ->. destruct s2 as [|d s3]; auto.
    destruct (is_digit d) eqn:Hd; auto. apply is_digit_true in Hd.
    destruct (skip_digits_split s3 (S i2)) as (ds & Hds & Hs).
    exists (e :: sg ++ d :: ds). split.
    - apply Hexp; auto. now apply digits_cons.
    - simpl. f_equal. rewrite <- app_assoc. simpl. now do 2 f_equal. }
  destruct s1 as [|sg [|c s']].
  - apply (Hdigits [] [] (S idx)); [constructor|reflexivity].
  - apply (Hdigits [] [sg] (S idx)); [constructor|reflexivity].
  - destruct (is_ "-" sg || is_ "+" sg) eqn:Hsg.
    + apply orb_true_iff in Hsg.
      destruct Hsg as [Hsg|Hsg]; apply is_true in Hsg; subst sg.
      * apply (Hdigits (py "-") (c :: s') (2 + idx)); [constructor|reflexivity].
      * apply (Hdigits (py "+") (c :: s') (2 + idx)); [constructor|reflexivity].
    + apply (Hdigits [] (sg :: c :: s') (S idx)); [constructor|reflexivity].
Qed.

(** What [match_number] takes is a number. *)
Lemma match_number_split (s : str) (idx : nat) (rest : str) (e : nat) :
  match_number s idx = Some (rest, e) ->
  exists n, Json.number n /\ s = n ++ rest.
Proof.
  assert (Htail : forall (i : str) s2 r, Json.integer i ->
            (exists i1, r = (let (s4, i4) := match_frac s2 i1 in
                             let (s5, i5) := match_exp s4 i4 in s5)) ->
            exists n, Json.number n /\ i ++ s2 = n ++ r).
  { intros i s2 r Hi (i1 & ->).
    destruct (match_frac_split s2 i1) as (f & Hf & Hs2).
    destruct (match_frac s2 i1) as [s4 i4]. simpl in Hs2.
    destruct (match_exp_split s4 i4) as (x & Hx & Hs4).
    destruct (match_exp s4 i4) as [s5 i5]. simpl in Hs4.
    exists (i ++ f ++ x). split; [now constructor|].
    rewrite Hs2, Hs4 at 1. now flatten. }
  assert (Hint : forall (sg : str) s1 i1,
            sg = [] \/ sg = py "-" ->
            match s1 with
            | c :: s2 =>
                if is_digit19 c then
                  let (s3, i3) := skip_digits s2 (S i1) in
                  let (s4, i4) := match_frac s3 i3 in
                  Some (match_exp s4 i4)
                else if is_ "0" c then
                  let (s4, i4) := match_frac s2 (S i1) in
                  Some (match_exp s4 i4)
                else None
            | [] => None
            end = Some (rest, e) ->
            exists n, Json.number n /\ sg ++ s1 = n ++ rest).
  { intros sg s1 i1 Hsg H. destruct s1 as [|c s2]; [discriminate|].
    destruct (is_digit19 c) eqn:Hc.
    - apply is_digit19_true in Hc.
      destruct (skip_digits_split s2 (S i1)) as (ds & Hds & Hs2).
      destruct (skip_digits s2 (S i1)) as [s3 i3]. simpl in Hs2.
      destruct (Htail (sg ++ c :: ds) s3 rest) as (n & Hn & Heq).
      + destruct Hsg as [->| ->]; destruct Hds as [|d ds Hd Hds]; simpl.
        * constructor. now apply onenine_digit.
        * apply Json.integer_digits; auto. now apply digits_cons.
        * apply Json.integer_minus_digit. now apply onenine_digit.
        * apply Json.integer_minus_digits; auto. now apply digits_cons.
      + exists i3. destruct (match_frac s3 i3) as [s4 i4].
        destruct (match_exp s4 i4) as [s5 i5]. now injection H as <- _.
      + exists n. split; auto. rewrite <- Heq, Hs2 at 1.
        rewrite <- !app_assoc. reflexivity.
    - destruct (is_ "0" c) eqn:H0; [|discriminate].
      apply is_true in H0. subst c.
      destruct (Htail (sg ++ py "0") s2 rest) as (n & Hn & Heq).
      + assert (Hd : Json.digit 48) by (unfold Json.digit; lia).
        destruct Hsg as [->| ->]; simpl.
        * now constructor.
        * now apply Json.integer_minus_digit.
      + exists (S i1). destruct (match_frac s2 (S i1)) as [s4 i4].
        destruct (match_exp s4 i4) as [s5 i5]. now injection H as <- _.
      + exists n. split; auto. rewrite <- Heq, <- app_assoc. reflexivity. }
  unfold match_number. destruct s as [|c s']; [discriminate|].
  destruct (is_ "-" c) eqn:Hc.
  - apply is_true in Hc. subst c. intros H.
    apply (Hint (py "-") s' (S idx)); auto.
  - intros H. apply (Hint [] (c :: s') idx); auto.
Qed.

(** What [scanstring] passes over up to the closing quotation mark are
    the characters of a string. *)
Lemma scanstring_split (begin : nat) (s : str) (end_ : nat) (rest : str) (e : nat) :
  code_points s ->
  scanstring begin s end_ = Ok rest e ->
  exists cs, Json.characters cs /\ s = cs ++ dquote ++ rest.
Proof.
  revert end_. induction s as [s IH] using (well_founded_induction
    (Wf_nat.well_founded_ltof _ (@Datatypes.length N))). unfold Wf_nat.ltof in IH.
  intros end_ Hcp. destruct s as [|c s1]; [discriminate|]. rewrite scanstring_cons.
  pose proof (Forall_inv Hcp) as Hc. pose proof (Forall_inv_tail Hcp) as Hcp1.
  cbv beta in Hc.
  destruct (is_ "034" c) eqn:Hq.
  { apply is_true in Hq. subst c. intros [= <- _].
    exists []. split; [constructor|reflexivity]. }
  apply is_false in Hq.
  destruct (is_ "\" c) eqn:Hb.
  - apply is_true in Hb. subst c.
    destruct s1 as [|esc s2]; [discriminate|].
    destruct (is_ "u" esc) eqn:Hu.
    + apply is_true in Hu. subst esc.
      destruct s2 as [|h1 [|h2 [|h3 [|h4 [|c5 s3]]]]]; try discriminate.
      destruct (is_hex h1) eqn:H1; [|discriminate].
      destruct (is_hex h2) eqn:H2; [|discriminate].
      destruct (is_hex h3) eqn:H3; [|discriminate].
      destruct (is_hex h4) eqn:H4; [|discriminate]. cbn [andb]. intros H.
      destruct (IH (c5 :: s3) ltac:(cbn [length]; lia) (6 + end_)) as (cs & Hcs & Hs);
        auto.
      { now apply (code_points_tail [h1; h2; h3; h4]), (code_points_tail [117%N]). }
      exists (py "\u" ++ h1 :: h2 :: h3 :: h4 :: cs). split.
      * apply Json.characters_hex; auto using is_hex_hex.
      * simpl. now rewrite Hs.
    + destruct (is_escape esc) eqn:He; [|discriminate]. intros H.
      destruct (IH s2 ltac:(cbn [length]; lia) (2 + end_)) as (cs & Hcs & Hs); auto.
      { now apply (code_points_tail [esc]). }
      exists (py "\" ++ esc :: cs). split.
      * apply Json.characters_escape; auto using is_escape_In.
      * simpl. now rewrite Hs.
  - apply is_false in Hb.
    destruct (c <=? 31)%N eqn:Hlow; [discriminate|]. apply N.leb_gt in Hlow.
    intros H.
    destruct (IH s1 ltac:(cbn [length]; lia) (S end_)) as (cs & Hcs & Hs); auto.
    exists (c :: cs). split.
    + apply Json.characters_plain; auto. lia.
    + simpl. now rewrite Hs.
Qed.

Lemma after_prefix_split (lit s rest : str) :
  after_prefix lit s = Some rest -> s = lit ++ rest.
Proof.
  revert s; induction lit as [|a lit IH]; intros s; simpl.
  - now intros [= ->].
  - destruct s as [|c s]; [discriminate|].
    destruct (N.eqb a c) eqn:Hc; [|discriminate].
    apply N.eqb_eq in Hc. subst c. intros H. f_equal. now apply IH.
Qed.

Lemma match_constant_split (names : list string) (s : str) (idx : nat)
      (rest : str) (e : nat) :
  match_constant names s idx = Some (rest, e) ->
  exists name, In name names /\ s = py name ++ rest.
Proof.
  induction names as [|name names IH]; simpl; [discriminate|].
  destruct (after_prefix (py name) s) as [r|] eqn:Hp.
  - intros [= <- _]. exists name. split; auto. now apply after_prefix_split.
  - intros H. destruct (IH H) as (n & Hn & Hs). eauto.
Qed.

(** White space before the first element, or the first member. *)
Lemma elements_ws (w es : str) :
  Json.ws w -> Lenient.elements es -> Lenient.elements (w ++ es).
Proof.
  intros Hw.
  assert (Happ : forall w1, Json.ws w1 -> Json.ws (w ++ w1))
    by (intros w1 H1; now apply Forall_app).
  intros [w1 v w2 H1 Hv H2|w1 v w2 es' H1 Hv H2 Hes]; rewrite app_assoc.
  - apply Lenient.elements_one; auto.
  - apply Lenient.elements_more; auto.
Qed.

Lemma members_ws (w ms : str) :
  Json.ws w -> Lenient.members ms -> Lenient.members (w ++ ms).
Proof.
  intros Hw.
  assert (Happ : forall w1, Json.ws w1 -> Json.ws (w ++ w1))
    by (intros w1 H1; now apply Forall_app).
  intros [w1 k w2 w3 v w4 H1 Hk H2 H3 Hv H4
         |w1 k w2 w3 v w4 ms' H1 Hk H2 H3 Hv H4 Hms]; rewrite app_assoc.
  - apply Lenient.members_one; auto.
  - apply Lenient.members_more; auto.
Qed.

Section Loops.

Variable scan : str -> nat -> scan_result.

Hypothesis scan_split :
  forall s idx rest e,
    code_points s -> scan s idx = Ok rest e ->
    exists v, Lenient.value v /\ s = v ++ rest.

Lemma array_loop_split (n : nat) (s : str) (idx : nat) (rest : str) (e : nat) :
  code_points s ->
  array_loop scan n s idx = Ok rest e ->
  exists es, Lenient.elements es /\ s = es ++ py "]" ++ rest.
Proof.
  revert s idx; induction n as [|n IH]; intros s idx Hcp; [discriminate|].
  simpl. destruct (scan s idx) as [s1 i1| | |] eqn:Hscan; try discriminate.
  destruct (scan_split _ _ _ _ Hcp Hscan) as (v & Hv & Hs).
  destruct (skip_ws_split s1 i1) as (w & Hw & Hs1).
  destruct (skip_ws s1 i1) as [s2 i2]. simpl in Hs1.
  destruct s2 as [|c s3]; [discriminate|].
  destruct (is_ "]" c) eqn:Hc.
  { apply is_true in Hc. subst c. intros [= <- _].
    exists (v ++ w). split.
    - apply (Lenient.elements_one [] v w); auto. constructor.
    - rewrite Hs, Hs1 at 1. now rewrite <- app_assoc. }
  destruct (is_ "," c) eqn:Hcomma; [|discriminate].
  apply is_true in Hcomma. subst c.
  destruct (skip_ws_split s3 (S i2)) as (w' & Hw' & Hs3).
  destruct (skip_ws s3 (S i2)) as [s4 i4]. simpl in Hs3. intros H.
  assert (Hcp4 : code_points s4).
  { rewrite Hs, Hs1, Hs3 in Hcp.
    now apply code_points_tail, code_points_tail,
      (code_points_tail [44%N]), code_points_tail in Hcp. }
  destruct (IH _ _ Hcp4 H) as (es & Hes & Hs4).
  exists (v ++ w ++ py "," ++ w' ++ es). split.
  - apply (Lenient.elements_more [] v w); auto; [constructor|].
    now apply elements_ws.
  - rewrite Hs, Hs1, Hs3, Hs4 at 1. now flatten.
Qed.

Lemma parse_array_split (s : str) (idx : nat) (rest : str) (e : nat) :
  code_points s ->
  parse_array scan s idx = Ok rest e ->
  exists v, Lenient.value v /\ py "[" ++ s = v ++ rest.
Proof.
  intros Hcp. unfold parse_array.
  destruct (skip_ws_split s idx) as (w & Hw & Hs).
  destruct (skip_ws s idx) as [s1 i1]. simpl in Hs.
  assert (Hcp1 : code_points s1).
  { rewrite Hs in Hcp. now apply code_points_tail in Hcp. }
  assert (Hloop : array_loop scan (S (length s1)) s1 i1 = Ok rest e ->
                  exists v, Lenient.value v /\ py "[" ++ s = v ++ rest).
  { intros H. destruct (array_loop_split _ _ _ _ _ Hcp1 H) as (es & Hes & Hs1).
    exists (py "[" ++ (w ++ es) ++ py "]"). split.
    - apply Lenient.value_array. now apply elements_ws.
    - rewrite Hs, Hs1 at 1. now flatten. }
  destruct s1 as [|c s2]; auto.
  destruct (is_ "]" c) eqn:Hc; auto.
  apply is_true in Hc. subst c. intros [= <- _].
  exists (py "[" ++ w ++ py "]"). split.
  - now constructor.
  - rewrite Hs at 1. now flatten.
Qed.

Lemma object_loop_split (n : nat) (s : str) (idx : nat) (rest : str) (e : nat) :
  code_points s ->
  object_loop scan n s idx = Ok rest e ->
  exists ms, Lenient.members ms /\ s = ms ++ py "}" ++ rest.
Proof.
  revert s idx; induction n as [|n IH]; intros s idx Hcp; [discriminate|].
  simpl. destruct s as [|q s0]; [discriminate|].
  destruct (is_ "034" q) eqn:Hq; [|discriminate].
  apply is_true in Hq. subst q.
  assert (Hcp0 : code_points s0) by now apply (code_points_tail [34%N]).
  destruct (scanstring idx s0 (S idx)) as [s1 i1| | |] eqn:Hkey; try discriminate.
  destruct (scanstring_split _ _ _ _ _ Hcp0 Hkey) as (k & Hk & Hs0).
  destruct (skip_ws_split s1 i1) as (w2 & Hw2 & Hs1).
  destruct (skip_ws s1 i1) as [s2 i2]. simpl in Hs1.
  destruct s2 as [|colon s3]; [discriminate|].
  destruct (is_ ":" colon) eqn:Hcolon; [|discriminate].
  apply is_true in Hcolon. subst colon.
  destruct (skip_ws_split s3 (S i2)) as (w3 & Hw3 & Hs3).
  destruct (skip_ws s3 (S i2)) as [s4 i4]. simpl in Hs3.
  assert (Hcp4 : code_points s4).
  { rewrite Hs0, Hs1, Hs3 in Hcp0.
    now apply code_points_tail, (code_points_tail dquote), code_points_tail,
      (code_points_tail [58%N]), code_points_tail in Hcp0. }
  destruct (scan s4 i4) as [s5 i5| | |] eqn:Hscan; try discriminate.
  destruct (scan_split _ _ _ _ Hcp4 Hscan) as (v & Hv & Hs4).
  destruct (skip_ws_split s5 i5) as (w4 & Hw4 & Hs5).
  destruct (skip_ws s5 i5) as [s6 i6]. simpl in Hs5.
  destruct s6 as [|c s7]; [discriminate|].
  assert (Heq : N_of_ascii "034" :: s0
                = dquote ++ k ++ dquote ++ w2 ++ py ":" ++ w3 ++ v ++ w4
                  ++ c :: s7).
  { rewrite Hs0, Hs1, Hs3, Hs4, Hs5 at 1. now flatten. }
  rewrite Heq.
  destruct (is_ "}" c) eqn:Hc.
  { apply is_true in Hc. subst c. intros [= <- _].
    exists (dquote ++ k ++ dquote ++ w2 ++ py ":" ++ w3 ++ v ++ w4). split.
    - apply (Lenient.members_one [] k w2 w3 v w4); auto. constructor.
    - now flatten. }
  destruct (is_ "," c) eqn:Hcomma; [|discriminate].
  apply is_true in Hcomma. subst c.
  destruct (skip_ws_split s7 (S i6)) as (w' & Hw' & Hs7).
  destruct (skip_ws s7 (S i6)) as [s8 i8]. simpl in Hs7. intros H.
  assert (Hcp8 : code_points s8).
  { rewrite Hs4, Hs5, Hs7 in Hcp4.
    now apply code_points_tail, code_points_tail,
      (code_points_tail [44%N]), code_points_tail in Hcp4. }
  destruct (IH _ _ Hcp8 H) as (ms & Hms & Hs8).
  exists (dquote ++ k ++ dquote ++ w2 ++ py ":" ++ w3 ++ v ++ w4
          ++ py "," ++ w' ++ ms). split.
  - apply (Lenient.members_more [] k w2 w3 v w4); auto; [constructor|].
    now apply members_ws.
  - rewrite Hs7, Hs8 at 1. now flatten.
Qed.

Lemma parse_object_split (s : str) (idx : nat) (rest : str) (e : nat) :
  code_points s ->
  parse_object scan s idx = Ok rest e ->
  exists v, Lenient.value v /\ py "{" ++ s = v ++ rest.
Proof.
  intros Hcp. unfold parse_object.
  destruct (skip_ws_split s idx) as (w & Hw & Hs).
  destruct (skip_ws s idx) as [s1 i1]. simpl in Hs.
  assert (Hcp1 : code_points s1).
  { rewrite Hs in Hcp. now apply code_points_tail in Hcp. }
  assert (Hloop : object_loop scan (S (length s1)) s1 i1 = Ok rest e ->
                  exists v, Lenient.value v /\ py "{" ++ s = v ++ rest).
  { intros H. destruct (object_loop_split _ _ _ _ _ Hcp1 H) as (ms & Hms & Hs1).
    exists (py "{" ++ (w ++ ms) ++ py "}"). split.
    - apply Lenient.value_object. now apply members_ws.
    - rewrite Hs, Hs1 at 1. now flatten. }
  destruct s1 as [|c s2]; auto.
  destruct (is_ "}" c) eqn:Hc; auto.
  apply is_true in Hc. subst c. intros [= <- _].
  exists (py "{" ++ w ++ py "}"). split.
  - now constructor.
  - rewrite Hs at 1. now flatten.
Qed.

End Loops.

(** What [scan_once] takes for a value is one. *)
Lemma scan_once_split (depth : nat) (s : str) (idx : nat) (rest : str) (e : nat) :
  code_points s ->
  scan_once depth s idx = Ok rest e ->
  exists v, Lenient.value v /\ s = v ++ rest.
Proof.
  revert s idx rest e; induction depth as [|depth IH]; intros s idx rest e Hcp;
    [discriminate|].
  destruct s as [|c s']; [discriminate|]. rewrite scan_once_S.
  assert (Hcp' : code_points s') by now apply (code_points_tail [c]).
  destruct (is_ "034" c) eqn:Hq.
  { apply is_true in Hq. subst c. intros H.
    destruct (scanstring_split _ _ _ _ _ Hcp' H) as (cs & Hcs & Hs).
    exists (dquote ++ cs ++ dquote). split; [now constructor|].
    rewrite Hs. now flatten. }
  destruct (is_ "{" c) eqn:Hbrace.
  { apply is_true in Hbrace. subst c. intros H.
    exact (parse_object_split _ IH _ _ _ _ Hcp' H). }
  destruct (is_ "[" c) eqn:Hbracket.
  { apply is_true in Hbracket. subst c. intros H.
    exact (parse_array_split _ IH _ _ _ _ Hcp' H). }
  destruct (match_constant constants (c :: s') idx) as [[r i]|] eqn:Hc.
  { intros [= <- _]. apply match_constant_split in Hc.
    destruct Hc as (name & Hname & Hs). exists (py name). split; auto.
    now constructor. }
  destruct (match_number (c :: s') idx) as [[r i]|] eqn:Hn; [|discriminate].
  intros [= <- _]. apply match_number_split in Hn.
  destruct Hn as (n & Hn & Hs). exists n. split; auto. now constructor.
Qed.

(** Every text that [json.loads] accepts is a text of the grammar. *)
Lemma json_loads_text (s : str) :
  code_points s -> json_loads s = Parsed -> Lenient.text s.
Proof.
  intros Hcp. unfold json_loads.
  destruct (match s with c :: _ => N.eqb c 65279 | [] => false end);
    [discriminate|].
  destruct (skip_ws_split s 0) as (w1 & Hw1 & Hs).
  destruct (skip_ws s 0) as [s0 idx]. simpl in Hs.
  destruct (scan_once (S (length s)) s0 idx) as [rest e| | |] eqn:Hscan;
    try discriminate.
  apply scan_once_split in Hscan.
  2:{ rewrite Hs in Hcp. now apply code_points_tail in Hcp. }
  destruct Hscan as (v & Hv & Hs0).
  destruct (skip_ws_split rest e) as (w2 & Hw2 & Hrest).
  destruct (skip_ws rest e) as [rest' e']. simpl in Hrest.
  destruct rest' as [|c r]; [|discriminate]. intros _.
  exists w1, v, w2. repeat split; auto.
  rewrite Hs, Hs0, Hrest at 1. now rewrite app_nil_r.
Qed.

End Sound.

(* ================================================================== *)
(** * What is in the grammar, [json.loads] accepts *)

Module Exact.

Import PyJson Accepts.

#[local] Arguments is_ a !c /.
#[local] Arguments is_ws !c /.

(** A value of the decoder starts as a JSON value does, or with the first
    letter of [NaN] or of [Infinity]. *)
Lemma lenient_value_first (v : str) :
  Lenient.value v ->
  exists c v', v = c :: v'
               /\ (In c (py "ntfNI[{") \/ c = 34%N \/ c = 45%N \/ Json.digit c).
Proof.
  intros [name Hname|n Hn|cs _|w _|es _|w _|ms _];
    try (eexists _, _; split; [reflexivity|]; simpl; tauto).
  - simpl in Hname.
    decompose [or] Hname; try contradiction; subst name;
      (eexists _, _; split; [reflexivity|]; simpl; tauto).
  - destruct (number_head _ Hn) as (c & n' & -> & Hc).
    exists c, n'. split; [reflexivity|]. tauto.
Qed.

Lemma lenient_value_head (v : str) :
  Lenient.value v ->
  exists c v', v = c :: v'
               /\ is_ws c = false /\ is_ "]" c = false /\ is_ "}" c = false
               /\ N.eqb c 65279 = false.
Proof.
  intros Hv. destruct (lenient_value_first v Hv) as (c & v' & -> & Hc).
  exists c, v'. split; [reflexivity|].
  unfold is_ws. unfold Json.digit in Hc. simpl In in Hc.
  rewrite !orb_false_iff, !is_false, N.eqb_neq. simpl. lia.
Qed.

Lemma skip_ws_lenient_value (v s : str) (idx : nat) :
  Lenient.value v -> skip_ws (v ++ s) idx = (v ++ s, idx).
Proof.
  intros Hv. destruct (lenient_value_head _ Hv) as (c & v' & -> & Hc & _).
  now apply skip_ws_stop.
Qed.

(** The scanner takes every value of the grammar, and the loops its
    elements and members, whatever comes after them. *)
Lemma scan_once_complete :
  (forall v, Lenient.value v ->
     forall depth rest idx,
       length v < depth -> ends_value rest ->
       scan_once depth (v ++ rest) idx = Ok rest (length v + idx))
  /\ (forall es, Lenient.elements es ->
        forall depth rest idx,
          length es < depth ->
          exists c s i,
            skip_ws (es ++ 93%N :: rest) idx = (c :: s, i)
            /\ is_ "]" c = false
            /\ forall n, length s < n ->
                 array_loop (scan_once depth) n (c :: s) i
                 = Ok rest (S (length es) + idx))
  /\ (forall ms, Lenient.members ms ->
        forall depth rest idx,
          length ms < depth ->
          exists c s i,
            skip_ws (ms ++ 125%N :: rest) idx = (c :: s, i)
            /\ is_ "}" c = false
            /\ forall n, length s < n ->
                 object_loop (scan_once depth) n (c :: s) i
                 = Ok rest (S (length ms) + idx)).
Proof.
  apply Lenient.value_mutind.
  - (* a literal name *)
    intros name Hname [|depth] rest idx Hd _; [inversion Hd|].
    simpl in Hname.
    decompose [or] Hname; try contradiction; subst name; reflexivity.
  - (* number *)
    intros n Hn [|depth] rest idx Hd Hrest; [inversion Hd|].
    destruct (number_head _ Hn) as (c & n' & Heq & Hc).
    pose proof (number_not_constant n rest idx Hn) as Hconst.
    pose proof (match_number_app n rest idx Hn Hrest) as Hnum.
    rewrite Heq in *. simpl app in *. rewrite scan_once_S, Hconst, Hnum.
    unfold Json.digit in Hc.
    assert (Hq : is_ "034" c = false) by (apply is_false; simpl; lia).
    assert (Ho : is_ "{" c = false) by (apply is_false; simpl; lia).
    assert (Ha : is_ "[" c = false) by (apply is_false; simpl; lia).
    now rewrite Hq, Ho, Ha.
  - (* string *)
    intros cs Hcs [|depth] rest idx Hd _; [inversion Hd|].
    unfold dquote. flatten.
    rewrite scan_once_S. decide_chars.
    rewrite scanstring_app by assumption.
    f_equal. lengths.
  - (* empty array *)
    intros w Hw [|depth] rest idx Hd _; [inversion Hd|].
    eval_literals. flatten.
    rewrite scan_once_S. decide_chars.
    unfold parse_array.
    rewrite skip_ws_app, skip_ws_stop by (assumption || reflexivity).
    decide_chars. f_equal. lengths.
  - (* array *)
    intros es _ IH [|depth] rest idx Hd _; [inversion Hd|].
    eval_literals. flatten.
    rewrite scan_once_S. decide_chars.
    lengths.
    destruct (IH depth rest (S idx)) as (c & s & i & Hskip & Hc & Hloop);
      [lia|].
    unfold parse_array. rewrite Hskip, Hc, Hloop by (simpl; lia).
    f_equal. lengths.
  - (* empty object *)
    intros w Hw [|depth] rest idx Hd _; [inversion Hd|].
    eval_literals. flatten.
    rewrite scan_once_S. decide_chars.
    unfold parse_object.
    rewrite skip_ws_app, skip_ws_stop by (assumption || reflexivity).
    decide_chars. f_equal. lengths.
  - (* object *)
    intros ms _ IH [|depth] rest idx Hd _; [inversion Hd|].
    eval_literals. flatten.
    rewrite scan_once_S. decide_chars.
    lengths.
    destruct (IH depth rest (S idx)) as (c & s & i & Hskip & Hc & Hloop);
      [lia|].
    unfold parse_object. rewrite Hskip, Hc, Hloop by (simpl; lia).
    f_equal. lengths.
  - (* one element *)
    intros w1 v w2 Hw1 Hv IHv Hw2 depth rest idx Hd.
    lengths.
    destruct (lenient_value_head _ Hv) as (c & v' & Heq & Hws & Hc & _).
    exists c, (v' ++ w2 ++ 93%N :: rest), (length w1 + idx).
    split; [|split; auto].
    + flatten. rewrite skip_ws_app by assumption.
      rewrite Heq. simpl app. now apply skip_ws_stop.
    + intros [|n] Hn; [inversion Hn|].
      rewrite (array_loop_turn _ n _ _ w2 93%N rest (length v + (length w1 + idx)));
        auto.
      * decide_chars. f_equal. lengths.
      * change (c :: v' ++ w2 ++ 93%N :: rest)
          with ((c :: v') ++ w2 ++ 93%N :: rest).
        rewrite <- Heq. apply IHv; [lia|]. apply ends_value_ws; auto.
  - (* more elements *)
    intros w1 v w2 es Hw1 Hv IHv Hw2 Hes IHes depth rest idx Hd.
    eval_literals. lengths.
    destruct (lenient_value_head _ Hv) as (c & v' & Heq & Hws & Hc & _).
    exists c, (v' ++ w2 ++ 44%N :: es ++ 93%N :: rest), (length w1 + idx).
    split; [|split; auto].
    + flatten. rewrite skip_ws_app by assumption.
      rewrite Heq. simpl app. now apply skip_ws_stop.
    + intros [|n] Hn; [inversion Hn|].
      rewrite (array_loop_turn _ n _ _ w2 44%N (es ++ 93%N :: rest)
                               (length v + (length w1 + idx))); auto.
      * decide_chars.
        destruct (IHes depth rest (S (length w2 + (length v + (length w1 + idx)))))
          as (c' & s' & i' & Hskip & _ & Hloop); [lia|].
        rewrite Hskip. rewrite Hloop.
        -- f_equal. lengths.
        -- apply skip_ws_smaller in Hskip. lengths.
      * change (c :: v' ++ w2 ++ 44%N :: es ++ 93%N :: rest)
          with ((c :: v') ++ w2 ++ 44%N :: es ++ 93%N :: rest).
        rewrite <- Heq. apply IHv; [lia|]. apply ends_value_ws; auto.
  - (* one member *)
    intros w1 k w2 w3 v w4 Hw1 Hk Hw2 Hw3 Hv IHv Hw4 depth rest idx Hd.
    unfold dquote in *. eval_literals.
    lengths.
    exists 34%N, (k ++ 34%N :: w2 ++ 58%N :: w3 ++ v ++ w4 ++ 125%N :: rest),
      (length w1 + idx).
    split; [|split; auto].
    + flatten. rewrite skip_ws_app by assumption. reflexivity.
    + intros [|n] Hn; [inversion Hn|].
      rewrite (object_loop_turn _ n k w2 w3 _ _ w4 125%N rest
                 (length v + (length w3 + S (length w2
                                + (S (length k) + S (length w1 + idx))))));
        auto.
      * decide_chars. f_equal. lengths.
      * apply IHv; [lia|]. apply ends_value_ws; auto.
      * intros j. now apply skip_ws_lenient_value.
  - (* more members *)
    intros w1 k w2 w3 v w4 ms Hw1 Hk Hw2 Hw3 Hv IHv Hw4 Hms IHms
           depth rest idx Hd.
    unfold dquote in *. eval_literals.
    lengths.
    exists 34%N,
      (k ++ 34%N :: w2 ++ 58%N :: w3 ++ v ++ w4 ++ 44%N :: ms ++ 125%N :: rest),
      (length w1 + idx).
    split; [|split; auto].
    + flatten. rewrite skip_ws_app by assumption. reflexivity.
    + intros [|n] Hn; [inversion Hn|].
      rewrite (object_loop_turn _ n k w2 w3 _ _ w4 44%N (ms ++ 125%N :: rest)
                 (length v + (length w3 + S (length w2
                                + (S (length k) + S (length w1 + idx))))));
        auto.
      * decide_chars.
        match goal with
        | |- context [skip_ws _ ?j] =>
            destruct (IHms depth rest j)
              as (c' & s' & i' & Hskip & _ & Hloop); [lia|]
        end.
        rewrite Hskip. rewrite Hloop.
        -- f_equal. lengths.
        -- apply skip_ws_smaller in Hskip. lengths.
      * apply IHv; [lia|]. apply ends_value_ws; auto.
      * intros j. now apply skip_ws_lenient_value.
Qed.

(** [json.loads] accepts every text of the grammar. *)
Lemma json_loads_complete (t : str) : Lenient.text t -> json_loads t = Parsed.
Proof.
  intros (w1 & v & w2 & Hw1 & Hv & Hw2 & ->).
  destruct scan_once_complete as [Hvalue _].
  unfold json_loads.
  assert (Hbom : match w1 ++ v ++ w2 with
                 | c :: _ => N.eqb c 65279
                 | [] => false
                 end = false).
  { destruct (lenient_value_head _ Hv) as (c & v' & -> & _ & _ & _ & Hc).
    destruct Hw1 as [|c1 w1 Hc1 _]; simpl; auto.
    unfold Json.ws_char in Hc1. apply N.eqb_neq. lia. }
  rewrite Hbom, skip_ws_app, skip_ws_lenient_value by assumption.
  rewrite Hvalue.
  - rewrite Decoder.skip_ws_all by assumption. reflexivity.
  - assumption.
  - lengths.
  - destruct Hw2; simpl; auto.
Qed.

(** The grammar of JSON is within that of the decoder. *)
Lemma json_value_lenient :
  (forall v, Json.value v -> Lenient.value v)
  /\ (forall es, Json.elements es -> Lenient.elements es)
  /\ (forall ms, Json.members ms -> Lenient.members ms).
Proof.
  apply Json.value_mutind; intros;
    try (apply (Lenient.value_constant "null"); simpl; tauto);
    try (apply (Lenient.value_constant "true"); simpl; tauto);
    try (apply (Lenient.value_constant "false"); simpl; tauto);
    try (constructor; assumption).
Qed.

End Exact.

(* ================================================================== *)
(** * The script under CPython, further *)

(** Without the letters [N] and [I] a value of the decoder is one of
    JSON. *)
Lemma lenient_value_json :
  (forall v, Lenient.value v ->
     ~ In 78%N v -> ~ In 73%N v -> Json.value v)
  /\ (forall es, Lenient.elements es ->
        ~ In 78%N es -> ~ In 73%N es -> Json.elements es)
  /\ (forall ms, Lenient.members ms ->
        ~ In 78%N ms -> ~ In 73%N ms -> Json.members ms).
Proof.
  apply Lenient.value_mutind.
  - intros name Hname HN HI. simpl in Hname.
    decompose [or] Hname; try contradiction; subst name;
      try (constructor; fail); exfalso; (apply HN + apply HI); simpl; tauto.
  - intros n Hn _ _. now constructor.
  - intros cs Hcs _ _. now constructor.
  - intros w Hw _ _. now constructor.
  - intros es _ IH HN HI. apply Json.value_array.
    apply IH; intros H; [apply HN|apply HI]; in_part.
  - intros w Hw _ _. now constructor.
  - intros ms _ IH HN HI. apply Json.value_object.
    apply IH; intros H; [apply HN|apply HI]; in_part.
  - intros w1 v w2 Hw1 _ IH Hw2 HN HI. apply Json.elements_one; auto.
    apply IH; intros H; [apply HN|apply HI]; in_part.
  - intros w1 v w2 es Hw1 _ IHv Hw2 _ IHes HN HI.
    apply Json.elements_more; auto.
    + apply IHv; intros H; [apply HN|apply HI]; in_part.
    + apply IHes; intros H; [apply HN|apply HI]; in_part.
  - intros w1 k w2 w3 v w4 Hw1 Hk Hw2 Hw3 _ IH Hw4 HN HI.
    apply Json.members_one; auto.
    apply IH; intros H; [apply HN|apply HI]; in_part.
  - intros w1 k w2 w3 v w4 ms Hw1 Hk Hw2 Hw3 _ IHv Hw4 _ IHms HN HI.
    apply Json.members_more; auto.
    + apply IHv; intros H; [apply HN|apply HI]; in_part.
    + apply IHms; intros H; [apply HN|apply HI]; in_part.
Qed.

Lemma code_points_strip (line : str) :
  code_points line -> code_points (strip line).
Proof.
  intros H. destruct (strip_split line) as (a & b & Hl & _).
  rewrite Hl in H. unfold code_points in *.
  apply Forall_app in H. destruct H as [_ H].
  apply Forall_app in H. tauto.
Qed.




(* ================================================================== *)
(** * Where the decoder points *)

Module Positions.

Import PyJson Accepts.

#[local] Arguments is_ a !c /.
#[local] Arguments is_ws !c /.

Lemma skip_ws_index (s : str) (idx : nat) :
  snd (skip_ws s idx) + length (fst (skip_ws s idx)) = idx + length s.
Proof.
  revert idx; induction s as [|c s IH]; intros idx; simpl; auto.
  destruct (is_ws c); simpl; [rewrite IH; lia | auto].
Qed.

Lemma skip_digits_index (s : str) (idx : nat) :
  snd (skip_digits s idx) + length (fst (skip_digits s idx)) = idx + length s.
Proof.
  revert idx; induction s as [|c s IH]; intros idx; simpl; auto.
  destruct (is_digit c); simpl; [rewrite IH; lia | auto].
Qed.

Lemma match_frac_index (s : str) (idx : nat) :
  snd (match_frac s idx) + length (fst (match_frac s idx)) = idx + length s.
Proof.
  unfold match_frac. destruct s as [|dot [|d s']]; auto.
  destruct (is_ "." dot && is_digit d); auto.
  rewrite skip_digits_index. cbn [length]. lia.
Qed.

Lemma match_exp_index (s : str) (idx : nat) :
  snd (match_exp s idx) + length (fst (match_exp s idx)) = idx + length s.
Proof.
  unfold match_exp. destruct s as [|e s1]; auto.
  destruct (is_ "e" e || is_ "E" e); auto.
  assert (Hgo : forall s2 i2, i2 + length s2 = idx + length (e :: s1) ->
            let r := match s2 with
                     | d :: s3 =>
                         if is_digit d then skip_digits s3 (S i2)
                         else (e :: s1, idx)
                     | [] => (e :: s1, idx)
                     end in
            snd r + length (fst r) = idx + length (e :: s1)).
  { intros [|d s3] i2 Hi; cbv zeta; auto. destruct (is_digit d); auto.
    rewrite skip_digits_index. cbn [length] in *. unfold str in *. lia. }
  destruct s1 as [|sign [|d s']].
  - apply (Hgo [] (S idx)). cbn [length]. lia.
  - apply (Hgo [sign] (S idx)). cbn [length]. lia.
  - destruct (is_ "-" sign || is_ "+" sign).
    + apply (Hgo (d :: s') (2 + idx)). cbn [length]. lia.
    + apply (Hgo (sign :: d :: s') (S idx)). cbn [length]. lia.
Qed.

Lemma match_number_index (s : str) (idx : nat) (rest : str) (e : nat) :
  match_number s idx = Some (rest, e) -> e + length rest = idx + length s.
Proof.
  unfold match_number.
  assert (Hgo : forall s1 i1, i1 + length s1 = idx + length s ->
            match s1 with
            | c :: s2 =>
                if is_digit19 c then
                  let (s3, i3) := skip_digits s2 (S i1) in
                  let (s4, i4) := match_frac s3 i3 in
                  Some (match_exp s4 i4)
                else if is_ "0" c then
                  let (s4, i4) := match_frac s2 (S i1) in
                  Some (match_exp s4 i4)
                else None
            | [] => None
            end = Some (rest, e) -> e + length rest = idx + length s).
  { intros [|c s2] i1 Hi; [discriminate|]. cbn [length] in Hi.
    destruct (is_digit19 c).
    - pose proof (skip_digits_index s2 (S i1)) as H3.
      destruct (skip_digits s2 (S i1)) as [s3 i3]. simpl in H3.
      pose proof (match_frac_index s3 i3) as H4.
      destruct (match_frac s3 i3) as [s4 i4]. simpl in H4.
      pose proof (match_exp_index s4 i4) as H5.
      intros [= H]. rewrite H in H5. simpl in H5. unfold str in *. lia.
    - destruct (is_ "0" c); [|discriminate].
      pose proof (match_frac_index s2 (S i1)) as H4.
      destruct (match_frac s2 (S i1)) as [s4 i4]. simpl in H4.
      pose proof (match_exp_index s4 i4) as H5.
      intros [= H]. rewrite H in H5. simpl in H5. unfold str in *. lia. }
  destruct s as [|c s']; [discriminate|].
  destruct (is_ "-" c).
  - apply (Hgo s' (S idx)). cbn [length]. lia.
  - apply (Hgo (c :: s') idx). auto.
Qed.

Lemma py_length (s : string) : length (py s) = String.length s.
Proof.
  unfold py. rewrite length_map.
  induction s as [|a s IH]; simpl; auto.
Qed.

Lemma match_constant_index (names : list string) (s : str) (idx : nat)
      (rest : str) (e : nat) :
  match_constant names s idx = Some (rest, e) ->
  e + length rest = idx + length s.
Proof.
  induction names as [|name names IH]; simpl; [discriminate|].
  destruct (after_prefix (py name) s) as [r|] eqn:Hp; auto.
  intros [= <- <-]. apply Decoder.after_prefix_length in Hp.
  rewrite py_length in Hp. unfold str in *. lia.
Qed.

(** A result that points into the rest of a text points into the text. *)
Lemma located_later (s s' : str) (idx k : nat) (r : scan_result) :
  length s = k + length s' -> located s' (k + idx) r -> located s idx r.
Proof.
  intros Hl. destruct r; unfold located; unfold str in *;
    try rewrite Hl; intuition lia.
Qed.

Lemma scanstring_located (begin : nat) (s : str) (end_ : nat) :
  begin <= end_ -> located s end_ (scanstring begin s end_).
Proof.
  revert end_. induction s as [s IH] using (well_founded_induction
    (Wf_nat.well_founded_ltof _ (@Datatypes.length N))). unfold Wf_nat.ltof in IH.
  intros end_ Hb. destruct s as [|c s1]; [close_located|].
  rewrite scanstring_cons.
  destruct (is_ "034" c); [close_located|].
  destruct (is_ "\" c).
  - destruct s1 as [|esc s2]; [close_located|].
    destruct (is_ "u" esc).
    + destruct s2 as [|h1 [|h2 [|h3 [|h4 [|c5 s3]]]]]; try close_located.
      destruct (is_hex h1 && is_hex h2 && is_hex h3 && is_hex h4);
        [|close_located].
      apply (located_later _ (c5 :: s3) _ 6); [reflexivity|].
      apply IH; [cbn [length]|]; lia.
    + destruct (is_escape esc); [|close_located].
      apply (located_later _ s2 _ 2); [reflexivity|].
      apply IH; [cbn [length]|]; lia.
  - destruct (c <=? 31)%N; [close_located|].
    apply (located_later _ s1 _ 1); [reflexivity|].
    apply IH; [cbn [length]|]; lia.
Qed.

Section Loops.

Variable scan : str -> nat -> scan_result.

Hypothesis scan_located : forall s idx, located s idx (scan s idx).

Lemma array_loop_located (n : nat) (s : str) (idx : nat) :
  located s idx (array_loop scan n s idx).
Proof.
  revert s idx; induction n as [|n IH]; intros s idx; [exact I|].
  simpl. pose proof (scan_located s idx) as Hscan.
  destruct (scan s idx) as [s1 i1| | |]; auto.
  pose proof (skip_ws_index s1 i1) as H2.
  destruct (skip_ws s1 i1) as [s2 i2]. simpl in H2, Hscan.
  destruct s2 as [|c s3]; [close_located|].
  destruct (is_ "]" c); [close_located|].
  destruct (is_ "," c); [|close_located].
  pose proof (skip_ws_index s3 (S i2)) as H4.
  destruct (skip_ws s3 (S i2)) as [s4 i4]. simpl in H4.
  specialize (IH s4 i4).
  destruct (array_loop scan n s4 i4); close_located.
Qed.

Lemma parse_array_located (s : str) (idx : nat) :
  located s idx (parse_array scan s idx).
Proof.
  unfold parse_array. pose proof (skip_ws_index s idx) as H1.
  destruct (skip_ws s idx) as [s1 i1]. simpl in H1.
  assert (Hloop : located s idx (array_loop scan (S (length s1)) s1 i1)).
  { pose proof (array_loop_located (S (length s1)) s1 i1) as H.
    destruct (array_loop scan (S (length s1)) s1 i1); close_located. }
  destruct s1 as [|c s2]; auto.
  destruct (is_ "]" c); auto. close_located.
Qed.

Lemma object_loop_located (n : nat) (s : str) (idx : nat) :
  located s idx (object_loop scan n s idx).
Proof.
  revert s idx; induction n as [|n IH]; intros s idx; [exact I|].
  simpl. destruct s as [|q s0]; [close_located|].
  destruct (is_ "034" q); [|close_located].
  pose proof (scanstring_located idx s0 (S idx) ltac:(lia)) as Hkey.
  destruct (scanstring idx s0 (S idx)) as [s1 i1| | |]; try close_located.
  pose proof (skip_ws_index s1 i1) as H2.
  destruct (skip_ws s1 i1) as [s2 i2]. simpl in H2, Hkey.
  destruct s2 as [|colon s3]; [close_located|].
  destruct (is_ ":" colon); [|close_located].
  pose proof (skip_ws_index s3 (S i2)) as H4.
  destruct (skip_ws s3 (S i2)) as [s4 i4]. simpl in H4.
  pose proof (scan_located s4 i4) as Hscan.
  destruct (scan s4 i4) as [s5 i5| | |]; try close_located.
  pose proof (skip_ws_index s5 i5) as H6.
  destruct (skip_ws s5 i5) as [s6 i6]. simpl in H6, Hscan.
  destruct s6 as [|c s7]; [close_located|].
  destruct (is_ "}" c); [close_located|].
  destruct (is_ "," c); [|close_located].
  pose proof (skip_ws_index s7 (S i6)) as H8.
  destruct (skip_ws s7 (S i6)) as [s8 i8]. simpl in H8.
  specialize (IH s8 i8).
  destruct (object_loop scan n s8 i8); close_located.
Qed.

Lemma parse_object_located (s : str) (idx : nat) :
  located s idx (parse_object scan s idx).
Proof.
  unfold parse_object. pose proof (skip_ws_index s idx) as H1.
  destruct (skip_ws s idx) as [s1 i1]. simpl in H1.
  assert (Hloop : located s idx (object_loop scan (S (length s1)) s1 i1)).
  { pose proof (object_loop_located (S (length s1)) s1 i1) as H.
    destruct (object_loop scan (S (length s1)) s1 i1); close_located. }
  destruct s1 as [|c s2]; auto.
  destruct (is_ "}" c); auto. close_located.
Qed.

End Loops.

Lemma scan_once_located (depth : nat) (s : str) (idx : nat) :
  located s idx (scan_once depth s idx).
Proof.
  revert s idx; induction depth as [|depth IH]; intros s idx; [exact I|].
  destruct s as [|c s']; [close_located|]. rewrite scan_once_S.
  destruct (is_ "034" c).
  { apply (located_later _ s' _ 1); [reflexivity|].
    pose proof (scanstring_located idx s' (S idx) ltac:(lia)) as H.
    destruct (scanstring idx s' (S idx)); close_located. }
  destruct (is_ "{" c).
  { apply (located_later _ s' _ 1); [reflexivity|].
    apply (parse_object_located _ IH). }
  destruct (is_ "[" c).
  { apply (located_later _ s' _ 1); [reflexivity|].
    apply (parse_array_located _ IH). }
  destruct (match_constant constants (c :: s') idx) as [[rest e]|] eqn:Hc.
  { apply match_constant_index in Hc. exact Hc. }
  destruct (match_number (c :: s') idx) as [[rest e]|] eqn:Hn.
  { apply match_number_index in Hn. exact Hn. }
  close_located.
Qed.

(** What [json.loads] raises: one of the messages of the decoder, at a
    position of the document or its end. *)
Lemma json_loads_raises (s e : str) :
  json_loads s = Raised e ->
  exists msg pos,
    In msg decoder_messages /\ pos <= length s /\ e = errmsg msg s pos.
Proof.
  unfold json_loads.
  destruct (match s with c :: _ => N.eqb c 65279 | [] => false end).
  { intros [= <-]. exists "Unexpected UTF-8 BOM (decode using utf-8-sig)"%string, 0.
    repeat split; [known_message|lia]. }
  pose proof (skip_ws_index s 0) as H0.
  pose proof (skip_ws_length s 0) as Hl.
  destruct (skip_ws s 0) as [s0 idx]. simpl in H0, Hl.
  pose proof (scan_once_located (S (length s)) s0 idx) as Hloc.
  pose proof (Decoder.scan_once_consumes (S (length s)) s0 idx
                ltac:(unfold str in *; lia)) as Hc.
  destruct (scan_once (S (length s)) s0 idx) as [rest i|i|msg pos|];
    simpl in Hloc.
  - pose proof (skip_ws_index rest i) as H1.
    destruct (skip_ws rest i) as [rest' e']. simpl in H1.
    destruct (not_ rest'); [discriminate|]. intros [= <-].
    exists "Extra data"%string, e'.
    repeat split; [known_message|unfold str in *; lia].
  - intros [= <-]. exists "Expecting value"%string, i.
    repeat split; [known_message|unfold str in *; lia].
  - intros [= <-]. exists msg, pos. destruct Hloc.
    repeat split; auto. unfold str in *; lia.
  - now elim Hc.
Qed.

(** In a document of one line every position is on line 1, in the column
    after it. *)
Lemma count_newlines_one_line (s : str) (pos : nat) :
  ~ In 10%N s -> count_newlines s pos = 0.
Proof.
  revert pos; induction s as [|c s IH]; intros [|pos] Hs; simpl; auto.
  assert (Hc : is_ "010" c = false).
  { apply is_false. intros ->. apply Hs. now left. }
  rewrite Hc, IH; auto. intros H. apply Hs. now right.
Qed.

Lemma column_one_line (s : str) (pos col : nat) :
  ~ In 10%N s -> pos <= length s -> column s pos col = pos + col.
Proof.
  revert pos col; induction s as [|c s IH]; intros [|pos] col Hs Hp; simpl; auto.
  - simpl in Hp. lia.
  - assert (Hc : is_ "010" c = false).
    { apply is_false. intros ->. apply Hs. now left. }
    rewrite Hc, IH; [lia| |simpl in Hp; lia].
    intros H. apply Hs. now right.
Qed.

Lemma errmsg_one_line (msg : string) (s : str) (pos : nat) :
  ~ In 10%N s -> pos <= length s ->
  errmsg msg s pos = errmsg_on_line_one msg pos.
Proof.
  intros Hs Hp. unfold errmsg, errmsg_on_line_one.
  rewrite count_newlines_one_line, column_one_line by assumption.
  replace (pos + 1) with (S pos) by lia. reflexivity.
Qed.

End Positions.

(* ================================================================== *)
(** * The form of the diagnostics *)

Lemma removelast_middle (A : Type) (x : A) (p q : list A) :
  q <> [] -> In x (removelast (p ++ x :: q)).
Proof.
  intros Hq. rewrite removelast_app by discriminate.
  apply in_or_app. right. destruct q; [now elim Hq|]. now left.
Qed.

Lemma removelast_incl (A : Type) (x : A) (l : list A) :
  In x (removelast l) -> In x l.
Proof.
  induction l as [|a [|b l] IH]; simpl in *; tauto.
Qed.

(** The lines that the iteration of a text yields, whatever its line
    ends. *)
Lemma io_lines_one_line (t cur : str) :
  ~ In 10%N cur -> Forall one_line (io_lines cur t).
Proof.
  revert cur; induction t as [|c t IH]; intros cur Hcur.
  - simpl. destruct cur; simpl; constructor; auto.
    intros H. apply Hcur. now apply removelast_incl.
  - assert (Hend : forall d, one_line (cur ++ [d])).
    { intros d. unfold one_line. now rewrite removelast_last. }
    cbn [io_lines]. unfold is_.
    destruct (N.eqb_spec c (N_of_ascii "010")) as [->|Hc10].
    { constructor; [apply Hend|]. apply IH. intros []. }
    destruct (N.eqb_spec c (N_of_ascii "013")) as [->|Hc13].
    + destruct t as [|c' t']; [repeat constructor; apply Hend|].
      destruct (N.eqb_spec c' (N_of_ascii "010")) as [->|Hc'].
      * constructor; [apply Hend|].
        specialize (IH [] ltac:(intros [])). cbn [io_lines] in IH.
        change (is_ "010" (N_of_ascii "010")) with true in IH. cbv iota in IH.
        now inversion IH.
      * constructor; [apply Hend|]. apply IH. intros [].
    + apply IH. rewrite in_app_iff. simpl. intros [H|[H|[]]]; auto.
Qed.

(** The stripped text of such a line has no line feed. *)
Lemma strip_one_line (l : str) : one_line l -> ~ In 10%N (strip l).
Proof.
  intros Hl Hin. apply in_split in Hin. destruct Hin as (s1 & s2 & Hs).
  destruct (strip_split l) as (a & b & Heq & _).
  destruct (s2 ++ b) as [|x q] eqn:Hq.
  - apply app_eq_nil in Hq. destruct Hq as [-> _].
    apply strip_last in Hs. discriminate.
  - apply Hl. rewrite Heq, Hs.
    replace (a ++ (s1 ++ 10%N :: s2) ++ b) with ((a ++ s1) ++ 10%N :: s2 ++ b)
      by now rewrite <- !app_assoc.
    apply removelast_middle. rewrite Hq. discriminate.
Qed.

(** The characters of [str(n)] for an [int]: a minus sign and digits. *)
Lemma str_of_int_chars (i : Z) (c : N) :
  In c (str_of_int i) -> c = 45%N \/ (48 <= c <= 57)%N.
Proof.
  assert (Hu : forall d, In c (py (NilEmpty.string_of_uint d)) ->
                         (48 <= c <= 57)%N).
  { induction d; simpl; intros H; try (destruct H as [H|H]; [subst c; lia|]);
      auto. now elim H. }
  assert (Hz : forall d, In c (py (NilZero.string_of_uint d)) ->
                         (48 <= c <= 57)%N).
  { intros d. destruct d; try (intros H; exact (Hu _ H)).
    simpl. intros [H|[]]. subst c. lia. }
  unfold str_of_int. destruct (Z.to_int i) as [u|u]; simpl.
  - intros H. right. exact (Hz _ H).
  - intros [H|H]; [now left|]. right. exact (Hz _ H).
Qed.

Lemma decoder_messages_one_line (msg : string) :
  In msg decoder_messages -> ~ In 10%N (py msg).
Proof.
  unfold decoder_messages. simpl In at 1. intros H.
  decompose [or] H; try contradiction; subst msg;
    vm_compute; intuition discriminate.
Qed.

Lemma str_of_int_no_line_feed (i : Z) : ~ In 10%N (str_of_int i).
Proof. intros H. apply str_of_int_chars in H. lia. Qed.


(* ================================================================== *)
(** * The further runs *)

Lemma code_points_forallb (s : str) :
  forallb (fun c => (c <=? 1114111)%N) s = true -> code_points s.
Proof.
  rewrite forallb_forall. intros H. apply Forall_forall.
  intros c Hc. apply N.leb_le. now apply H.
Qed.

(** The first line of [Cases.indented]: what is parsed is the object alone. *)
Lemma indented_line_is_parsed_bare :
  nth_error (argv (Demo.world_text Cases.indented)) 1 = Some Demo.data
  /\ open_file (Demo.world_text Cases.indented) (posix_path_str Demo.data)
     = inr (file_of_text Cases.indented)
  /\ In (Demo.pyq "{'a':1}")
        (parsed (events (Demo.run_text Cases.indented)))
  /\ Demo.pyq "{'a':1}" <> []
  /\ strip (Demo.pyq "{'a':1}") = Demo.pyq "{'a':1}"
  /\ exists line a b,
       In line (lines (file_of_text Cases.indented))
       /\ Demo.pyq "{'a':1}" = strip line
       /\ line = a ++ Demo.pyq "{'a':1}" ++ b
       /\ Forall (fun c => isspace c = true) a
       /\ Forall (fun c => isspace c = true) b.
Proof.
  assert (Harg : nth_error (argv (Demo.world_text Cases.indented)) 1
                 = Some Demo.data) by reflexivity.
  assert (Hopen : open_file (Demo.world_text Cases.indented)
                            (posix_path_str Demo.data)
                  = inr (file_of_text Cases.indented))
    by (vm_compute; reflexivity).
  assert (Hin : In (Demo.pyq "{'a':1}")
                   (parsed (events (Demo.run_text Cases.indented))))
    by (vm_compute; tauto).
  destruct (json_loads_sees_stripped_lines
              PyJson.json_loads posix_path_str
              (Demo.world_text Cases.indented) Demo.data
              (file_of_text Cases.indented) (Demo.pyq "{'a':1}")
              Harg Hopen Hin)
    as (Hne & Hstrip & _ & _ & Hline).
  exact (conj Harg (conj Hopen (conj Hin (conj Hne (conj Hstrip Hline))))).
Defined.

(** Two objects, bare and with white space around them: the same run. *)
Lemma indented_objects_run_alike :
  nth_error (argv (Demo.world_text Demo.two_objects)) 1 = Some Demo.data
  /\ open_file (Demo.world_text Demo.two_objects) (posix_path_str Demo.data)
     = inr (file_of_text Demo.two_objects)
  /\ nth_error (argv (Demo.other_world Cases.two_objects_indented)) 1
     = Some Demo.data
  /\ open_file (Demo.other_world Cases.two_objects_indented)
               (posix_path_str Demo.data)
     = inr (file_of_text Cases.two_objects_indented)
  /\ map strip (lines (file_of_text Demo.two_objects))
     = map strip (lines (file_of_text Cases.two_objects_indented))
  /\ lines (file_of_text Demo.two_objects)
     <> lines (file_of_text Cases.two_objects_indented)
  /\ validate_jsonl PyJson.json_loads posix_path_str
                    (Demo.world_text Demo.two_objects)
     = validate_jsonl PyJson.json_loads posix_path_str
                      (Demo.other_world Cases.two_objects_indented).
Proof.
  assert (Harg : nth_error (argv (Demo.world_text Demo.two_objects)) 1
                 = Some Demo.data) by reflexivity.
  assert (Hopen : open_file (Demo.world_text Demo.two_objects)
                            (posix_path_str Demo.data)
                  = inr (file_of_text Demo.two_objects))
    by (vm_compute; reflexivity).
  assert (Harg' : nth_error (argv (Demo.other_world Cases.two_objects_indented)) 1
                  = Some Demo.data) by reflexivity.
  assert (Hopen' : open_file (Demo.other_world Cases.two_objects_indented)
                             (posix_path_str Demo.data)
                   = inr (file_of_text Cases.two_objects_indented))
    by (vm_compute; reflexivity).
  assert (Hlines : map strip (lines (file_of_text Demo.two_objects))
                   = map strip (lines (file_of_text Cases.two_objects_indented)))
    by (vm_compute; reflexivity).
  assert (Hdiff : lines (file_of_text Demo.two_objects)
                  <> lines (file_of_text Cases.two_objects_indented))
    by (vm_compute; discriminate).
  assert (Hpath : posix_path_str Demo.data = posix_path_str Demo.data)
    by reflexivity.
  assert (Hread : read_failure (file_of_text Demo.two_objects)
                  = read_failure (file_of_text Cases.two_objects_indented))
    by (vm_compute; reflexivity).
  exact (conj Harg (conj Hopen (conj Harg' (conj Hopen' (conj Hlines (conj Hdiff
          (white_space_around_lines_is_ignored
             PyJson.json_loads posix_path_str
             (Demo.world_text Demo.two_objects)
             (Demo.other_world Cases.two_objects_indented)
             Demo.data Demo.data
             (file_of_text Demo.two_objects)
             (file_of_text Cases.two_objects_indented)
             Harg Hopen Harg' Hopen' Hpath Hlines Hread))))))).
Defined.

(** The run on [Demo.one_bad_line]: its one diagnostic stands right after
    the second call of [json.loads], and the [[OK]] line is not printed. *)
Lemma bad_line_is_reported_at_once :
  nth_error (argv (Demo.world_text Demo.one_bad_line)) 1 = Some Demo.data
  /\ open_file (Demo.world_text Demo.one_bad_line) (posix_path_str Demo.data)
     = inr (file_of_text Demo.one_bad_line)
  /\ events (Demo.run_text Demo.one_bad_line)
     = [Parse (Demo.pyq "{'a':1}"); Parse (Demo.pyq "{bad json}")]
       ++ Print Cases.bad_line_report :: [Parse (Demo.pyq "{'c':3}")]
  /\ exists t0 s e k line,
       [Parse (Demo.pyq "{'a':1}"); Parse (Demo.pyq "{bad json}")]
       = t0 ++ [Parse s]
       /\ PyJson.json_loads s = Raised e
       /\ nth_error (lines (file_of_text Demo.one_bad_line)) k = Some line
       /\ s = strip line
       /\ Cases.bad_line_report
          = error_line (posix_path_str Demo.data) (1 + Z.of_nat k) e.
Proof.
  assert (Harg : nth_error (argv (Demo.world_text Demo.one_bad_line)) 1
                 = Some Demo.data) by reflexivity.
  assert (Hopen : open_file (Demo.world_text Demo.one_bad_line)
                            (posix_path_str Demo.data)
                  = inr (file_of_text Demo.one_bad_line))
    by (vm_compute; reflexivity).
  assert (Hev : events (Demo.run_text Demo.one_bad_line)
                = [Parse (Demo.pyq "{'a':1}"); Parse (Demo.pyq "{bad json}")]
                  ++ Print Cases.bad_line_report :: [Parse (Demo.pyq "{'c':3}")])
    by (vm_compute; reflexivity).
  destruct (diagnostics_follow_failed_calls
              PyJson.json_loads posix_path_str
              (Demo.world_text Demo.one_bad_line) Demo.data
              (file_of_text Demo.one_bad_line) Harg Hopen)
    as (Hprint & _).
  destruct (Hprint _ _ _ Hev) as [(_ & Hlast & _)|Hafter];
    [discriminate|].
  exact (conj Harg (conj Hopen (conj Hev Hafter))).
Defined.


(** [Demo.one_bad_line] as written on Windows. *)
Lemma crlf_file_runs_alike :
  ~ In 13%N Demo.one_bad_line
  /\ (carriage_return ++ newline = carriage_return ++ newline
      \/ carriage_return ++ newline = carriage_return)
  /\ nth_error (argv (Demo.world_text Demo.one_bad_line)) 1 = Some Demo.data
  /\ nth_error
       (argv (Demo.world_text
                (with_line_ends (carriage_return ++ newline) Demo.one_bad_line))) 1
     = Some Demo.data
  /\ open_file (Demo.world_text Demo.one_bad_line) (posix_path_str Demo.data)
     = inr (file_of_text Demo.one_bad_line)
  /\ open_file
       (Demo.world_text
          (with_line_ends (carriage_return ++ newline) Demo.one_bad_line))
       (posix_path_str Demo.data)
     = inr (file_of_text
              (with_line_ends (carriage_return ++ newline) Demo.one_bad_line))
  /\ with_line_ends (carriage_return ++ newline) Demo.one_bad_line
     <> Demo.one_bad_line
  /\ validate_jsonl PyJson.json_loads posix_path_str
       (Demo.world_text
          (with_line_ends (carriage_return ++ newline) Demo.one_bad_line))
     = validate_jsonl PyJson.json_loads posix_path_str
                      (Demo.world_text Demo.one_bad_line).
Proof.
  assert (Hcr : ~ In 13%N Demo.one_bad_line)
    by (vm_compute; intuition discriminate).
  assert (Hterm : carriage_return ++ newline = carriage_return ++ newline
                  \/ carriage_return ++ newline = carriage_return)
    by (left; reflexivity).
  assert (Harg : nth_error (argv (Demo.world_text Demo.one_bad_line)) 1
                 = Some Demo.data) by reflexivity.
  assert (Harg' : nth_error
                    (argv (Demo.world_text
                             (with_line_ends (carriage_return ++ newline)
                                             Demo.one_bad_line))) 1
                  = Some Demo.data) by reflexivity.
  assert (Hopen : open_file (Demo.world_text Demo.one_bad_line)
                            (posix_path_str Demo.data)
                  = inr (file_of_text Demo.one_bad_line))
    by (vm_compute; reflexivity).
  assert (Hopen' : open_file
                     (Demo.world_text
                        (with_line_ends (carriage_return ++ newline)
                                        Demo.one_bad_line))
                     (posix_path_str Demo.data)
                   = inr (file_of_text
                            (with_line_ends (carriage_return ++ newline)
                                            Demo.one_bad_line)))
    by (vm_compute; reflexivity).
  assert (Hdiff : with_line_ends (carriage_return ++ newline) Demo.one_bad_line
                  <> Demo.one_bad_line)
    by (vm_compute; discriminate).
  destruct (line_ends_make_no_difference
              PyJson.json_loads posix_path_str Demo.one_bad_line
              (carriage_return ++ newline)
              (Demo.world_text Demo.one_bad_line)
              (Demo.world_text
                 (with_line_ends (carriage_return ++ newline) Demo.one_bad_line))
              Demo.data Hcr Hterm Harg Harg' Hopen Hopen')
    as (_ & Hsame).
  exact (conj Hcr (conj Hterm (conj Harg (conj Harg' (conj Hopen (conj Hopen'
          (conj Hdiff Hsame))))))).
Defined.

(** The malformed line of [Demo.one_bad_line] is its second: one line feed
    stands before it. *)
Lemma bad_line_is_after_one_line_feed :
  ~ In 13%N Demo.one_bad_line
  /\ nth_error (lines (file_of_text Demo.one_bad_line)) 1
     = Some (Demo.pyq "{bad json}" ++ newline)
  /\ exists pre post,
       Demo.one_bad_line = pre ++ (Demo.pyq "{bad json}" ++ newline) ++ post
       /\ count_occ N.eq_dec pre 10%N = 1
       /\ (pre = [] \/ exists p, pre = p ++ newline)
       /\ Demo.pyq "{bad json}" ++ newline <> []
       /\ ~ In 10%N (removelast (Demo.pyq "{bad json}" ++ newline))
       /\ (post <> [] ->
           exists body, Demo.pyq "{bad json}" ++ newline = body ++ newline).
Proof.
  assert (Hcr : ~ In 13%N Demo.one_bad_line)
    by (vm_compute; intuition discriminate).
  assert (Hnth : nth_error (lines (file_of_text Demo.one_bad_line)) 1
                 = Some (Demo.pyq "{bad json}" ++ newline))
    by (vm_compute; reflexivity).
  exact (conj Hcr (conj Hnth
          (line_numbers_count_line_feeds
             Demo.one_bad_line 1 (Demo.pyq "{bad json}" ++ newline) Hcr Hnth))).
Defined.



